(** * Gravitational integration engine ([physics_engine.py])

    A shallow embedding of the classes [CelestialBody] and [GravityEngine]
    and of the theorems that relate them to the written specification.

    Conventions of the embedding.
    - A Python [float] and every component of a NumPy [float64] array is a
      real number ([R]): rounding, overflow, [inf] and [nan] are idealised
      away.  Division by zero, which NumPy answers with [inf]/[nan] and a
      warning, is the total division of [R] here; the statements that depend
      on a divisor carry the hypothesis that makes it non-zero.
    - A 3-component array is a [Vec3].  Every array a body owns is its own
      (the constructor copies, the engine rebinds or copies), so arrays are
      values.
    - A body collection is a Python [dict] from keys to bodies: its items in
      insertion order, [list (string * CelestialBody)].  The auxiliary dicts
      of the engine, which are only read and written by key, are
      [gmap string _].
    - A Python exception is the [Raise] outcome of [result]. *)

From Stdlib Require Import Reals Lra Lia.
From stdpp Require Import gmap strings list fin_maps.

Open Scope R_scope.

(** ** Vectors *)

Record Vec3 := mkVec3 { vx : R; vy : R; vz : R }.

(** [np.zeros(3)] *)
Definition zeros : Vec3 := mkVec3 0 0 0.

Definition vadd (a b : Vec3) : Vec3 :=
  mkVec3 (vx a + vx b) (vy a + vy b) (vz a + vz b).
Definition vsub (a b : Vec3) : Vec3 :=
  mkVec3 (vx a - vx b) (vy a - vy b) (vz a - vz b).
(** [array * scalar] *)
Definition vmul (a : Vec3) (s : R) : Vec3 :=
  mkVec3 (vx a * s) (vy a * s) (vz a * s).
(** [scalar * array] *)
Definition smul (s : R) (a : Vec3) : Vec3 :=
  mkVec3 (s * vx a) (s * vy a) (s * vz a).
(** [array / scalar] *)
Definition vdiv (a : Vec3) (s : R) : Vec3 :=
  mkVec3 (vx a / s) (vy a / s) (vz a / s).
(** [np.linalg.norm] *)
Definition norm (a : Vec3) : R :=
  sqrt (vx a * vx a + vy a * vy a + vz a * vz a).

Declare Scope vec_scope.
Delimit Scope vec_scope with V.
Bind Scope vec_scope with Vec3.
Infix "+v" := vadd (at level 50, left associativity) : vec_scope.
Infix "-v" := vsub (at level 50, left associativity) : vec_scope.
Infix "*s" := vmul (at level 40, left associativity) : vec_scope.
Infix "s*" := smul (at level 40, left associativity) : vec_scope.
Infix "/s" := vdiv (at level 40, left associativity) : vec_scope.
Open Scope vec_scope.

(** Python's [x ** y] on floats with a positive exponent, as far as the
    engine uses it: the real power for a positive base and [0.0] for the base
    [0.0].  (For a negative base and a fractional exponent Python answers with
    a complex number; the embedding has no such value and answers [0].) *)
Definition float_pow (x y : R) : R :=
  if Rlt_dec 0 x then Rpower x y else 0.

(** ** Outcomes of a call *)

Inductive exn := KeyError | IndexError | RuntimeError.

Inductive result (A : Type) : Type :=
| Ok (a : A)
| Raise (e : exn).
Arguments Ok {A} a.
Arguments Raise {A} e.

#[global] Instance result_ret : MRet result := fun A a => Ok a.
#[global] Instance result_bind : MBind result := fun A B k m =>
  match m with
  | Ok a => k a
  | Raise e => Raise e
  end.

(** [for x in l: acc = body(acc, x)] *)
Fixpoint foldM {A B} (f : B -> A -> result B) (l : list A) (acc : B)
  : result B :=
  match l with
  | [] => Ok acc
  | x :: l' => acc' ← f acc x; foldM f l' acc'
  end.

(** [for x in l: x = body(x)], each element updated in place *)
Fixpoint forM {A B} (f : A -> result B) (l : list A) : result (list B) :=
  match l with
  | [] => Ok []
  | x :: l' => y ← f x; ys ← forM f l'; Ok (y :: ys)
  end.

(** [d[k]] on a dict: [KeyError] when the key is absent. *)
Definition dict_get {V} (d : gmap string V) (k : string) : result V :=
  match d !! k with
  | Some v => Ok v
  | None => Raise KeyError
  end.

(** [l[i]] on a list with a non-negative index: [IndexError] out of range. *)
Definition list_get {A} (l : list A) (i : nat) : result A :=
  match l !! i with
  | Some a => Ok a
  | None => Raise IndexError
  end.

(** ** class CelestialBody *)

Record CelestialBody := mkBody {
  name : string;
  type : string;
  mass : R;
  radius : R;
  position : Vec3;
  velocity : Vec3;
  color : R * R * R;
  trail : list Vec3;
  max_trail_length : nat;
  orbit_calculated : bool;
  semi_major_axis : R;
  eccentricity : R;
  period : R;
  force : Vec3;
  acceleration : Vec3
}.

(** [CelestialBody.__init__].  The two rendering handles ([display_list],
    [label_texture]), which the engine never reads, are left out. *)
Definition CelestialBody_init (name body_type : string) (mass radius : R)
    (position velocity : Vec3) (color : R * R * R) : result CelestialBody :=
  Ok {| name := name; type := body_type; mass := mass; radius := radius;
        position := position; velocity := velocity; color := color;
        trail := []; max_trail_length := 1000;
        orbit_calculated := false; semi_major_axis := 0;
        eccentricity := 0; period := 0;
        force := zeros; acceleration := zeros |}.

(** Assignments to one attribute. *)
Definition set_position (b : CelestialBody) (p : Vec3) : CelestialBody :=
  mkBody (name b) (type b) (mass b) (radius b) p (velocity b) (color b)
    (trail b) (max_trail_length b) (orbit_calculated b) (semi_major_axis b)
    (eccentricity b) (period b) (force b) (acceleration b).
Definition set_velocity (b : CelestialBody) (v : Vec3) : CelestialBody :=
  mkBody (name b) (type b) (mass b) (radius b) (position b) v (color b)
    (trail b) (max_trail_length b) (orbit_calculated b) (semi_major_axis b)
    (eccentricity b) (period b) (force b) (acceleration b).
Definition set_acceleration (b : CelestialBody) (a : Vec3) : CelestialBody :=
  mkBody (name b) (type b) (mass b) (radius b) (position b) (velocity b)
    (color b) (trail b) (max_trail_length b) (orbit_calculated b)
    (semi_major_axis b) (eccentricity b) (period b) (force b) a.
Definition set_trail (b : CelestialBody) (t : list Vec3) : CelestialBody :=
  mkBody (name b) (type b) (mass b) (radius b) (position b) (velocity b)
    (color b) t (max_trail_length b) (orbit_calculated b)
    (semi_major_axis b) (eccentricity b) (period b) (force b)
    (acceleration b).
Definition set_mass (b : CelestialBody) (m : R) : CelestialBody :=
  mkBody (name b) (type b) m (radius b) (position b) (velocity b)
    (color b) (trail b) (max_trail_length b) (orbit_calculated b)
    (semi_major_axis b) (eccentricity b) (period b) (force b)
    (acceleration b).
Definition set_radius (b : CelestialBody) (r : R) : CelestialBody :=
  mkBody (name b) (type b) (mass b) r (position b) (velocity b)
    (color b) (trail b) (max_trail_length b) (orbit_calculated b)
    (semi_major_axis b) (eccentricity b) (period b) (force b)
    (acceleration b).

(** [CelestialBody.update_position]: advance the position by the current
    velocity, append a copy of it to the trail and drop the oldest entry
    once the trail is longer than [max_trail_length]. *)
Definition update_position (self : CelestialBody) (dt : R) : CelestialBody :=
  let self := set_position self (position self +v velocity self *s dt) in
  let self := set_trail self (trail self ++ [position self]) in
  if (max_trail_length self <? length (trail self))%nat
  then set_trail self (tail (trail self))
  else self.

(** [CelestialBody.update_velocity] *)
Definition update_velocity (self : CelestialBody) (dt : R) : CelestialBody :=
  set_velocity self (velocity self +v acceleration self *s dt).

(** [CelestialBody.is_collision_with] *)
Definition is_collision_with (self other : CelestialBody) : bool :=
  let distance := norm (position self -v position other) in
  if Rlt_dec distance (radius self + radius other) then true else false.

(** [CelestialBody.merge_with]: the statements run in the order of the
    source, each reading the attributes as the previous ones left them. *)
Definition merge_with (self other : CelestialBody) : CelestialBody :=
  let total_mass := mass self + mass other in
  let self := set_velocity self
    ((mass self s* velocity self +v mass other s* velocity other)
       /s total_mass) in
  let self := set_mass self total_mass in
  let total_volume :=
    4 / 3 * PI * (radius self ^ 3 + radius other ^ 3) in
  let self := set_radius self
    (float_pow (total_volume * 3 / (4 * PI)) (1 / 3)) in
  set_position self
    ((mass self s* position self +v mass other s* position other)
       /s total_mass).

(** ** class GravityEngine *)

(** A body collection: the items of the dict in insertion order. *)
Abbreviation Bodies := (list (string * CelestialBody)).

Definition keys {V} (d : list (string * V)) : list string := d.*1.
Definition values {V} (d : list (string * V)) : list V := d.*2.

Record GravityEngine := mkEngine { G : R; use_rk4 : bool }.

(** [GravityEngine.__init__] *)
Definition GravityEngine_init : GravityEngine :=
  {| G := 6.67430e-11; use_rk4 := true |}.

(** The body of the two nested loops of [calculate_gravitational_forces]
    for one pair of indices [i < j]. *)
Definition pair_step (self : GravityEngine)
    (body_list : list CelestialBody) (body_keys : list string)
    (i j : nat) (forces : gmap string Vec3) : result (gmap string Vec3) :=
  body1 ← list_get body_list i;
  body2 ← list_get body_list j;
  let r_vec := position body2 -v position body1 in
  let r := norm r_vec in
  if Req_dec_T r 0 then Ok forces
  else
    let force_magnitude := G self * mass body1 * mass body2 / (r * r) in
    let force_direction := r_vec /s r in
    key_i ← list_get body_keys i;
    f_i ← dict_get forces key_i;
    let forces := <[key_i := f_i +v force_direction *s force_magnitude]> forces in
    key_j ← list_get body_keys j;
    f_j ← dict_get forces key_j;
    Ok (<[key_j := f_j -v force_direction *s force_magnitude]> forces).

(** [GravityEngine.calculate_gravitational_forces] *)
Definition calculate_gravitational_forces (self : GravityEngine)
    (bodies : Bodies) : result (gmap string Vec3) :=
  let forces := foldl (fun d body => <[body := zeros]> d) ∅ (keys bodies) in
  let body_list := values bodies in
  let body_keys := keys bodies in
  foldM (fun forces i =>
           foldM (fun forces j => pair_step self body_list body_keys i j forces)
                 (seq (i + 1) (length body_list - (i + 1))) forces)
        (seq 0 (length body_list)) forces.

(** [GravityEngine.update_accelerations] *)
Definition update_accelerations (self : GravityEngine) (bodies : Bodies)
    (forces : gmap string Vec3) : result Bodies :=
  forM (fun '(body_key, body) =>
          if Rlt_dec 0 (mass body)
          then f ← dict_get forces body_key;
               Ok (body_key, set_acceleration body (f /s mass body))
          else Ok (body_key, body))
       bodies.

(** [GravityEngine.euler_integration] *)
Definition euler_integration (self : GravityEngine) (bodies : Bodies)
    (dt : R) : result Bodies :=
  forces ← calculate_gravitational_forces self bodies;
  bodies ← update_accelerations self bodies forces;
  forM (fun '(body_key, body) =>
          let body := update_velocity body dt in
          let body := update_position body dt in
          Ok (body_key, body))
       bodies.

(** [GravityEngine._rk4_step]: the rates of change of position and velocity
    of every body in the current state.  The parameters [dt] and [t] are not
    used by the source either. *)
Definition _rk4_step (self : GravityEngine) (bodies : Bodies) (dt t : R)
  : result (gmap string Vec3 * gmap string Vec3) :=
  forces ← calculate_gravitational_forces self bodies;
  foldM (fun '(positions, velocities) '(body_key, body) =>
           acceleration ←
             (if Rlt_dec 0 (mass body)
              then f ← dict_get forces body_key; Ok (f /s mass body)
              else Ok zeros);
           Ok (<[body_key := velocity body]> positions,
               <[body_key := acceleration]> velocities))
        bodies (∅, ∅).

(** [{body_key: f(body) for body_key, body in bodies.items()}] *)
Definition dict_of_items {V} (f : CelestialBody -> V) (bodies : Bodies)
  : gmap string V :=
  foldl (fun d '(body_key, body) => <[body_key := f body]> d) ∅ bodies.

(** [GravityEngine.rk4_integration] *)
Definition rk4_integration (self : GravityEngine) (bodies : Bodies) (dt : R)
  : result Bodies :=
  let initial_positions := dict_of_items position bodies in
  let initial_velocities := dict_of_items velocity bodies in
  '(k1_pos, k1_vel) ← _rk4_step self bodies dt 0;
  bodies ← forM (fun '(body_key, body) =>
      p0 ← dict_get initial_positions body_key;
      k1p ← dict_get k1_pos body_key;
      let body := set_position body (p0 +v 0.5 s* k1p *s dt) in
      v0 ← dict_get initial_velocities body_key;
      k1v ← dict_get k1_vel body_key;
      let body := set_velocity body (v0 +v 0.5 s* k1v *s dt) in
      Ok (body_key, body)) bodies;
  '(k2_pos, k2_vel) ← _rk4_step self bodies dt (0.5 * dt);
  bodies ← forM (fun '(body_key, body) =>
      p0 ← dict_get initial_positions body_key;
      k2p ← dict_get k2_pos body_key;
      let body := set_position body (p0 +v 0.5 s* k2p *s dt) in
      v0 ← dict_get initial_velocities body_key;
      k2v ← dict_get k2_vel body_key;
      let body := set_velocity body (v0 +v 0.5 s* k2v *s dt) in
      Ok (body_key, body)) bodies;
  '(k3_pos, k3_vel) ← _rk4_step self bodies dt (0.5 * dt);
  bodies ← forM (fun '(body_key, body) =>
      p0 ← dict_get initial_positions body_key;
      k3p ← dict_get k3_pos body_key;
      let body := set_position body (p0 +v k3p *s dt) in
      v0 ← dict_get initial_velocities body_key;
      k3v ← dict_get k3_vel body_key;
      let body := set_velocity body (v0 +v k3v *s dt) in
      Ok (body_key, body)) bodies;
  '(k4_pos, k4_vel) ← _rk4_step self bodies dt dt;
  forM (fun '(body_key, body) =>
      p0 ← dict_get initial_positions body_key;
      k1p ← dict_get k1_pos body_key;
      k2p ← dict_get k2_pos body_key;
      k3p ← dict_get k3_pos body_key;
      k4p ← dict_get k4_pos body_key;
      let body := set_position body
        (p0 +v (k1p +v 2 s* k2p +v 2 s* k3p +v k4p) *s dt /s 6) in
      v0 ← dict_get initial_velocities body_key;
      k1v ← dict_get k1_vel body_key;
      k2v ← dict_get k2_vel body_key;
      k3v ← dict_get k3_vel body_key;
      k4v ← dict_get k4_vel body_key;
      let body := set_velocity body
        (v0 +v (k1v +v 2 s* k2v +v 2 s* k3v +v k4v) *s dt /s 6) in
      Ok (body_key, body)) bodies.

(** *** The collection while it is scanned and shrunk

    [handle_collisions] deletes keys of the dict it is iterating over, so
    the embedding follows CPython's dict and its key iterator: the entries
    stay in insertion order in an array, [del] empties the slot of its key
    and lowers the number of used entries, and an iterator remembers the
    number of used entries it was created with and the position it has
    reached.  Each call for the next key first compares the two numbers and
    raises [RuntimeError] ("dictionary changed size during iteration") when
    they differ. *)

Abbreviation Slots := (list (option (string * CelestialBody))).

(** The live items of the dict, in order. *)
Definition dict_items (d : Slots) : Bodies := omap (fun slot => slot) d.

(** [len(d)] *)
Definition ma_used (d : Slots) : nat := length (dict_items d).

(** [dict(items)]: a dict that never had a key deleted. *)
Definition dict_of_bodies (bodies : Bodies) : Slots := Some <$> bodies.

(** [d[k]] *)
Fixpoint slots_get (d : Slots) (k : string) : result CelestialBody :=
  match d with
  | [] => Raise KeyError
  | Some (k', b) :: d' => if decide (k' = k) then Ok b else slots_get d' k
  | None :: d' => slots_get d' k
  end.

(** The object [d[k]] mutated in place to [b']. *)
Fixpoint slots_set (d : Slots) (k : string) (b' : CelestialBody) : Slots :=
  match d with
  | [] => []
  | Some (k', b) :: d' =>
      if decide (k' = k) then Some (k', b') :: d'
      else Some (k', b) :: slots_set d' k b'
  | None :: d' => None :: slots_set d' k b'
  end.

(** [del d[k]] *)
Fixpoint slots_del (d : Slots) (k : string) : result Slots :=
  match d with
  | [] => Raise KeyError
  | Some (k', b) :: d' =>
      if decide (k' = k) then Ok (None :: d')
      else d'' ← slots_del d' k; Ok (Some (k', b) :: d'')
  | None :: d' => d'' ← slots_del d' k; Ok (None :: d'')
  end.

Record DictIter := mkIter { di_used : nat; di_pos : nat }.

(** [iter(d)] *)
Definition dict_iter (d : Slots) : DictIter :=
  {| di_used := ma_used d; di_pos := 0 |}.

(** The first live entry of [l], whose first slot has index [i]: its key and
    the index after it. *)
Fixpoint scan (l : Slots) (i : nat) : option (string * nat) :=
  match l with
  | [] => None
  | Some (k, _) :: _ => Some (k, S i)
  | None :: l' => scan l' (S i)
  end.

(** [next(it)]: [Ok None] is the end of the iteration. *)
Definition dictiter_next (d : Slots) (it : DictIter)
  : result (option (string * DictIter)) :=
  if (di_used it =? ma_used d)%nat then
    match scan (drop (di_pos it) d) (di_pos it) with
    | Some (k, pos) => Ok (Some (k, {| di_used := di_used it; di_pos := pos |}))
    | None => Ok None
    end
  else Raise RuntimeError.

(** How a call that mutates the collection ends: it returns, or an
    exception leaves it, in both cases with the collection as mutated so
    far.  [OutOfFuel] is an artefact of the embedding: a loop ran longer than
    the bound it was given (no call below ends so, see
    [handle_collisions_total]). *)
Inductive run :=
| Finished (bodies : Slots)
| Raised (e : exn) (bodies : Slots)
| OutOfFuel.

(** The inner loop of [handle_collisions] for the outer index [i] and key
    [body_key_1], about to ask [it] for the entry of index [j].  The merge
    statement looks the two keys up again and finds the bodies that the test
    has just found, [body1] and [body2]. *)
Fixpoint inner_loop (fuel : nat) (i : nat) (body_key_1 : string) (j : nat)
    (it : DictIter) (bodies : Slots) : run :=
  match fuel with
  | O => OutOfFuel
  | S fuel =>
    match dictiter_next bodies it with
    | Raise e => Raised e bodies
    | Ok None => Finished bodies
    | Ok (Some (body_key_2, it)) =>
      if (j <=? i)%nat then inner_loop fuel i body_key_1 (S j) it bodies
      else
        match slots_get bodies body_key_1 with
        | Raise e => Raised e bodies
        | Ok body1 =>
          match slots_get bodies body_key_2 with
          | Raise e => Raised e bodies
          | Ok body2 =>
            if is_collision_with body1 body2 then
              let bodies := slots_set bodies body_key_1 (merge_with body1 body2) in
              match slots_del bodies body_key_2 with
              | Raise e => Raised e bodies
              | Ok bodies => Finished bodies
              end
            else inner_loop fuel i body_key_1 (S j) it bodies
          end
        end
    end
  end.

(** The outer loop of [handle_collisions], about to ask [it] for the entry
    of index [i]. *)
Fixpoint outer_loop (fuel : nat) (i : nat) (it : DictIter) (bodies : Slots)
  : run :=
  match fuel with
  | O => OutOfFuel
  | S fuel =>
    match dictiter_next bodies it with
    | Raise e => Raised e bodies
    | Ok None => Finished bodies
    | Ok (Some (body_key_1, it)) =>
      match inner_loop (S (length bodies)) i body_key_1 0 (dict_iter bodies)
                       bodies with
      | Finished bodies => outer_loop fuel (S i) it bodies
      | r => r
      end
    end
  end.

(** [GravityEngine.handle_collisions] *)
Definition handle_collisions (self : GravityEngine) (bodies : Slots) : run :=
  outer_loop (S (length bodies)) 0 (dict_iter bodies) bodies.

(** [GravityEngine.update_positions].  The integrators raise nothing
    ([integration_returns]); the collection of that outcome is the one
    given. *)
Definition update_positions (self : GravityEngine) (bodies : Bodies) (dt : R)
  : run :=
  match (if use_rk4 self then rk4_integration self bodies dt
         else euler_integration self bodies dt) with
  | Raise e => Raised e (dict_of_bodies bodies)
  | Ok bodies => handle_collisions self (dict_of_bodies bodies)
  end.

(** [GravityEngine.find_center_of_mass] *)
Definition find_center_of_mass (self : GravityEngine) (bodies : Bodies)
  : Vec3 :=
  let total_mass := foldl (fun s body => s + mass body) 0 (values bodies) in
  if Req_dec_T total_mass 0 then zeros
  else
    let center_of_mass :=
      foldl (fun c body => c +v mass body s* position body) zeros
            (values bodies) in
    center_of_mass /s total_mass.

(** [GravityEngine.find_center_of_mass_velocity] *)
Definition find_center_of_mass_velocity (self : GravityEngine)
    (bodies : Bodies) : Vec3 :=
  let total_mass := foldl (fun s body => s + mass body) 0 (values bodies) in
  if Req_dec_T total_mass 0 then zeros
  else
    let center_of_mass_velocity :=
      foldl (fun c body => c +v mass body s* velocity body) zeros
            (values bodies) in
    center_of_mass_velocity /s total_mass.

(** [GravityEngine.apply_correction] *)
Definition apply_correction (self : GravityEngine) (bodies : Bodies)
  : Bodies :=
  let com := find_center_of_mass self bodies in
  let bodies :=
    (fun '(body_key, body) =>
       (body_key, set_position body (position body -v com))) <$> bodies in
  let com_velocity := find_center_of_mass_velocity self bodies in
  (fun '(body_key, body) =>
     (body_key, set_velocity body (velocity body -v com_velocity))) <$> bodies.

(** ** The diagnostics of the engine and class OrbitalMechanics

    The functions below are those of [physics_engine.py] that the step of
    the engine does not call. *)

(** [np.cross] *)
Definition cross (a b : Vec3) : Vec3 :=
  mkVec3 (vy a * vz b - vz a * vy b)
         (vz a * vx b - vx a * vz b)
         (vx a * vy b - vy a * vx b).

(** [CelestialBody.get_kinetic_energy] *)
Definition get_kinetic_energy (self : CelestialBody) : R :=
  let speed := norm (velocity self) in
  0.5 * mass self * speed * speed.

(** An argument that is compared with [self] by identity ([is]): the object
    [self] itself or another object. *)
Inductive body_ref :=
| Itself
| Another (other : CelestialBody).

(** [CelestialBody.get_potential_energy] *)
Definition get_potential_energy (self : CelestialBody)
    (other_bodies : list body_ref) : R :=
  let G := 6.67430e-11 in
  foldl (fun potential_energy other =>
           match other with
           | Itself => potential_energy
           | Another other =>
               let distance := norm (position self -v position other) in
               if Rlt_dec 0 distance
               then potential_energy - G * mass self * mass other / distance
               else potential_energy
           end)
        0 other_bodies.

(** [GravityEngine.calculate_system_energy].  The keys are compared as
    Python compares strings, by code point, which is the order of their
    UTF-8 bytes. *)
Definition calculate_system_energy (self : GravityEngine) (bodies : Bodies)
  : R :=
  let total_kinetic :=
    foldl (fun total_kinetic body => total_kinetic + get_kinetic_energy body)
          0 (values bodies) in
  let total_potential :=
    foldl (fun total_potential '(body_key_1, body_1) =>
             foldl (fun total_potential '(body_key_2, body_2) =>
                      if (body_key_2 <=? body_key_1)%string
                      then total_potential
                      else
                        let distance :=
                          norm (position body_1 -v position body_2) in
                        if Rlt_dec 0 distance
                        then total_potential
                             - G self * mass body_1 * mass body_2 / distance
                        else total_potential)
                   total_potential bodies)
          0 bodies in
  total_kinetic + total_potential.

(** [GravityEngine.calculate_angular_momentum] *)
Definition calculate_angular_momentum (self : GravityEngine) (bodies : Bodies)
  : Vec3 :=
  foldl (fun total_angular_momentum body =>
           total_angular_momentum
           +v cross (position body) (mass body s* velocity body))
        zeros (values bodies).

(** *** Python floats and the [math] module

    The functions of [OrbitalMechanics] compute on Python floats: a division
    by zero raises [ZeroDivisionError], [math.sqrt] of a negative number
    raises [ValueError], and a power [x ** n] whose result is too large for
    a float raises [OverflowError] (sums, products and quotients that are
    too large give [inf] and raise nothing). *)

Inductive math_exn := ZeroDivisionError | ValueError | OverflowError.

Inductive checked (A : Type) : Type :=
| Returns (a : A)
| Fails (e : math_exn).
Arguments Returns {A} a.
Arguments Fails {A} e.

#[global] Instance checked_ret : MRet checked := fun A a => Returns a.
#[global] Instance checked_bind : MBind checked := fun A B k m =>
  match m with
  | Returns a => k a
  | Fails e => Fails e
  end.

(** [x / y] on Python floats *)
Definition float_div (x y : R) : checked R :=
  if Req_dec_T y 0 then Fails ZeroDivisionError else Returns (x / y).

(** [math.sqrt] *)
Definition math_sqrt (x : R) : checked R :=
  if Rlt_dec x 0 then Fails ValueError else Returns (sqrt x).

(** [sys.float_info.max], the largest finite float *)
Definition float_max : R := 1.7976931348623157e308.

(** [x ** n] on a Python float [x], for a positive integer literal [n] *)
Definition float_pow_int (x : R) (n : nat) : checked R :=
  if Rlt_dec float_max (Rabs (x ^ n)) then Fails OverflowError
  else Returns (x ^ n).

(** [CelestialBody.calculate_orbit_parameters].  [float('inf')] is the value
    [Infinity]; the call either returns having assigned nothing
    ([Returns None]), or assigns the semi-major axis, the eccentricity and
    the period and sets [orbit_calculated] ([Returns (Some _)]), or leaves
    through the [ValueError] of [math.sqrt]. *)
Inductive ext_real :=
| Finite (x : R)
| Infinity.

Record OrbitElements := mkOrbit {
  oe_semi_major_axis : ext_real;
  oe_eccentricity : R;
  oe_period : ext_real
}.

Definition calculate_orbit_parameters (self : CelestialBody)
    (central_body : option body_ref) : checked (option OrbitElements) :=
  match central_body with
  | None => Returns None
  | Some Itself => Returns None
  | Some (Another central_body) =>
    let r_vec := position self -v position central_body in
    let v_vec := velocity self -v velocity central_body in
    let r := norm r_vec in
    let v := norm v_vec in
    if Req_dec_T r 0 then Returns None
    else if Req_dec_T v 0 then Returns None
    else
      let G := 6.67430e-11 in
      let mu := G * (mass self + mass central_body) in
      let h_vec := cross r_vec v_vec in
      let h := norm h_vec in
      if Req_dec_T h 0 then Returns None
      else
        let energy := 0.5 * v * v - mu / r in
        let semi_major_axis :=
          if Rlt_dec 1e-10 (Rabs energy)
          then Finite ((- mu) / (2 * energy))
          else Infinity in
        let e_vec := cross v_vec h_vec /s mu -v r_vec /s r in
        let eccentricity := norm e_vec in
        period ←
          match semi_major_axis with
          | Finite a =>
              if Rlt_dec 0 a
              then s ← math_sqrt (a ^ 3 / mu);
                   Returns (Finite (2 * PI * s))
              else Returns Infinity
          | Infinity => Returns Infinity
          end;
        Returns (Some (mkOrbit semi_major_axis eccentricity period))
  end.

(** [OrbitalMechanics.calculate_orbital_velocity] *)
Definition calculate_orbital_velocity (central_mass orbital_radius : R)
  : checked R :=
  let G := 6.67430e-11 in
  q ← float_div (G * central_mass) orbital_radius;
  math_sqrt q.

(** [OrbitalMechanics.calculate_escape_velocity] *)
Definition calculate_escape_velocity (central_mass distance : R)
  : checked R :=
  let G := 6.67430e-11 in
  q ← float_div (2 * G * central_mass) distance;
  math_sqrt q.

(** [OrbitalMechanics.calculate_orbital_period] *)
Definition calculate_orbital_period (central_mass semi_major_axis : R)
  : checked R :=
  let G := 6.67430e-11 in
  cube ← float_pow_int semi_major_axis 3;
  q ← float_div cube (G * central_mass);
  s ← math_sqrt q;
  Returns (2 * PI * s).

(** [OrbitalMechanics.calculate_hohmann_transfer_delta_v] *)
Definition calculate_hohmann_transfer_delta_v (central_mass r1 r2 : R)
  : checked (R * R) :=
  let G := 6.67430e-11 in
  q1 ← float_div (G * central_mass) r1;
  v1 ← math_sqrt q1;
  q2 ← float_div (G * central_mass) r2;
  v2 ← math_sqrt q2;
  let a_transfer := (r1 + r2) / 2 in
  p1 ← float_div 2 r1;
  ia ← float_div 1 a_transfer;
  v_transfer_periapsis ← math_sqrt (G * central_mass * (p1 - ia));
  p2 ← float_div 2 r2;
  ia ← float_div 1 a_transfer;
  v_transfer_apoapsis ← math_sqrt (G * central_mass * (p2 - ia));
  let delta_v1 := v_transfer_periapsis - v1 in
  let delta_v2 := v2 - v_transfer_apoapsis in
  Returns (delta_v1, delta_v2).

(** [CelestialBody.merge_with] with the outcomes of [**] on Python floats.
    The two cubes [self.radius**3] and [other.radius**3] are evaluated, in
    this order, after the velocity and the mass have been assigned: a cube
    that is too large raises [OverflowError] and leaves the body with its
    new velocity and mass and its old radius and position
    ([MergeRaised]).  The cube root [** (1/3)] of a negative number is a
    complex number, which the call stores as the radius before it goes on
    to the position ([MergedComplexRadius self]: the call returns, [self]
    holds the attributes other than the radius).  [merge_with] above is
    what the call leaves where both cubes are floats and their sum is not
    negative. *)
Inductive merge_outcome :=
| Merged (self : CelestialBody)
| MergedComplexRadius (self : CelestialBody)
| MergeRaised (e : math_exn) (self : CelestialBody).

Definition merge_with_float (self other : CelestialBody) : merge_outcome :=
  let total_mass := mass self + mass other in
  let self := set_velocity self
    ((mass self s* velocity self +v mass other s* velocity other)
       /s total_mass) in
  let self := set_mass self total_mass in
  match float_pow_int (radius self) 3 with
  | Fails e => MergeRaised e self
  | Returns cube_self =>
    match float_pow_int (radius other) 3 with
    | Fails e => MergeRaised e self
    | Returns cube_other =>
      let total_volume := 4 / 3 * PI * (cube_self + cube_other) in
      if Rlt_dec (total_volume * 3 / (4 * PI)) 0
      then
        MergedComplexRadius
          (set_position self
             ((mass self s* position self +v mass other s* position other)
                /s total_mass))
      else
        let self := set_radius self
          (float_pow (total_volume * 3 / (4 * PI)) (1 / 3)) in
        Merged
          (set_position self
             ((mass self s* position self +v mass other s* position other)
                /s total_mass))
    end
  end.

(** * Notions used by the statements *)

(** Every key of the collection is a key of the dict. *)
Definition has_keys {V W} (d : gmap string V) (bodies : list (string * W))
  : Prop :=
  forall k, k ∈ keys bodies -> is_Some (d !! k).

(** What an integrator may change of a body by assigning to its position
    and velocity only. *)
Definition moved (kb kb' : string * CelestialBody) : Prop :=
  kb'.1 = kb.1
  /\ exists p v, kb'.2 = set_velocity (set_position kb.2 p) v.

(** The body [b] after the three statements that the Euler step runs on it,
    [f] being the force the calculator returned for it. *)
Definition euler_body (f : Vec3) (dt : R) (b : CelestialBody)
  : CelestialBody :=
  let b := if Rlt_dec 0 (mass b) then set_acceleration b (f /s mass b)
           else b in
  update_position (update_velocity b dt) dt.

Definition euler_updated (forces : gmap string Vec3) (dt : R)
    (kb kb' : string * CelestialBody) : Prop :=
  kb'.1 = kb.1
  /\ exists f, forces !! kb.1 = Some f /\ kb'.2 = euler_body f dt kb.2.

(** Only the position, the velocity, the acceleration and the trail of the
    body differ. *)
Definition same_identity (kb kb' : string * CelestialBody) : Prop :=
  kb'.1 = kb.1
  /\ exists p v a t,
       kb'.2 =
         set_trail (set_acceleration (set_velocity (set_position kb.2 p) v) a)
                   t.

(** The body that [CelestialBody("body", "planet", mass, radius, position,
    velocity, (1, 1, 1))] constructs, for the examples. *)
Definition example_body (mass radius : R) (position velocity : Vec3)
  : CelestialBody :=
  {| name := "body"; type := "planet"; mass := mass; radius := radius;
     position := position; velocity := velocity; color := (1, 1, 1);
     trail := []; max_trail_length := 1000;
     orbit_calculated := false; semi_major_axis := 0;
     eccentricity := 0; period := 0;
     force := zeros; acceleration := zeros |}.

(** Two bodies of mass 1 and radius 1 at rest, one at the origin under the
    key ["a"] and one at [(1, 0, 0)] under the key ["b"]. *)
Definition two_bodies : Bodies :=
  [("a", example_body 1 1 zeros zeros);
   ("b", example_body 1 1 (mkVec3 1 0 0) zeros)].

(** The body [body1] collides with a live entry of [suf], the entries of
    [suf] counted from [j], whose index is greater than [i]: what the inner
    loop of [handle_collisions] looks for. *)
Definition hit (i : nat) (body1 : CelestialBody) (j : nat) (suf : Slots)
  : Prop :=
  exists m key2 body2,
    dict_items suf !! m = Some (key2, body2)
    /\ (i < j + m)%nat
    /\ is_collision_with body1 body2 = true.

(** Some live entry of [suf], the entries of [suf] counted from [i], collides
    with a later entry of the dict [d]. *)
Definition colliding_pair_from (i : nat) (suf d : Slots) : Prop :=
  exists m key1 body1,
    dict_items suf !! m = Some (key1, body1)
    /\ hit (i + m) body1 0 d.

(** Two bodies of the collection overlap: the centres of the [i]-th and the
    [j]-th, [i] before [j], are closer than the sum of the radii. *)
Definition overlapping (bodies : Bodies) : Prop :=
  exists i j key1 body1 key2 body2,
    (i < j)%nat
    /\ bodies !! i = Some (key1, body1)
    /\ bodies !! j = Some (key2, body2)
    /\ is_collision_with body1 body2 = true.

(** *** The classical Runge-Kutta step, as the specification words it

    The derivative of a state: for every body, in the order of the
    collection, the rate of change of its position, which is its velocity,
    and the rate of change of its velocity, which is its acceleration, the
    force on it in that state over its mass. *)
Definition stage_derivative (self : GravityEngine) (state : Bodies)
  : result (list (Vec3 * Vec3)) :=
  forces ← calculate_gravitational_forces self state;
  forM (fun '(key, body) =>
          f ← dict_get forces key;
          Ok (velocity body, f /s mass body))
       state.

(** The state [state0] advanced by [h] times the derivative [k]. *)
Definition advance (state0 : Bodies) (h : R) (k : list (Vec3 * Vec3))
  : Bodies :=
  zip_with (fun '(key, body) '(k_pos, k_vel) =>
              (key, set_velocity
                      (set_position body (position body +v h s* k_pos))
                      (velocity body +v h s* k_vel)))
           state0 k.

(** The state [state0] advanced by [dt/6 * (k1 + 2*k2 + 2*k3 + k4)]. *)
Definition rk4_combine (state0 : Bodies) (dt : R)
    (k1 k2 k3 k4 : list (Vec3 * Vec3)) : Bodies :=
  zip_with (fun '(key, body) '(d1, d2, d3, d4) =>
              (key, set_velocity
                      (set_position body
                         (position body
                          +v (dt / 6)
                             s* (d1.1 +v 2 s* d2.1 +v 2 s* d3.1 +v d4.1)))
                      (velocity body
                       +v (dt / 6)
                          s* (d1.2 +v 2 s* d2.2 +v 2 s* d3.2 +v d4.2))))
           state0 (zip (zip (zip k1 k2) k3) k4).

(** The dict [d] holds, under the key of each item, the value that stands
    at the place of the item in [vals]. *)
Definition tabulates {V W} (d : gmap string V) (items : list (string * W))
    (vals : list V) : Prop :=
  Forall2 (fun kb v => d !! kb.1 = Some v) items vals.

(** The pairs of indices [i < j < n], in the order in which the two nested
    loops of the force calculator visit them. *)
Definition index_pairs (n : nat) : list (nat * nat) :=
  seq 0 n ≫= (fun i => pair i <$> seq (i + 1) (n - (i + 1))).

(** The sum of the forces that the dict holds for the bodies of the
    collection. *)
Definition total_force (forces : gmap string Vec3) (bodies : Bodies) : Vec3 :=
  foldr (fun kb acc => default zeros (forces !! kb.1) +v acc) zeros bodies.

(** *** Sums, for the statements about the diagnostics *)

(** The sum of [f x] over the elements [x] of [l]. *)
Fixpoint sum_over {A} (f : A -> R) (l : list A) : R :=
  match l with
  | [] => 0
  | x :: l' => f x + sum_over f l'
  end.

(** The sum of [f x y] over the pairs of an element [x] of [l] and a later
    element [y]: every unordered pair of places once. *)
Fixpoint sum_over_pairs {A} (f : A -> A -> R) (l : list A) : R :=
  match l with
  | [] => 0
  | x :: l' => sum_over (f x) l' + sum_over_pairs f l'
  end.

(** The potential energy of two bodies, [-G*m1*m2/d], and nothing for two
    bodies at the same place. *)
Definition pair_potential (self : GravityEngine) (b1 b2 : CelestialBody)
  : R :=
  let distance := norm (position b1 -v position b2) in
  if Rlt_dec 0 distance
  then - (G self * mass b1 * mass b2 / distance)
  else 0.

(** What [calculate_system_energy] adds for the item [x] of its outer loop
    and the item [y] of its inner loop. *)
Definition energy_term (self : GravityEngine)
    (x y : string * CelestialBody) : R :=
  if (y.1 <=? x.1)%string then 0 else pair_potential self x.2 y.2.

(** The sum of [body.get_potential_energy(all)] over the bodies of a list
    [all], every call receiving the whole list: in the call of a body, its
    own place holds the body itself and the other places hold other
    bodies.  [before] are the bodies already visited. *)
Fixpoint each_potential_energy (before after : list CelestialBody) : R :=
  match after with
  | [] => 0
  | body :: after' =>
      get_potential_energy body
        ((Another <$> before) ++ Itself :: (Another <$> after'))
      + each_potential_energy (before ++ [body]) after'
  end.

(** *** Newton's law, for the statement about the force calculator *)

(** The pull of the body [b2] on the body [b1]: of magnitude
    [G*m1*m2/r^2] along the unit vector from [b1] to [b2], and nothing for
    two bodies at the same place. *)
Definition pull (self : GravityEngine) (b1 b2 : CelestialBody) : Vec3 :=
  let r_vec := position b2 -v position b1 in
  let r := norm r_vec in
  if Req_dec_T r 0 then zeros
  else (r_vec /s r) *s (G self * mass b1 * mass b2 / (r * r)).

(** The sum of the vectors [f x] over the elements [x] of [l]. *)
Definition vsum_over {A} (f : A -> Vec3) (l : list A) : Vec3 :=
  foldr (fun x acc => f x +v acc) zeros l.

(** The step [pair_step] of the calculator, for the two items that its
    indices select. *)
Definition pair_update (self : GravityEngine)
    (x y : string * CelestialBody) (forces : gmap string Vec3)
  : result (gmap string Vec3) :=
  let r_vec := position y.2 -v position x.2 in
  let r := norm r_vec in
  if Req_dec_T r 0 then Ok forces
  else
    let force_magnitude := G self * mass x.2 * mass y.2 / (r * r) in
    let force_direction := r_vec /s r in
    f_i ← dict_get forces x.1;
    let forces := <[x.1 := f_i +v force_direction *s force_magnitude]> forces in
    f_j ← dict_get forces y.1;
    Ok (<[y.1 := f_j -v force_direction *s force_magnitude]> forces).

(** The two nested loops over the items themselves: every item with every
    later one. *)
Fixpoint all_pairs (self : GravityEngine) (bodies : Bodies)
    (forces : gmap string Vec3) : result (gmap string Vec3) :=
  match bodies with
  | [] => Ok forces
  | x :: rest =>
      forces ← foldM (fun forces y => pair_update self x y forces) rest forces;
      all_pairs self rest forces
  end.

(** *** The mass-weighted mean, for the statement about the correction *)

(** The mean of the vectors [f body] over the bodies of [l], each weighted
    by the mass of its body: the sum of [mass * f] over the sum of the
    masses. *)
Definition weighted_mean (f : CelestialBody -> Vec3)
    (l : list CelestialBody) : Vec3 :=
  vsum_over (fun body => mass body s* f body) l /s sum_over mass l.

(** Two bodies of mass 1 and radius 1 at rest that do not touch, one at the
    origin under the key ["a"] and one at [(4, 0, 0)] under the key
    ["b"]. *)
Definition far_bodies : Bodies :=
  [("a", example_body 1 1 zeros zeros);
   ("b", example_body 1 1 (mkVec3 4 0 0) zeros)].

(** * Properties *)

(** ** The outcome monad and its loops *)

Lemma bind_Ok {A B} (a : A) (k : A -> result B) : (Ok a ≫= k) = k a.
Proof. reflexivity. Qed.

Lemma bind_Raise {A B} (e : exn) (k : A -> result B) :
  (Raise e ≫= k) = Raise e.
Proof. reflexivity. Qed.

Lemma bind_Ok_inv {A B} (m : result A) (k : A -> result B) (b : B) :
  (m ≫= k) = Ok b -> exists a, m = Ok a /\ k a = Ok b.
Proof. destruct m as [a|e]; [eauto | discriminate]. Qed.

(** A loop whose body keeps an invariant and never raises returns, and the
    invariant holds of what it returns. *)
Lemma foldM_invariant {A B} (P : B -> Prop) (f : B -> A -> result B)
    (l : list A) (acc : B) :
  P acc ->
  (forall acc x, x ∈ l -> P acc -> exists acc', f acc x = Ok acc' /\ P acc') ->
  exists r, foldM f l acc = Ok r /\ P r.
Proof.
  revert acc. induction l as [|x l IH]; intros acc Hacc Hstep; simpl.
  - eauto.
  - destruct (Hstep acc x) as (acc' & -> & Hacc'); [left | done |].
    rewrite bind_Ok. apply IH; [done |].
    intros acc0 y Hy. apply Hstep. by right.
Qed.

(** The same with an invariant that follows the items done so far. *)
Lemma foldM_prefix_invariant {A B} (P : list A -> B -> Prop)
    (f : B -> A -> result B) (l : list A) (acc : B) :
  P [] acc ->
  (forall pre x suf acc, l = pre ++ x :: suf -> P pre acc ->
     exists acc', f acc x = Ok acc' /\ P (pre ++ [x]) acc') ->
  exists r, foldM f l acc = Ok r /\ P l r.
Proof.
  intros Hacc Hstep.
  cut (forall suf pre acc, l = pre ++ suf -> P pre acc ->
         exists r, foldM f suf acc = Ok r /\ P l r).
  { intros Hcut. by apply (Hcut l [] acc). }
  induction suf as [|x suf IH]; intros pre acc0 Hl Hpre; simpl.
  - rewrite app_nil_r in Hl. subst pre. eauto.
  - destruct (Hstep pre x suf acc0) as (acc' & -> & Hacc'); [done..|].
    rewrite bind_Ok. apply (IH (pre ++ [x])); [|done].
    by rewrite <- app_assoc.
Qed.

(** A loop over the items whose body never raises returns as many items,
    each related to the one it was made from. *)
Lemma forM_Forall2 {A B} (Q : A -> B -> Prop) (f : A -> result B)
    (l : list A) :
  (forall x, x ∈ l -> exists y, f x = Ok y /\ Q x y) ->
  exists l', forM f l = Ok l' /\ Forall2 Q l l'.
Proof.
  induction l as [|x l IH]; intros Hf; simpl.
  - eauto using Forall2_nil.
  - destruct (Hf x) as (y & -> & Hy); [left |].
    destruct IH as (l' & -> & Hl').
    { intros z Hz. apply Hf. by right. }
    rewrite !bind_Ok. eauto using Forall2_cons.
Qed.

Lemma forM_fmap {A B} (g : A -> B) (f : A -> result B) (l : list A) :
  (forall x, x ∈ l -> f x = Ok (g x)) -> forM f l = Ok (g <$> l).
Proof.
  induction l as [|x l IH]; intros Hf; simpl; [done |].
  rewrite Hf by left. rewrite IH; [done |].
  intros z Hz. apply Hf. by right.
Qed.

Lemma dict_get_Some {V} (d : gmap string V) k v :
  d !! k = Some v -> dict_get d k = Ok v.
Proof. unfold dict_get. by intros ->. Qed.

Lemma list_get_Some {A} (l : list A) i a :
  l !! i = Some a -> list_get l i = Ok a.
Proof. unfold list_get. by intros ->. Qed.

(** ** Vectors *)

Lemma Vec3_eq (a b : Vec3) :
  vx a = vx b -> vy a = vy b -> vz a = vz b -> a = b.
Proof. destruct a, b; simpl; congruence. Qed.

Ltac vec_simpl :=
  unfold vadd, vsub, vmul, smul, vdiv, zeros in *; simpl in *.

Lemma vsub_zeros (a : Vec3) : a -v zeros = a.
Proof. apply Vec3_eq; vec_simpl; lra. Qed.

(** ** The force calculator returns *)

Lemma has_keys_insert {V W} (d : gmap string V) (bodies : list (string * W))
    k v :
  has_keys d bodies -> has_keys (<[k := v]> d) bodies.
Proof.
  intros Hd k' Hk'. destruct (decide (k = k')) as [->|Hne].
  - rewrite lookup_insert_eq. eauto.
  - rewrite lookup_insert_ne by done. by apply Hd.
Qed.

Lemma has_keys_lookup {V W} (d : gmap string V) (bodies : list (string * W))
    k b :
  has_keys d bodies -> (k, b) ∈ bodies -> exists v, d !! k = Some v.
Proof.
  intros Hd Hin. apply Hd. unfold keys.
  apply list_elem_of_fmap. by exists (k, b).
Qed.

Lemma has_keys_same_keys {V W W'} (d : gmap string V)
    (bodies : list (string * W)) (bodies' : list (string * W')) :
  keys bodies' = keys bodies -> has_keys d bodies -> has_keys d bodies'.
Proof. unfold has_keys. by intros ->. Qed.

Lemma initial_forces_has_keys (bodies : Bodies) :
  has_keys (foldl (fun d body => <[body := zeros]> d) ∅ (keys bodies)) bodies.
Proof.
  unfold has_keys. generalize (keys bodies). intros ks.
  cut (forall (d : gmap string Vec3) k,
         k ∈ ks \/ is_Some (d !! k) ->
         is_Some (foldl (fun d body => <[body := zeros]> d) d ks !! k)).
  { intros Hcut k Hk. apply Hcut. by left. }
  induction ks as [|k0 ks IH]; intros d k Hk; simpl.
  - destruct Hk as [Hk|Hk]; [by apply elem_of_nil in Hk | done].
  - apply IH. destruct Hk as [Hk|Hk].
    + apply elem_of_cons in Hk as [->|Hk]; [right | by left].
      rewrite lookup_insert_eq. eauto.
    + right. destruct (decide (k0 = k)) as [->|Hne].
      * rewrite lookup_insert_eq. eauto.
      * by rewrite lookup_insert_ne.
Qed.

Lemma pair_step_returns (self : GravityEngine) (bodies : Bodies) i j forces :
  (i < length bodies)%nat -> (j < length bodies)%nat ->
  has_keys forces bodies ->
  exists forces',
    pair_step self (values bodies) (keys bodies) i j forces = Ok forces'
    /\ has_keys forces' bodies.
Proof.
  intros Hi Hj Hkeys. unfold pair_step.
  destruct (lookup_lt_is_Some_2 bodies i Hi) as [[ki bi] Hbi].
  destruct (lookup_lt_is_Some_2 bodies j Hj) as [[kj bj] Hbj].
  assert (values bodies !! i = Some bi) as Hvi
    by (unfold values; by rewrite list_lookup_fmap, Hbi).
  assert (values bodies !! j = Some bj) as Hvj
    by (unfold values; by rewrite list_lookup_fmap, Hbj).
  assert (keys bodies !! i = Some ki) as Hki
    by (unfold keys; by rewrite list_lookup_fmap, Hbi).
  assert (keys bodies !! j = Some kj) as Hkj
    by (unfold keys; by rewrite list_lookup_fmap, Hbj).
  rewrite (list_get_Some _ _ _ Hvi), (list_get_Some _ _ _ Hvj), !bind_Ok.
  destruct (Req_dec_T _ 0) as [_|_]; [eauto |].
  rewrite (list_get_Some _ _ _ Hki), bind_Ok.
  destruct (has_keys_lookup forces bodies ki bi Hkeys) as [fi Hfi].
  { by eapply list_elem_of_lookup_2. }
  rewrite (dict_get_Some _ _ _ Hfi), bind_Ok.
  rewrite (list_get_Some _ _ _ Hkj), bind_Ok.
  set (forces1 := <[ki := _]> forces).
  assert (has_keys forces1 bodies) as Hkeys1 by by apply has_keys_insert.
  destruct (has_keys_lookup forces1 bodies kj bj Hkeys1) as [fj Hfj].
  { by eapply list_elem_of_lookup_2. }
  rewrite (dict_get_Some _ _ _ Hfj), bind_Ok.
  eexists. split; [done |]. by apply has_keys_insert.
Qed.

Lemma calculate_gravitational_forces_returns (self : GravityEngine)
    (bodies : Bodies) :
  exists forces,
    calculate_gravitational_forces self bodies = Ok forces
    /\ has_keys forces bodies.
Proof.
  unfold calculate_gravitational_forces.
  assert (length (values bodies) = length bodies) as ->
    by (unfold values; apply length_fmap).
  apply foldM_invariant; [apply initial_forces_has_keys |].
  intros forces i Hi Hforces.
  apply elem_of_seq in Hi.
  apply foldM_invariant; [done |].
  intros forces' j Hj Hforces'.
  apply elem_of_seq in Hj.
  apply pair_step_returns; [lia | lia | done].
Qed.

(** ** The integrators return *)

Lemma moved_trans kb1 kb2 kb3 : moved kb1 kb2 -> moved kb2 kb3 -> moved kb1 kb3.
Proof.
  intros [Hk1 (p1 & v1 & H1)] [Hk2 (p2 & v2 & H2)]. split; [congruence |].
  exists p2, v2. rewrite H2, H1. by destruct (kb1.2).
Qed.

Lemma Forall2_same_keys {W W'} (Q : string * W -> string * W' -> Prop)
    (l : list (string * W)) (l' : list (string * W')) :
  (forall x y, Q x y -> y.1 = x.1) -> Forall2 Q l l' -> keys l' = keys l.
Proof.
  intros HQ Hl. unfold keys. induction Hl as [|x y l l' Hxy _ IH]; simpl.
  - done.
  - f_equal; [by apply HQ | done].
Qed.

Lemma has_keys_snoc {V W} (d : gmap string V) (pre : list (string * W))
    k w v :
  has_keys d pre -> has_keys (<[k := v]> d) (pre ++ [(k, w)]).
Proof.
  intros Hd k' Hk'. unfold keys in Hk'. rewrite fmap_app in Hk'.
  apply elem_of_app in Hk' as [Hk'|Hk'].
  - by apply (has_keys_insert d pre).
  - apply list_elem_of_singleton in Hk'. simpl in Hk'. subst k'.
    rewrite lookup_insert_eq. eauto.
Qed.

Lemma rk4_step_returns (self : GravityEngine) (bodies : Bodies) (dt t : R) :
  exists k_pos k_vel,
    _rk4_step self bodies dt t = Ok (k_pos, k_vel)
    /\ has_keys k_pos bodies /\ has_keys k_vel bodies.
Proof.
  unfold _rk4_step.
  destruct (calculate_gravitational_forces_returns self bodies)
    as (forces & -> & Hforces).
  rewrite bind_Ok.
  match goal with |- context [foldM ?f bodies ?a] =>
    destruct (foldM_prefix_invariant
                (fun pre (acc : gmap string Vec3 * gmap string Vec3) =>
                   has_keys acc.1 pre /\ has_keys acc.2 pre)
                f bodies a) as ([k_pos k_vel] & Hrun & Hp & Hv)
  end.
  - split; intros k Hk; by apply elem_of_nil in Hk.
  - intros pre [k b] suf [positions velocities] Hbodies [Hp Hv]. simpl in *.
    destruct (has_keys_lookup forces bodies k b Hforces) as [f Hf].
    { rewrite Hbodies. apply elem_of_app. right. left. }
    rewrite (dict_get_Some _ _ _ Hf).
    destruct (Rlt_dec 0 (mass b)); rewrite !bind_Ok;
      (eexists; split; [done |]; simpl; split; by apply has_keys_snoc).
  - eauto.
Qed.

(** The four assignment loops of [rk4_integration] have the same shape:
    every dict they read holds every key of the collection. *)
Ltac stage_lookups Hk :=
  repeat match goal with
  | H : has_keys ?d _ |- context [dict_get ?d ?k] =>
      let v := fresh "v" in
      let Hv := fresh "Hv" in
      destruct (H k Hk) as [v Hv];
      rewrite (dict_get_Some _ _ _ Hv), ?bind_Ok
  end.

Lemma elem_of_keys {W} (l : list (string * W)) k w : (k, w) ∈ l -> k ∈ keys l.
Proof. intros Hin. unfold keys. apply list_elem_of_fmap. by exists (k, w). Qed.

Lemma has_keys_dict_of_items {V} (f : CelestialBody -> V) (bodies : Bodies) :
  has_keys (dict_of_items f bodies) bodies.
Proof.
  unfold dict_of_items.
  cut (forall (d : gmap string V) k,
         k ∈ keys bodies \/ is_Some (d !! k) ->
         is_Some (foldl (fun d '(body_key, body) => <[body_key := f body]> d)
                        d bodies !! k)).
  { intros Hcut k Hk. apply Hcut. by left. }
  induction bodies as [|[k0 b0] bodies IH]; intros d k Hk; simpl.
  - destruct Hk as [Hk|Hk]; [by apply elem_of_nil in Hk | done].
  - apply IH. destruct Hk as [Hk|Hk].
    + apply elem_of_cons in Hk as [->|Hk]; [right | by left].
      rewrite lookup_insert_eq. eauto.
    + right. destruct (decide (k0 = k)) as [->|Hne].
      * rewrite lookup_insert_eq. eauto.
      * by rewrite lookup_insert_ne.
Qed.

Lemma rk4_integration_returns (self : GravityEngine) (bodies : Bodies)
    (dt : R) :
  exists bodies',
    rk4_integration self bodies dt = Ok bodies' /\ Forall2 moved bodies bodies'.
Proof.
  unfold rk4_integration.
  pose proof (has_keys_dict_of_items position bodies) as Hip.
  pose proof (has_keys_dict_of_items velocity bodies) as Hiv.
  set (initial_positions := dict_of_items position bodies) in *.
  set (initial_velocities := dict_of_items velocity bodies) in *.
  assert (forall bodies1, Forall2 moved bodies bodies1 ->
            keys bodies1 = keys bodies) as Hkeys.
  { intros bodies1. apply Forall2_same_keys. by intros x y [? _]. }
  assert (forall bodies1 bodies2,
            Forall2 moved bodies bodies1 -> Forall2 moved bodies1 bodies2 ->
            Forall2 moved bodies bodies2) as Htrans.
  { intros bodies1 bodies2. apply Forall2_trans, moved_trans. }
  (* k1, and the state of stage 2 *)
  destruct (rk4_step_returns self bodies dt 0)
    as (k1_pos & k1_vel & -> & H1p & H1v).
  rewrite bind_Ok. cbv beta iota.
  match goal with |- context [forM ?f bodies] =>
    destruct (forM_Forall2 moved f bodies) as (bodies1 & -> & Hm1)
  end.
  { intros [k b] Hin. pose proof (elem_of_keys _ _ _ Hin) as Hk.
    stage_lookups Hk. eexists. split; [reflexivity |]. split; [done | eauto]. }
  rewrite bind_Ok. pose proof (Hkeys _ Hm1) as Hk1.
  (* k2, and the state of stage 3 *)
  destruct (rk4_step_returns self bodies1 dt (0.5 * dt))
    as (k2_pos & k2_vel & -> & H2p & H2v).
  apply (has_keys_same_keys _ bodies1 bodies) in H2p, H2v; [|done..].
  rewrite bind_Ok. cbv beta iota.
  match goal with |- context [forM ?f bodies1] =>
    destruct (forM_Forall2 moved f bodies1) as (bodies2 & -> & Hm2)
  end.
  { intros [k b] Hin. pose proof (elem_of_keys _ _ _ Hin) as Hk.
    rewrite Hk1 in Hk.
    stage_lookups Hk. eexists. split; [reflexivity |]. split; [done | eauto]. }
  rewrite bind_Ok. pose proof (Htrans _ _ Hm1 Hm2) as Hm02.
  pose proof (Hkeys _ Hm02) as Hk2.
  (* k3, and the state of stage 4 *)
  destruct (rk4_step_returns self bodies2 dt (0.5 * dt))
    as (k3_pos & k3_vel & -> & H3p & H3v).
  apply (has_keys_same_keys _ bodies2 bodies) in H3p, H3v; [|done..].
  rewrite bind_Ok. cbv beta iota.
  match goal with |- context [forM ?f bodies2] =>
    destruct (forM_Forall2 moved f bodies2) as (bodies3 & -> & Hm3)
  end.
  { intros [k b] Hin. pose proof (elem_of_keys _ _ _ Hin) as Hk.
    rewrite Hk2 in Hk.
    stage_lookups Hk. eexists. split; [reflexivity |]. split; [done | eauto]. }
  rewrite bind_Ok. pose proof (Htrans _ _ Hm02 Hm3) as Hm03.
  pose proof (Hkeys _ Hm03) as Hk3.
  (* k4, and the final state *)
  destruct (rk4_step_returns self bodies3 dt dt)
    as (k4_pos & k4_vel & -> & H4p & H4v).
  apply (has_keys_same_keys _ bodies3 bodies) in H4p, H4v; [|done..].
  rewrite bind_Ok. cbv beta iota.
  match goal with |- context [forM ?f bodies3] =>
    destruct (forM_Forall2 moved f bodies3) as (bodies4 & -> & Hm4)
  end.
  { intros [k b] Hin. pose proof (elem_of_keys _ _ _ Hin) as Hk.
    rewrite Hk3 in Hk.
    stage_lookups Hk. eexists. split; [reflexivity |]. split; [done | eauto]. }
  eauto.
Qed.

(** ** One body under the Euler step *)

Lemma update_position_fields (b : CelestialBody) (dt : R) :
  let p := position b +v velocity b *s dt in
  update_position b dt =
    set_trail (set_position b p)
      (if (max_trail_length b <? length (trail b ++ [p]))%nat
       then tail (trail b ++ [p]) else trail b ++ [p]).
Proof.
  unfold update_position. simpl.
  destruct (max_trail_length b <? length (trail b ++ _))%nat; reflexivity.
Qed.

Lemma euler_integration_returns (self : GravityEngine) (bodies : Bodies)
    (dt : R) :
  exists forces bodies',
    calculate_gravitational_forces self bodies = Ok forces
    /\ euler_integration self bodies dt = Ok bodies'
    /\ Forall2 (euler_updated forces dt) bodies bodies'.
Proof.
  unfold euler_integration.
  destruct (calculate_gravitational_forces_returns self bodies)
    as (forces & -> & Hforces).
  exists forces. rewrite bind_Ok. unfold update_accelerations.
  match goal with |- context [forM ?loop bodies] =>
    destruct (forM_Forall2
                (fun kb kb' => kb'.1 = kb.1 /\ exists f, forces !! kb.1 = Some f
                   /\ kb'.2 = if Rlt_dec 0 (mass kb.2)
                              then set_acceleration kb.2 (f /s mass kb.2)
                              else kb.2)
                loop bodies) as (bodies1 & -> & H1)
  end.
  { intros [k b] Hin.
    destruct (has_keys_lookup forces bodies k b Hforces Hin) as [f Hf].
    rewrite (dict_get_Some _ _ _ Hf), bind_Ok. simpl.
    destruct (Rlt_dec 0 (mass b)); eauto 10. }
  rewrite bind_Ok.
  match goal with |- context [forM ?loop bodies1] =>
    destruct (forM_Forall2
                (fun kb kb' => kb'.1 = kb.1
                   /\ kb'.2 = update_position (update_velocity kb.2 dt) dt)
                loop bodies1) as (bodies2 & -> & H2)
  end.
  { intros [k b] Hin. eauto. }
  eexists. split; [done |]. split; [done |].
  eapply Forall2_trans; [|exact H1|exact H2].
  intros [k b] [k1 b1] [k2 b2]. simpl.
  intros [-> (f & Hf & ->)] [-> ->].
  split; [done |]. exists f. split; [done |]. reflexivity.
Qed.

Lemma integration_returns (self : GravityEngine) (bodies : Bodies) (dt : R) :
  exists bodies',
    (if use_rk4 self then rk4_integration self bodies dt
     else euler_integration self bodies dt) = Ok bodies'
    /\ keys bodies' = keys bodies.
Proof.
  destruct (use_rk4 self).
  - destruct (rk4_integration_returns self bodies dt) as (bodies' & H & Hm).
    exists bodies'. split; [done |].
    eapply Forall2_same_keys; [|exact Hm]. by intros x y [? _].
  - destruct (euler_integration_returns self bodies dt)
      as (forces & bodies' & _ & H & Hm).
    exists bodies'. split; [done |].
    eapply Forall2_same_keys; [|exact Hm]. by intros x y [? _].
Qed.

(** ** Centre of mass *)

Lemma values_fmap (g : CelestialBody -> CelestialBody) (bodies : Bodies) :
  values ((fun '(body_key, body) => (body_key, g body)) <$> bodies)
  = g <$> values bodies.
Proof.
  unfold values. induction bodies as [|[k b] bodies IH]; [done |].
  csimpl. by f_equal.
Qed.

Lemma total_mass_from (l : list CelestialBody) (a : R) :
  foldl (fun s body => s + mass body) a l
  = a + foldl (fun s body => s + mass body) 0 l.
Proof.
  revert a. induction l as [|b l IH]; intros a; simpl; [lra |].
  rewrite (IH (a + mass b)), (IH (0 + mass b)). lra.
Qed.

Lemma total_mass_fmap (g : CelestialBody -> CelestialBody)
    (l : list CelestialBody) (a : R) :
  (forall b, mass (g b) = mass b) ->
  foldl (fun s body => s + mass body) a (g <$> l)
  = foldl (fun s body => s + mass body) a l.
Proof.
  intros Hg. revert a. induction l as [|b l IH]; intros a; csimpl; [done |].
  by rewrite Hg, IH.
Qed.

Lemma total_mass_positive (l : list CelestialBody) :
  l <> [] -> Forall (fun b => 0 < mass b) l ->
  0 < foldl (fun s body => s + mass body) 0 l.
Proof.
  intros Hne Hall.
  assert (forall l, Forall (fun b => 0 < mass b) l ->
            0 <= foldl (fun s body => s + mass body) 0 l) as Hnonneg.
  { clear. induction l as [|b l IH]; intros Hall; simpl; [lra |].
    apply Forall_cons in Hall as [Hb Hl].
    rewrite total_mass_from. specialize (IH Hl). lra. }
  destruct l as [|b l]; [done |]. simpl.
  apply Forall_cons in Hall as [Hb Hl].
  rewrite total_mass_from. specialize (Hnonneg l Hl). lra.
Qed.

(** The mass-weighted sum of the vectors [f body], as the two queries
    accumulate it. *)
Lemma weighted_sum_from (f : CelestialBody -> Vec3) (l : list CelestialBody)
    (c : Vec3) :
  foldl (fun c body => c +v mass body s* f body) c l
  = c +v foldl (fun c body => c +v mass body s* f body) zeros l.
Proof.
  revert c. induction l as [|b l IH]; intros c; simpl.
  - apply Vec3_eq; vec_simpl; lra.
  - rewrite (IH (c +v _)), (IH (zeros +v _)).
    apply Vec3_eq; vec_simpl; lra.
Qed.

Lemma weighted_sum_shift (f : CelestialBody -> Vec3)
    (g : CelestialBody -> CelestialBody) (d : Vec3)
    (l : list CelestialBody) :
  (forall b, mass (g b) = mass b) ->
  (forall b, f (g b) = f b -v d) ->
  foldl (fun c body => c +v mass body s* f body) zeros (g <$> l)
  = foldl (fun c body => c +v mass body s* f body) zeros l
    -v foldl (fun s body => s + mass body) 0 l s* d.
Proof.
  intros Hm Hf. induction l as [|b l IH]; csimpl.
  - apply Vec3_eq; vec_simpl; lra.
  - rewrite (weighted_sum_from f (g <$> l)), IH.
    rewrite (weighted_sum_from f l (zeros +v mass b s* f b)).
    rewrite (total_mass_from l (0 + mass b)), Hm, Hf.
    apply Vec3_eq; vec_simpl; ring.
Qed.

Lemma weighted_sum_fmap (f : CelestialBody -> Vec3)
    (g : CelestialBody -> CelestialBody) (l : list CelestialBody) (c : Vec3) :
  (forall b, mass (g b) = mass b) ->
  (forall b, f (g b) = f b) ->
  foldl (fun c body => c +v mass body s* f body) c (g <$> l)
  = foldl (fun c body => c +v mass body s* f body) c l.
Proof.
  intros Hm Hf. revert c. induction l as [|b l IH]; intros c; csimpl; [done |].
  by rewrite Hm, Hf, IH.
Qed.

(** Subtracting the mass-weighted mean of the vectors from each of them
    leaves vectors whose mass-weighted mean is zero. *)
Lemma weighted_mean_centred (f : CelestialBody -> Vec3)
    (g : CelestialBody -> CelestialBody) (l : list CelestialBody) :
  let total_mass := foldl (fun s body => s + mass body) 0 l in
  let mean :=
    foldl (fun c body => c +v mass body s* f body) zeros l /s total_mass in
  total_mass <> 0 ->
  (forall b, mass (g b) = mass b) ->
  (forall b, f (g b) = f b -v mean) ->
  foldl (fun c body => c +v mass body s* f body) zeros (g <$> l)
    /s total_mass
  = zeros.
Proof.
  intros total_mass mean Hne Hm Hf.
  rewrite (weighted_sum_shift f g mean l Hm Hf).
  fold total_mass. unfold mean.
  apply Vec3_eq; vec_simpl; field; exact Hne.
Qed.

Section centre_of_mass.
Context (self : GravityEngine).

Lemma find_center_of_mass_fmap
    (g : CelestialBody -> CelestialBody) (bodies : Bodies) :
  (forall b, mass (g b) = mass b) ->
  (forall b, position (g b) = position b) ->
  find_center_of_mass self
    ((fun '(body_key, body) => (body_key, g body)) <$> bodies)
  = find_center_of_mass self bodies.
Proof.
  intros Hm Hp. unfold find_center_of_mass.
  rewrite values_fmap, total_mass_fmap by done.
  by rewrite (weighted_sum_fmap position g) by done.
Qed.

Lemma find_center_of_mass_velocity_fmap
    (g : CelestialBody -> CelestialBody) (bodies : Bodies) :
  (forall b, mass (g b) = mass b) ->
  (forall b, velocity (g b) = velocity b) ->
  find_center_of_mass_velocity self
    ((fun '(body_key, body) => (body_key, g body)) <$> bodies)
  = find_center_of_mass_velocity self bodies.
Proof.
  intros Hm Hp. unfold find_center_of_mass_velocity.
  rewrite values_fmap, total_mass_fmap by done.
  by rewrite (weighted_sum_fmap velocity g) by done.
Qed.

Lemma find_center_of_mass_recentred
    (g : CelestialBody -> CelestialBody) (bodies : Bodies) :
  foldl (fun s body => s + mass body) 0 (values bodies) <> 0 ->
  (forall b, mass (g b) = mass b) ->
  (forall b, position (g b)
             = position b -v find_center_of_mass self bodies) ->
  find_center_of_mass self
    ((fun '(body_key, body) => (body_key, g body)) <$> bodies)
  = zeros.
Proof.
  intros Hne Hm Hp. unfold find_center_of_mass at 1.
  rewrite values_fmap, total_mass_fmap by done.
  destruct (Req_dec_T _ 0) as [|_]; [done |].
  apply (weighted_mean_centred position g); [done..|].
  intros b. rewrite Hp. unfold find_center_of_mass.
  by destruct (Req_dec_T _ 0).
Qed.

Lemma find_center_of_mass_velocity_recentred
    (g : CelestialBody -> CelestialBody) (bodies : Bodies) :
  foldl (fun s body => s + mass body) 0 (values bodies) <> 0 ->
  (forall b, mass (g b) = mass b) ->
  (forall b, velocity (g b)
             = velocity b -v find_center_of_mass_velocity self bodies) ->
  find_center_of_mass_velocity self
    ((fun '(body_key, body) => (body_key, g body)) <$> bodies)
  = zeros.
Proof.
  intros Hne Hm Hp. unfold find_center_of_mass_velocity at 1.
  rewrite values_fmap, total_mass_fmap by done.
  destruct (Req_dec_T _ 0) as [|_]; [done |].
  apply (weighted_mean_centred velocity g); [done..|].
  intros b. rewrite Hp. unfold find_center_of_mass_velocity.
  by destruct (Req_dec_T _ 0).
Qed.

Lemma fmap_unchanged {A} (f : A -> A) (l : list A) :
  (forall x, f x = x) -> f <$> l = l.
Proof.
  intros Hf. induction l as [|x l IH]; [done |]. csimpl. by rewrite Hf, IH.
Qed.

(** Where both centres are at the origin the correction changes nothing. *)
Lemma apply_correction_centred (bodies : Bodies) :
  find_center_of_mass self bodies = zeros ->
  find_center_of_mass_velocity self bodies = zeros ->
  apply_correction self bodies = bodies.
Proof.
  intros Hc Hv. unfold apply_correction. rewrite Hc.
  rewrite (fmap_unchanged _ bodies).
  - rewrite Hv. apply fmap_unchanged.
    intros [k b]. f_equal. rewrite vsub_zeros. by destruct b.
  - intros [k b]. f_equal. rewrite vsub_zeros. by destruct b.
Qed.

Lemma apply_correction_centres (bodies : Bodies) :
  foldl (fun s body => s + mass body) 0 (values bodies) <> 0 ->
  find_center_of_mass self (apply_correction self bodies) = zeros
  /\ find_center_of_mass_velocity self (apply_correction self bodies) = zeros.
Proof.
  intros Hne. unfold apply_correction.
  set (com := find_center_of_mass self bodies).
  set (bodies1 :=
         (fun '(body_key, body) =>
            (body_key, set_position body (position body -v com))) <$> bodies).
  assert (foldl (fun s body => s + mass body) 0 (values bodies1) <> 0) as Hne1.
  { unfold bodies1.
    rewrite (values_fmap (fun body => set_position body (position body -v com))).
    by rewrite total_mass_fmap. }
  split.
  - rewrite (find_center_of_mass_fmap
               (fun body => set_velocity body
                  (velocity body -v find_center_of_mass_velocity self bodies1)))
      by done.
    by apply (find_center_of_mass_recentred
                (fun body => set_position body (position body -v com))).
  - by apply (find_center_of_mass_velocity_recentred
                (fun body => set_velocity body
                   (velocity body
                    -v find_center_of_mass_velocity self bodies1))).
Qed.

End centre_of_mass.

(** ** The force calculator *)

Lemma norm_zero_inv (a : Vec3) : norm a = 0 -> a = zeros.
Proof.
  unfold norm. intros H. apply sqrt_eq_0 in H; [|nra].
  apply Vec3_eq; simpl; nra.
Qed.

Lemma norm_difference_nonzero (p q : Vec3) : p <> q -> norm (q -v p) <> 0.
Proof.
  intros Hne H. apply Hne. apply norm_zero_inv in H.
  apply Vec3_eq.
  - apply (f_equal vx) in H. vec_simpl. lra.
  - apply (f_equal vy) in H. vec_simpl. lra.
  - apply (f_equal vz) in H. vec_simpl. lra.
Qed.

Lemma pair_step_distinct (self : GravityEngine) (bodies : Bodies)
    (i j : nat) (key_i key_j : string) (body_i body_j : CelestialBody)
    (forces : gmap string Vec3) (f_i f_j : Vec3) :
  bodies !! i = Some (key_i, body_i) ->
  bodies !! j = Some (key_j, body_j) ->
  key_i <> key_j ->
  norm (position body_j -v position body_i) <> 0 ->
  forces !! key_i = Some f_i ->
  forces !! key_j = Some f_j ->
  let r := norm (position body_j -v position body_i) in
  let F := G self * mass body_i * mass body_j / (r * r) in
  let direction := (position body_j -v position body_i) /s r in
  pair_step self (values bodies) (keys bodies) i j forces
  = Ok (<[key_j := f_j -v direction *s F]>
          (<[key_i := f_i +v direction *s F]> forces)).
Proof.
  intros Hi Hj Hne Hr Hfi Hfj r F direction. unfold pair_step.
  assert (values bodies !! i = Some body_i) as ->%list_get_Some
    by (unfold values; by rewrite list_lookup_fmap, Hi).
  assert (values bodies !! j = Some body_j) as ->%list_get_Some
    by (unfold values; by rewrite list_lookup_fmap, Hj).
  assert (keys bodies !! i = Some key_i) as ->%list_get_Some
    by (unfold keys; by rewrite list_lookup_fmap, Hi).
  assert (keys bodies !! j = Some key_j) as ->%list_get_Some
    by (unfold keys; by rewrite list_lookup_fmap, Hj).
  rewrite !bind_Ok.
  destruct (Req_dec_T _ 0) as [H0|_]; [done |].
  rewrite (dict_get_Some _ _ _ Hfi), !bind_Ok.
  rewrite (dict_get_Some _ key_j f_j); [done |].
  by rewrite lookup_insert_ne.
Qed.

Lemma pair_step_coincident (self : GravityEngine) (bodies : Bodies)
    (i j : nat) (key_i key_j : string) (body_i body_j : CelestialBody)
    (forces : gmap string Vec3) :
  bodies !! i = Some (key_i, body_i) ->
  bodies !! j = Some (key_j, body_j) ->
  norm (position body_j -v position body_i) = 0 ->
  pair_step self (values bodies) (keys bodies) i j forces = Ok forces.
Proof.
  intros Hi Hj Hr. unfold pair_step.
  assert (values bodies !! i = Some body_i) as ->%list_get_Some
    by (unfold values; by rewrite list_lookup_fmap, Hi).
  assert (values bodies !! j = Some body_j) as ->%list_get_Some
    by (unfold values; by rewrite list_lookup_fmap, Hj).
  rewrite !bind_Ok.
  by destruct (Req_dec_T _ 0).
Qed.

(** C3, as the code has it.  For a pair [i], [j] of bodies with distinct
    keys at distinct positions, the step of the force calculator for the
    pair adds [F * direction] to the force accumulated for body [i] and
    subtracts the same vector from the force accumulated for body [j]
    (the direction points from [i] to [j]: each body is pulled towards the
    other), and changes the force of no other body.  The two contributions
    are exact negations of each other. *)
Theorem pair_step_equal_and_opposite (self : GravityEngine) (bodies : Bodies)
    (i j : nat) (key_i key_j : string) (body_i body_j : CelestialBody)
    (forces : gmap string Vec3) (f_i f_j : Vec3) :
  bodies !! i = Some (key_i, body_i) ->
  bodies !! j = Some (key_j, body_j) ->
  key_i <> key_j ->
  position body_i <> position body_j ->
  forces !! key_i = Some f_i ->
  forces !! key_j = Some f_j ->
  let r := norm (position body_j -v position body_i) in
  let F := G self * mass body_i * mass body_j / (r * r) in
  let direction := (position body_j -v position body_i) /s r in
  exists forces',
    pair_step self (values bodies) (keys bodies) i j forces = Ok forces'
    /\ forces' !! key_i = Some (f_i +v direction *s F)
    /\ forces' !! key_j = Some (f_j -v direction *s F)
    /\ (forall k, k <> key_i -> k <> key_j -> forces' !! k = forces !! k)
    /\ (f_i +v direction *s F) -v f_i
       = zeros -v ((f_j -v direction *s F) -v f_j).
Proof.
  intros Hi Hj Hne Hpos Hfi Hfj r F direction.
  eexists. split.
  { apply (pair_step_distinct self bodies i j key_i key_j body_i body_j);
      [done.. | | done | done].
    by apply norm_difference_nonzero. }
  split; [|split; [|split]].
  - rewrite lookup_insert_ne by done. by rewrite lookup_insert_eq.
  - by rewrite lookup_insert_eq.
  - intros k Hki Hkj. by rewrite !lookup_insert_ne.
  - apply Vec3_eq; vec_simpl; lra.
Qed.

Lemma norm_unit_x : norm (mkVec3 1 0 0 -v zeros) = 1.
Proof.
  unfold norm. vec_simpl.
  replace ((1 - 0) * (1 - 0) + (0 - 0) * (0 - 0) + (0 - 0) * (0 - 0)) with 1
    by lra.
  apply sqrt_1.
Qed.

Lemma calculate_gravitational_forces_two_bodies :
  calculate_gravitational_forces GravityEngine_init two_bodies
  = Ok (<["b" := mkVec3 (- 6.67430e-11) 0 0]>
          (<["a" := mkVec3 6.67430e-11 0 0]>
             (<["b" := zeros]> (<["a" := zeros]> ∅)))).
Proof.
  unfold calculate_gravitational_forces.
  change (length (values two_bodies)) with 2%nat.
  change (seq 0 2) with [0%nat; 1%nat].
  cbn [foldM]. 
  change (seq (0 + 1) (2 - (0 + 1))) with [1%nat].
  change (seq (1 + 1) (2 - (1 + 1))) with (@nil nat).
  cbn [foldM].
  change (foldl _ ∅ (keys two_bodies))
    with (<["b" := zeros]> (<["a" := zeros]> (∅ : gmap string Vec3))).
  rewrite (pair_step_distinct GravityEngine_init two_bodies 0 1 "a" "b"
             (example_body 1 1 zeros zeros)
             (example_body 1 1 (mkVec3 1 0 0) zeros) _ zeros zeros);
    [| done | done | done | simpl; rewrite norm_unit_x; lra | done | done].
  rewrite !bind_Ok. simpl. rewrite norm_unit_x.
  f_equal. f_equal; [|f_equal]; apply Vec3_eq; vec_simpl; lra.
Qed.

(** C3 fails as stated: of the two bodies, ["a"] the first and ["b"] the
    second of the pair, the calculator pushes ["a"] along the direction from
    ["a"] to ["b"] and ["b"] against it, where the claim has the signs the
    other way round. *)
Lemma calculate_gravitational_forces_signs :
  exists forces,
    calculate_gravitational_forces GravityEngine_init two_bodies = Ok forces
    /\ forces !! "a" = Some (mkVec3 6.67430e-11 0 0)
    /\ forces !! "b" = Some (mkVec3 (- 6.67430e-11) 0 0)
    /\ forces !! "b"
       <> Some (zeros
                +v ((mkVec3 1 0 0 -v zeros) /s norm (mkVec3 1 0 0 -v zeros))
                   *s (G GravityEngine_init * 1 * 1
                       / (norm (mkVec3 1 0 0 -v zeros)
                          * norm (mkVec3 1 0 0 -v zeros))))
    /\ forces !! "a"
       <> Some (zeros
                -v ((mkVec3 1 0 0 -v zeros) /s norm (mkVec3 1 0 0 -v zeros))
                   *s (G GravityEngine_init * 1 * 1
                       / (norm (mkVec3 1 0 0 -v zeros)
                          * norm (mkVec3 1 0 0 -v zeros)))).
Proof.
  eexists. split; [apply calculate_gravitational_forces_two_bodies |].
  rewrite lookup_insert_ne by done.
  rewrite !lookup_insert_eq, norm_unit_x.
  split; [done |]. split; [done |].
  split; intros H; injection H as Hx _ _; vec_simpl; lra.
Qed.

Lemma pair_step_equal_and_opposite_witness :
  exists forces',
    pair_step GravityEngine_init (values two_bodies) (keys two_bodies) 0 1
      (<["b" := zeros]> (<["a" := zeros]> ∅)) = Ok forces'
    /\ forces' !! "a" = Some (mkVec3 6.67430e-11 0 0)
    /\ forces' !! "b" = Some (mkVec3 (- 6.67430e-11) 0 0).
Proof.
  destruct (pair_step_equal_and_opposite GravityEngine_init two_bodies 0 1
              "a" "b" (example_body 1 1 zeros zeros)
              (example_body 1 1 (mkVec3 1 0 0) zeros)
              (<["b" := zeros]> (<["a" := zeros]> ∅)) zeros zeros)
    as (forces' & Hstep & Ha & Hb & _).
  - reflexivity.
  - reflexivity.
  - discriminate.
  - simpl. unfold zeros. intros H. apply (f_equal vx) in H. simpl in H. lra.
  - reflexivity.
  - reflexivity.
  - exists forces'. split; [exact Hstep |].
    rewrite Ha, Hb. simpl. rewrite norm_unit_x.
    split; f_equal; apply Vec3_eq; vec_simpl; lra.
Defined.

(** *** Every pair once, and no net force on the whole *)

Lemma foldM_app {A B} (f : B -> A -> result B) (l1 l2 : list A) (acc : B) :
  foldM f (l1 ++ l2) acc = (foldM f l1 acc ≫= foldM f l2).
Proof.
  revert acc. induction l1 as [|x l1 IH]; intros acc; simpl; [done |].
  destruct (f acc x) as [acc'|e]; [|done]. rewrite !bind_Ok. apply IH.
Qed.

Lemma foldM_fmap {A A' B} (f : B -> A -> result B) (g : A' -> A)
    (l : list A') (acc : B) :
  foldM f (g <$> l) acc = foldM (fun acc x => f acc (g x)) l acc.
Proof.
  revert acc. induction l as [|x l IH]; intros acc; csimpl; [done |].
  destruct (f acc (g x)) as [acc'|e]; [|done]. rewrite !bind_Ok. apply IH.
Qed.

Lemma foldM_bind {A A' B} (f : B -> A -> result B) (g : A' -> list A)
    (l : list A') (acc : B) :
  foldM f (l ≫= g) acc = foldM (fun acc x => foldM f (g x) acc) l acc.
Proof.
  revert acc. induction l as [|x l IH]; intros acc; csimpl; [done |].
  rewrite foldM_app.
  destruct (foldM f (g x) acc) as [acc'|e]; [|done].
  rewrite !bind_Ok. apply IH.
Qed.

Lemma foldM_same {A B} (f g : B -> A -> result B) (l : list A) (acc : B) :
  (forall acc x, f acc x = g acc x) -> foldM f l acc = foldM g l acc.
Proof.
  intros Hfg. revert acc. induction l as [|x l IH]; intros acc; simpl; [done |].
  rewrite Hfg. destruct (g acc x) as [acc'|e]; [|done].
  rewrite !bind_Ok. apply IH.
Qed.

(** The calculator runs the step of a pair once for every pair of indices
    [i < j], in the order of [index_pairs]. *)
Lemma calculate_gravitational_forces_pairs (self : GravityEngine)
    (bodies : Bodies) :
  calculate_gravitational_forces self bodies
  = foldM (fun forces '(i, j) =>
             pair_step self (values bodies) (keys bodies) i j forces)
          (index_pairs (length bodies))
          (foldl (fun d body => <[body := zeros]> d) ∅ (keys bodies)).
Proof.
  unfold calculate_gravitational_forces, index_pairs.
  assert (length (values bodies) = length bodies) as ->
    by (unfold values; apply length_fmap).
  rewrite foldM_bind. apply foldM_same. intros forces i.
  by rewrite foldM_fmap.
Qed.

Lemma elem_of_index_pairs (n i j : nat) :
  (i, j) ∈ index_pairs n <-> (i < j < n)%nat.
Proof.
  unfold index_pairs. rewrite list_elem_of_bind. split.
  - intros (i' & Hj & Hi). apply elem_of_seq in Hi.
    apply list_elem_of_fmap in Hj as (j' & Heq & Hj).
    injection Heq as -> ->. apply elem_of_seq in Hj. lia.
  - intros Hij. exists i. split.
    + apply list_elem_of_fmap. exists j. split; [done |].
      apply elem_of_seq. lia.
    + apply elem_of_seq. lia.
Qed.

Lemma NoDup_index_pairs (n : nat) : NoDup (index_pairs n).
Proof.
  unfold index_pairs. apply NoDup_bind.
  - intros i1 i2 [i j] _ _ H1 H2.
    apply list_elem_of_fmap in H1 as (j1 & Heq1 & _).
    apply list_elem_of_fmap in H2 as (j2 & Heq2 & _).
    congruence.
  - intros i _. apply NoDup_fmap_2; [|apply NoDup_seq].
    intros j1 j2. congruence.
  - apply NoDup_seq.
Qed.

Lemma total_force_insert_other (forces : gmap string Vec3) (bodies : Bodies)
    (k : string) (v : Vec3) :
  k ∉ keys bodies ->
  total_force (<[k := v]> forces) bodies = total_force forces bodies.
Proof.
  unfold keys. induction bodies as [|[k0 b0] bodies IH]; intros Hk; csimpl in *.
  - done.
  - apply not_elem_of_cons in Hk as [Hne Hk].
    rewrite lookup_insert_ne by done. by rewrite IH.
Qed.

(** Storing [v] where the dict held [old] moves the sum by [v - old]. *)
Lemma total_force_insert (forces : gmap string Vec3) (bodies : Bodies)
    (k : string) (v old : Vec3) :
  NoDup (keys bodies) -> k ∈ keys bodies -> forces !! k = Some old ->
  total_force (<[k := v]> forces) bodies
  = total_force forces bodies +v (v -v old).
Proof.
  unfold keys.
  induction bodies as [|[k0 b0] bodies IH]; intros Hnd Hk Hold; csimpl in *.
  - by apply elem_of_nil in Hk.
  - apply NoDup_cons in Hnd as [Hnotin Hnd].
    destruct (decide (k0 = k)) as [->|Hne].
    + rewrite lookup_insert_eq, Hold, total_force_insert_other by done.
      simpl. apply Vec3_eq; vec_simpl; lra.
    + apply elem_of_cons in Hk as [->|Hk]; [done |].
      rewrite lookup_insert_ne, IH by done.
      apply Vec3_eq; vec_simpl; lra.
Qed.

Lemma pair_step_total_force (self : GravityEngine) (bodies : Bodies)
    (i j : nat) (forces : gmap string Vec3) :
  NoDup (keys bodies) ->
  (i < length bodies)%nat -> (j < length bodies)%nat ->
  has_keys forces bodies ->
  exists forces',
    pair_step self (values bodies) (keys bodies) i j forces = Ok forces'
    /\ has_keys forces' bodies
    /\ total_force forces' bodies = total_force forces bodies.
Proof.
  intros Hnd Hi Hj Hkeys. unfold pair_step.
  destruct (lookup_lt_is_Some_2 bodies i Hi) as [[ki bi] Hbi].
  destruct (lookup_lt_is_Some_2 bodies j Hj) as [[kj bj] Hbj].
  assert (values bodies !! i = Some bi) as ->%list_get_Some
    by (unfold values; by rewrite list_lookup_fmap, Hbi).
  assert (values bodies !! j = Some bj) as ->%list_get_Some
    by (unfold values; by rewrite list_lookup_fmap, Hbj).
  assert (keys bodies !! i = Some ki) as ->%list_get_Some
    by (unfold keys; by rewrite list_lookup_fmap, Hbi).
  assert (keys bodies !! j = Some kj) as ->%list_get_Some
    by (unfold keys; by rewrite list_lookup_fmap, Hbj).
  rewrite !bind_Ok.
  destruct (Req_dec_T _ 0) as [_|_]; [eauto |].
  cbv zeta.
  assert (ki ∈ keys bodies) as Hki
    by (eapply elem_of_keys, list_elem_of_lookup_2; exact Hbi).
  assert (kj ∈ keys bodies) as Hkj
    by (eapply elem_of_keys, list_elem_of_lookup_2; exact Hbj).
  destruct (Hkeys ki Hki) as [fi Hfi].
  rewrite (dict_get_Some _ _ _ Hfi), bind_Ok.
  set (c := _ *s _). set (forces1 := <[ki := fi +v c]> forces).
  rewrite bind_Ok.
  assert (has_keys forces1 bodies) as Hkeys1 by by apply has_keys_insert.
  destruct (Hkeys1 kj Hkj) as [fj Hfj].
  rewrite (dict_get_Some _ _ _ Hfj), bind_Ok.
  eexists. split; [done |]. split; [by apply has_keys_insert |].
  rewrite (total_force_insert forces1 bodies kj _ fj) by done.
  unfold forces1.
  rewrite (total_force_insert forces bodies ki _ fi) by done.
  apply Vec3_eq; vec_simpl; lra.
Qed.

Lemma initial_forces_lookup (ks : list string) (k : string) :
  k ∈ ks ->
  foldl (fun d body => <[body := zeros]> d) (∅ : gmap string Vec3) ks !! k
  = Some zeros.
Proof.
  cut (forall (d : gmap string Vec3),
         k ∈ ks \/ d !! k = Some zeros ->
         foldl (fun d body => <[body := zeros]> d) d ks !! k = Some zeros).
  { intros Hcut Hk. apply Hcut. by left. }
  induction ks as [|k0 ks IH]; intros d Hk; simpl.
  - destruct Hk as [Hk|Hk]; [by apply elem_of_nil in Hk | done].
  - apply IH. destruct Hk as [Hk|Hk].
    + apply elem_of_cons in Hk as [->|Hk]; [right | by left].
      by rewrite lookup_insert_eq.
    + right. destruct (decide (k0 = k)) as [->|Hne].
      * by rewrite lookup_insert_eq.
      * by rewrite lookup_insert_ne.
Qed.

Lemma total_force_zeros (forces : gmap string Vec3) (bodies : Bodies) :
  (forall k, k ∈ keys bodies -> forces !! k = Some zeros) ->
  total_force forces bodies = zeros.
Proof.
  unfold keys. induction bodies as [|[k0 b0] bodies IH]; intros Hz; csimpl.
  - done.
  - rewrite Hz by left. rewrite IH.
    + apply Vec3_eq; vec_simpl; lra.
    + intros k Hk. apply Hz. by right.
Qed.

(** Newton's third law over the whole collection: the forces that the
    calculator returns add up to the zero vector. *)
Lemma calculate_gravitational_forces_balance (self : GravityEngine)
    (bodies : Bodies) :
  NoDup (keys bodies) ->
  exists forces,
    calculate_gravitational_forces self bodies = Ok forces
    /\ total_force forces bodies = zeros.
Proof.
  intros Hnd. rewrite calculate_gravitational_forces_pairs.
  match goal with |- context [foldM ?f ?l ?a] =>
    destruct (foldM_invariant
                (fun forces => has_keys forces bodies
                               /\ total_force forces bodies = zeros)
                f l a) as (forces & Hrun & _ & Htotal)
  end.
  - split; [apply initial_forces_has_keys |].
    apply total_force_zeros. apply initial_forces_lookup.
  - intros forces [i j] Hij [Hkeys Htotal].
    apply elem_of_index_pairs in Hij.
    destruct (pair_step_total_force self bodies i j forces Hnd)
      as (forces' & Hstep & Hkeys' & Htotal'); [lia | lia | done |].
    exists forces'. split; [done |]. split; [done | congruence].
  - eauto.
Qed.

(** ** The dict under deletion *)

Lemma dict_items_cons_Some (x : string * CelestialBody) (d : Slots) :
  dict_items (Some x :: d) = x :: dict_items d.
Proof. reflexivity. Qed.

Lemma dict_items_cons_None (d : Slots) : dict_items (None :: d) = dict_items d.
Proof. reflexivity. Qed.

Lemma ma_used_cons_Some (x : string * CelestialBody) (d : Slots) :
  ma_used (Some x :: d) = S (ma_used d).
Proof. reflexivity. Qed.

Lemma ma_used_cons_None (d : Slots) : ma_used (None :: d) = ma_used d.
Proof. reflexivity. Qed.

Lemma dict_items_app (d1 d2 : Slots) :
  dict_items (d1 ++ d2) = dict_items d1 ++ dict_items d2.
Proof. unfold dict_items. apply omap_app. Qed.

Lemma dict_items_length (d : Slots) : (ma_used d <= length d)%nat.
Proof.
  induction d as [|[x|] d IH]; [done | |].
  - rewrite ma_used_cons_Some. simpl. lia.
  - rewrite ma_used_cons_None. simpl. lia.
Qed.

Lemma dict_items_of_bodies (bodies : Bodies) :
  dict_items (dict_of_bodies bodies) = bodies.
Proof.
  unfold dict_items, dict_of_bodies.
  induction bodies as [|x bodies IH]; csimpl; [done |]. by rewrite IH.
Qed.

(** In a dict, whose keys are distinct, the lookup of the key of a live entry
    finds that entry. *)
Lemma slots_get_live (pre suf : Slots) (k : string) (b : CelestialBody) :
  NoDup (keys (dict_items (pre ++ Some (k, b) :: suf))) ->
  slots_get (pre ++ Some (k, b) :: suf) k = Ok b.
Proof.
  induction pre as [|[[k' b']|] pre IH]; intros Hnd; simpl.
  - by rewrite decide_True.
  - unfold keys, dict_items in Hnd. csimpl in Hnd.
    apply NoDup_cons in Hnd as [Hnotin Hnd].
    rewrite decide_False; [by apply IH |].
    intros ->. apply Hnotin.
    fold (dict_items (pre ++ Some (k, b) :: suf)).
    rewrite dict_items_app, fmap_app. apply elem_of_app. right.
    unfold dict_items. csimpl. left.
  - by apply IH.
Qed.

Lemma slots_get_items (d : Slots) (m : nat) (k : string) (b : CelestialBody) :
  NoDup (keys (dict_items d)) ->
  dict_items d !! m = Some (k, b) ->
  slots_get d k = Ok b.
Proof.
  intros Hnd Hm.
  assert (Some (k, b) ∈ d) as Hin.
  { apply list_elem_of_lookup_2 in Hm. unfold dict_items in Hm.
    apply list_elem_of_omap in Hm as (x & Hx & Heq). by subst x. }
  apply list_elem_of_split in Hin as (pre & suf & ->).
  by apply slots_get_live.
Qed.

Lemma slots_set_used (d : Slots) (k : string) (b' : CelestialBody) :
  ma_used (slots_set d k b') = ma_used d
  /\ length (slots_set d k b') = length d.
Proof.
  induction d as [|[[k0 b0]|] d [IH1 IH2]]; simpl; [done | | ].
  - destruct (decide (k0 = k)); [done |].
    rewrite !ma_used_cons_Some. simpl. by rewrite IH1, IH2.
  - rewrite !ma_used_cons_None. by rewrite IH1, IH2.
Qed.

Lemma slots_get_set (d : Slots) (k1 k2 : string) (b' b2 : CelestialBody) :
  slots_get d k2 = Ok b2 ->
  exists b, slots_get (slots_set d k1 b') k2 = Ok b.
Proof.
  induction d as [|[[k b]|] d IH]; intros Hget; simpl in *.
  - discriminate.
  - destruct (decide (k = k1)) as [->|Hne1]; simpl.
    + destruct (decide (k1 = k2)); eauto.
    + destruct (decide (k = k2)); eauto.
  - eauto.
Qed.

(** Deleting a key the dict holds succeeds and leaves one live entry fewer
    in as many slots. *)
Lemma slots_del_live (d : Slots) (k : string) (b : CelestialBody) :
  slots_get d k = Ok b ->
  exists d',
    slots_del d k = Ok d'
    /\ S (ma_used d') = ma_used d
    /\ length d' = length d.
Proof.
  induction d as [|[[k0 b0]|] d IH]; intros Hget; simpl in *.
  - discriminate.
  - destruct (decide (k0 = k)) as [->|Hne].
    + eexists. split; [done |].
      by rewrite ma_used_cons_Some, ma_used_cons_None.
    + destruct (IH Hget) as (d' & -> & Hused & Hlen).
      rewrite bind_Ok. eexists. split; [done |].
      rewrite !ma_used_cons_Some. simpl. lia.
  - destruct (IH Hget) as (d' & -> & Hused & Hlen).
    rewrite bind_Ok. eexists. split; [done |].
    rewrite !ma_used_cons_None. simpl. lia.
Qed.

Lemma slots_del_set (d : Slots) (k1 k2 : string) (b' b2 : CelestialBody) :
  slots_get d k2 = Ok b2 ->
  exists d',
    slots_del (slots_set d k1 b') k2 = Ok d'
    /\ S (ma_used d') = ma_used d
    /\ length d' = length d.
Proof.
  intros Hget.
  destruct (slots_get_set d k1 k2 b' b2 Hget) as [b Hb].
  destruct (slots_del_live _ _ _ Hb) as (d' & Hdel & Hused & Hlen).
  destruct (slots_set_used d k1 b') as [Hu Hl].
  exists d'. split; [done |]. lia.
Qed.

(** ** The scan for collisions *)

Lemma dictiter_next_at (pre suf : Slots) :
  dictiter_next (pre ++ suf) (mkIter (ma_used (pre ++ suf)) (length pre))
  = match scan suf (length pre) with
    | Some (k, pos) =>
        Ok (Some (k, mkIter (ma_used (pre ++ suf)) pos))
    | None => Ok None
    end.
Proof.
  unfold dictiter_next. simpl.
  by rewrite Nat.eqb_refl, drop_app_length.
Qed.

Lemma dictiter_next_changed (d : Slots) (it : DictIter) :
  di_used it <> ma_used d -> dictiter_next d it = Raise RuntimeError.
Proof.
  intros Hne. unfold dictiter_next.
  by destruct (Nat.eqb_spec (di_used it) (ma_used d)).
Qed.

Lemma inner_loop_unfold (fuel i : nat) (body_key_1 : string) (j : nat)
    (it : DictIter) (bodies : Slots) :
  inner_loop (S fuel) i body_key_1 j it bodies
  = match dictiter_next bodies it with
    | Raise e => Raised e bodies
    | Ok None => Finished bodies
    | Ok (Some (body_key_2, it)) =>
      if (j <=? i)%nat then inner_loop fuel i body_key_1 (S j) it bodies
      else
        match slots_get bodies body_key_1 with
        | Raise e => Raised e bodies
        | Ok body1 =>
          match slots_get bodies body_key_2 with
          | Raise e => Raised e bodies
          | Ok body2 =>
            if is_collision_with body1 body2 then
              match slots_del
                      (slots_set bodies body_key_1 (merge_with body1 body2))
                      body_key_2 with
              | Raise e =>
                  Raised e
                    (slots_set bodies body_key_1 (merge_with body1 body2))
              | Ok bodies => Finished bodies
              end
            else inner_loop fuel i body_key_1 (S j) it bodies
          end
        end
    end.
Proof. reflexivity. Qed.

Lemma outer_loop_unfold (fuel i : nat) (it : DictIter) (bodies : Slots) :
  outer_loop (S fuel) i it bodies
  = match dictiter_next bodies it with
    | Raise e => Raised e bodies
    | Ok None => Finished bodies
    | Ok (Some (body_key_1, it)) =>
      match inner_loop (S (length bodies)) i body_key_1 0 (dict_iter bodies)
                       bodies with
      | Finished bodies => outer_loop fuel (S i) it bodies
      | r => r
      end
    end.
Proof. reflexivity. Qed.

(** An empty slot ahead of the iterator is stepped over. *)
Lemma dictiter_next_skip (pre suf : Slots) :
  dictiter_next (pre ++ None :: suf)
    (mkIter (ma_used (pre ++ None :: suf)) (length pre))
  = dictiter_next (pre ++ None :: suf)
      (mkIter (ma_used (pre ++ None :: suf)) (S (length pre))).
Proof.
  rewrite dictiter_next_at. cbn [scan].
  pose proof (dictiter_next_at (pre ++ [None]) suf) as H.
  rewrite <- app_assoc, length_app in H. cbn [app length] in H.
  replace (length pre + 1)%nat with (S (length pre)) in H by lia.
  by rewrite H.
Qed.

Lemma inner_loop_skip (fuel i : nat) (k1 : string) (j : nat)
    (pre suf : Slots) :
  inner_loop fuel i k1 j
    (mkIter (ma_used (pre ++ None :: suf)) (length pre)) (pre ++ None :: suf)
  = inner_loop fuel i k1 j
      (mkIter (ma_used (pre ++ None :: suf)) (S (length pre)))
      (pre ++ None :: suf).
Proof.
  destruct fuel as [|fuel]; [done |].
  by rewrite !inner_loop_unfold, dictiter_next_skip.
Qed.

Lemma outer_loop_skip (fuel i : nat) (pre suf : Slots) :
  outer_loop fuel i
    (mkIter (ma_used (pre ++ None :: suf)) (length pre)) (pre ++ None :: suf)
  = outer_loop fuel i
      (mkIter (ma_used (pre ++ None :: suf)) (S (length pre)))
      (pre ++ None :: suf).
Proof.
  destruct fuel as [|fuel]; [done |].
  by rewrite !outer_loop_unfold, dictiter_next_skip.
Qed.

Lemma hit_nil (i : nat) (b1 : CelestialBody) (j : nat) : ~ hit i b1 j [].
Proof. intros (m & k2 & b2 & Hm & _). by destruct m. Qed.

Lemma hit_cons_None (i : nat) (b1 : CelestialBody) (j : nat) (suf : Slots) :
  hit i b1 j (None :: suf) <-> hit i b1 j suf.
Proof. reflexivity. Qed.

Lemma hit_cons_Some (i : nat) (b1 : CelestialBody) (j : nat) (k2 : string)
    (b2 : CelestialBody) (suf : Slots) :
  hit i b1 j (Some (k2, b2) :: suf)
  <-> ((i < j)%nat /\ is_collision_with b1 b2 = true) \/ hit i b1 (S j) suf.
Proof.
  unfold hit. rewrite dict_items_cons_Some. split.
  - intros (m & k & b & Hm & Hlt & Hcol). destruct m as [|m]; simpl in Hm.
    + injection Hm as -> ->. left. split; [lia | done].
    + right. exists m, k, b. split; [done |]. split; [lia | done].
  - intros [[Hlt Hcol]|(m & k & b & Hm & Hlt & Hcol)].
    + exists 0%nat, k2, b2. split; [done |]. split; [lia | done].
    + exists (S m), k, b. split; [done |]. split; [lia | done].
Qed.

(** The inner loop, with the slots [pre] behind the iterator and [suf]
    ahead: it ends without raising, either with the dict as it was, no live
    entry ahead colliding, or at the first collision with the dict one entry
    smaller. *)
Lemma inner_loop_scan (i : nat) (k1 : string) (b1 : CelestialBody)
    (suf : Slots) :
  forall (pre : Slots) (fuel j : nat),
    NoDup (keys (dict_items (pre ++ suf))) ->
    slots_get (pre ++ suf) k1 = Ok b1 ->
    (length (dict_items suf) < fuel)%nat ->
    (inner_loop fuel i k1 j
       (mkIter (ma_used (pre ++ suf)) (length pre)) (pre ++ suf)
     = Finished (pre ++ suf)
     /\ ~ hit i b1 j suf)
    \/ (exists d',
          inner_loop fuel i k1 j
            (mkIter (ma_used (pre ++ suf)) (length pre)) (pre ++ suf)
          = Finished d'
          /\ S (ma_used d') = ma_used (pre ++ suf)
          /\ length d' = length (pre ++ suf)
          /\ hit i b1 j suf).
Proof.
  induction suf as [|[[k2 b2]|] suf IH]; intros pre fuel j Hnd Hget Hfuel.
  - destruct fuel as [|fuel]; [simpl in Hfuel; lia |].
    rewrite inner_loop_unfold, dictiter_next_at. simpl.
    left. split; [done | apply hit_nil].
  - destruct fuel as [|fuel]; [simpl in Hfuel; lia |].
    rewrite dict_items_cons_Some in Hfuel. simpl in Hfuel.
    rewrite inner_loop_unfold, dictiter_next_at. cbn [scan].
    rewrite Hget, (slots_get_live pre suf k2 b2 Hnd).
    specialize (IH (pre ++ [Some (k2, b2)]) fuel (S j)).
    rewrite <- app_assoc, length_app in IH. simpl in IH.
    replace (length pre + 1)%nat with (S (length pre)) in IH by lia.
    specialize (IH Hnd Hget ltac:(lia)).
    destruct (Nat.leb_spec j i) as [Hji|Hji].
    + destruct IH as [[-> Hno]|(d' & -> & Hused & Hlen & Hhit)].
      * left. split; [done |].
        intros [[Hlt _]|Hhit]%hit_cons_Some; [lia | done].
      * right. exists d'. split; [done |]. split; [done |]. split; [done |].
        apply hit_cons_Some. by right.
    + destruct (is_collision_with b1 b2) eqn:Hcol.
      * destruct (slots_del_set (pre ++ Some (k2, b2) :: suf) k1 k2
                    (merge_with b1 b2) b2) as (d' & -> & Hused & Hlen).
        { by apply slots_get_live. }
        right. exists d'. split; [done |]. split; [done |]. split; [done |].
        apply hit_cons_Some. by left.
      * destruct IH as [[-> Hno]|(d' & -> & Hused & Hlen & Hhit)].
        -- left. split; [done |].
           intros [[_ Hc]|Hhit]%hit_cons_Some; [congruence | done].
        -- right. exists d'. split; [done |]. split; [done |].
           split; [done |]. apply hit_cons_Some. by right.
  - destruct fuel as [|fuel]; [simpl in Hfuel; lia |].
    specialize (IH (pre ++ [None]) (S fuel) j).
    rewrite <- app_assoc, length_app in IH. cbn [app length] in IH.
    replace (length pre + 1)%nat with (S (length pre)) in IH by lia.
    specialize (IH Hnd Hget Hfuel).
    rewrite inner_loop_skip. exact IH.
Qed.

Lemma colliding_pair_from_nil (i : nat) (d : Slots) :
  ~ colliding_pair_from i [] d.
Proof. intros (m & k1 & b1 & Hm & _). by destruct m. Qed.

Lemma colliding_pair_from_cons (i : nat) (k1 : string) (b1 : CelestialBody)
    (suf d : Slots) :
  colliding_pair_from i (Some (k1, b1) :: suf) d
  <-> hit i b1 0 d \/ colliding_pair_from (S i) suf d.
Proof.
  unfold colliding_pair_from. rewrite dict_items_cons_Some. split.
  - intros (m & k & b & Hm & Hhit). destruct m as [|m]; simpl in Hm.
    + injection Hm as -> ->. left. by rewrite Nat.add_0_r in Hhit.
    + right. exists m, k, b. split; [done |].
      by replace (S i + m)%nat with (i + S m)%nat by lia.
  - intros [Hhit|(m & k & b & Hm & Hhit)].
    + exists 0%nat, k1, b1. split; [done |]. by rewrite Nat.add_0_r.
    + exists (S m), k, b. split; [done |].
      by replace (i + S m)%nat with (S i + m)%nat by lia.
Qed.

(** The outer loop, with the slots [pre] behind its iterator and [suf]
    ahead: either no live entry ahead collides with a later one and the loop
    returns with the dict as it was, or the inner loop merges the first
    colliding pair and deletes a key, and the next call of the outer
    iterator raises [RuntimeError]. *)
Lemma outer_loop_scan (suf : Slots) :
  forall (pre : Slots) (fuel : nat),
    NoDup (keys (dict_items (pre ++ suf))) ->
    (length (dict_items suf) < fuel)%nat ->
    (outer_loop fuel (length (dict_items pre))
       (mkIter (ma_used (pre ++ suf)) (length pre)) (pre ++ suf)
     = Finished (pre ++ suf)
     /\ ~ colliding_pair_from (length (dict_items pre)) suf (pre ++ suf))
    \/ (exists d',
          outer_loop fuel (length (dict_items pre))
            (mkIter (ma_used (pre ++ suf)) (length pre)) (pre ++ suf)
          = Raised RuntimeError d'
          /\ S (ma_used d') = ma_used (pre ++ suf)
          /\ length d' = length (pre ++ suf)
          /\ colliding_pair_from (length (dict_items pre)) suf (pre ++ suf)).
Proof.
  induction suf as [|[[k1 b1]|] suf IH]; intros pre fuel Hnd Hfuel.
  - destruct fuel as [|fuel]; [simpl in Hfuel; lia |].
    rewrite outer_loop_unfold, dictiter_next_at. simpl.
    left. split; [done | apply colliding_pair_from_nil].
  - destruct fuel as [|fuel]; [simpl in Hfuel; lia |].
    rewrite dict_items_cons_Some in Hfuel. simpl in Hfuel.
    rewrite outer_loop_unfold, dictiter_next_at. cbn [scan].
    set (d := pre ++ Some (k1, b1) :: suf) in *.
    assert ((pre ++ [Some (k1, b1)]) ++ suf = d) as Hd
      by (unfold d; by rewrite <- app_assoc).
    assert (length (pre ++ [Some (k1, b1)]) = S (length pre)) as Hl
      by (rewrite length_app; simpl; lia).
    assert (length (dict_items (pre ++ [Some (k1, b1)]))
            = S (length (dict_items pre))) as Hi
      by (rewrite dict_items_app, length_app; simpl; lia).
    specialize (IH (pre ++ [Some (k1, b1)]) fuel).
    rewrite Hd, Hl, Hi in IH.
    specialize (IH Hnd ltac:(lia)).
    pose proof (inner_loop_scan (length (dict_items pre)) k1 b1 d []
                  (S (length d)) 0) as Hinner.
    cbn [app length] in Hinner.
    destruct Hinner as [[Hinner Hno]|(d' & Hinner & Hused & Hlen & Hhit)].
    { done. }
    { by apply slots_get_live. }
    { pose proof (dict_items_length d). unfold ma_used in *. lia. }
    + unfold dict_iter. rewrite Hinner.
      destruct IH as [[-> Hnone]|(d' & -> & Hused & Hlen & Hpair)].
      * left. split; [done |].
        intros [Hhit|Hpair]%colliding_pair_from_cons; done.
      * right. exists d'. split; [done |]. split; [done |]. split; [done |].
        apply colliding_pair_from_cons. by right.
    + unfold dict_iter. rewrite Hinner.
      destruct fuel as [|fuel]; [lia |].
      rewrite outer_loop_unfold, dictiter_next_changed by (simpl; lia).
      right. exists d'. split; [done |]. split; [done |]. split; [done |].
      apply colliding_pair_from_cons. by left.
  - destruct fuel as [|fuel]; [simpl in Hfuel; lia |].
    assert ((pre ++ [None]) ++ suf = pre ++ None :: suf) as Hd
      by (by rewrite <- app_assoc).
    assert (length (pre ++ [None]) = S (length pre)) as Hl
      by (rewrite length_app; simpl; lia).
    assert (length (dict_items (pre ++ [None])) = length (dict_items pre))
      as Hi by (rewrite dict_items_app, length_app; simpl; lia).
    specialize (IH (pre ++ [None]) (S fuel)).
    rewrite Hd, Hl, Hi in IH.
    specialize (IH Hnd Hfuel).
    rewrite outer_loop_skip. exact IH.
Qed.

(** The test of the scan: the centres are closer than the sum of the radii;
    it does not depend on the order of the two bodies. *)
Lemma is_collision_with_spec (b1 b2 : CelestialBody) :
  is_collision_with b1 b2 = true
  <-> norm (position b1 -v position b2) < radius b1 + radius b2.
Proof.
  unfold is_collision_with. by destruct (Rlt_dec _ _).
Qed.

Lemma norm_vsub_sym (p q : Vec3) : norm (p -v q) = norm (q -v p).
Proof. unfold norm. vec_simpl. f_equal. ring. Qed.

Lemma is_collision_with_sym (b1 b2 : CelestialBody) :
  is_collision_with b1 b2 = is_collision_with b2 b1.
Proof.
  unfold is_collision_with.
  rewrite (norm_vsub_sym (position b1)), (Rplus_comm (radius b1)).
  done.
Qed.

Lemma overlapping_colliding_pair (d : Slots) :
  overlapping (dict_items d) <-> colliding_pair_from 0 d d.
Proof.
  unfold overlapping, colliding_pair_from, hit. split.
  - intros (i & j & k1 & b1 & k2 & b2 & Hij & Hi & Hj & Hcol).
    exists i, k1, b1. split; [done |]. exists j, k2, b2.
    split; [done |]. split; [lia | done].
  - intros (i & k1 & b1 & Hi & j & k2 & b2 & Hj & Hij & Hcol).
    exists i, j, k1, b1, k2, b2. split; [lia | done].
Qed.

Lemma handle_collisions_scan (self : GravityEngine) (d : Slots) :
  NoDup (keys (dict_items d)) ->
  (handle_collisions self d = Finished d /\ ~ overlapping (dict_items d))
  \/ (exists d',
        handle_collisions self d = Raised RuntimeError d'
        /\ S (ma_used d') = ma_used d
        /\ length d' = length d
        /\ overlapping (dict_items d)).
Proof.
  intros Hnd. unfold handle_collisions, dict_iter.
  pose proof (dict_items_length d) as Hlen. unfold ma_used in Hlen.
  destruct (outer_loop_scan d [] (S (length d)) Hnd ltac:(lia))
    as [[Hrun Hno]|(d' & Hrun & Hused & Hlen' & Hpair)];
    cbn [app length dict_items omap] in *.
  - left. split; [done |]. by rewrite overlapping_colliding_pair.
  - right. exists d'. split; [done |]. split; [done |]. split; [done |].
    by rewrite overlapping_colliding_pair.
Qed.

(** The scan of [handle_collisions] runs within its bound. *)
Lemma handle_collisions_total (self : GravityEngine) (d : Slots) :
  NoDup (keys (dict_items d)) -> handle_collisions self d <> OutOfFuel.
Proof.
  intros Hnd.
  destruct (handle_collisions_scan self d Hnd) as [[-> _]|(d' & -> & _)];
    discriminate.
Qed.

(** Where no two bodies overlap [handle_collisions] returns and leaves the
    collection as it was. *)
Lemma handle_collisions_no_overlap (self : GravityEngine) (d : Slots) :
  NoDup (keys (dict_items d)) ->
  ~ overlapping (dict_items d) ->
  handle_collisions self d = Finished d.
Proof.
  intros Hnd Hno.
  by destruct (handle_collisions_scan self d Hnd)
    as [[-> _]|(d' & _ & _ & _ & Hov)].
Qed.

(** C1 on the code.  In a collection in which two bodies overlap,
    [handle_collisions] merges the first overlapping pair of its scan,
    deletes the key of the second body of the pair and then raises
    [RuntimeError] when the outer loop asks the iterator of the shrunk dict
    for its next key: it does not return. *)
Theorem handle_collisions_raises (self : GravityEngine) (d : Slots) :
  NoDup (keys (dict_items d)) ->
  overlapping (dict_items d) ->
  exists d',
    handle_collisions self d = Raised RuntimeError d'
    /\ S (ma_used d') = ma_used d.
Proof.
  intros Hnd Hov.
  destruct (handle_collisions_scan self d Hnd)
    as [[_ Hno]|(d' & Hrun & Hused & _)]; [done | eauto].
Qed.

(** So does [update_positions], which ends with [handle_collisions], when
    two bodies overlap after the integration. *)
Lemma update_positions_raises (self : GravityEngine) (bodies : Bodies)
    (dt : R) :
  NoDup (keys bodies) ->
  exists bodies1,
    (if use_rk4 self then rk4_integration self bodies dt
     else euler_integration self bodies dt) = Ok bodies1
    /\ (overlapping bodies1 ->
        exists d',
          update_positions self bodies dt = Raised RuntimeError d'
          /\ S (ma_used d') = length bodies)
    /\ (~ overlapping bodies1 ->
        update_positions self bodies dt = Finished (dict_of_bodies bodies1)).
Proof.
  intros Hnd.
  destruct (integration_returns self bodies dt) as (bodies1 & Hint & Hkeys).
  exists bodies1. split; [done |].
  unfold update_positions. rewrite Hint.
  assert (NoDup (keys (dict_items (dict_of_bodies bodies1)))) as Hnd1
    by (by rewrite dict_items_of_bodies, Hkeys).
  split.
  - intros Hov.
    destruct (handle_collisions_scan self (dict_of_bodies bodies1) Hnd1)
      as [[_ Hno]|(d' & Hrun & Hused & _)].
    + by rewrite dict_items_of_bodies in Hno.
    + exists d'. split; [done |].
      unfold ma_used in Hused at 2. rewrite dict_items_of_bodies in Hused.
      assert (length bodies1 = length bodies) as <-; [|done].
      unfold keys in Hkeys.
      by rewrite <- (length_fmap fst bodies1), Hkeys, length_fmap.
  - intros Hno. apply handle_collisions_no_overlap; [done |].
    by rewrite dict_items_of_bodies.
Qed.

Lemma two_bodies_collide :
  is_collision_with (example_body 1 1 zeros zeros)
                    (example_body 1 1 (mkVec3 1 0 0) zeros) = true.
Proof.
  unfold is_collision_with. destruct (Rlt_dec _ _) as [|Hn]; [done |].
  exfalso. apply Hn. unfold norm. vec_simpl.
  replace ((0 - 1) * (0 - 1) + (0 - 0) * (0 - 0) + (0 - 0) * (0 - 0)) with 1
    by lra.
  rewrite sqrt_1. lra.
Qed.

Lemma two_bodies_overlapping : overlapping two_bodies.
Proof.
  exists 0%nat, 1%nat, "a", (example_body 1 1 zeros zeros),
         "b", (example_body 1 1 (mkVec3 1 0 0) zeros).
  split; [lia |]. split; [done |]. split; [done |]. apply two_bodies_collide.
Qed.

Lemma two_bodies_keys : NoDup (keys two_bodies).
Proof.
  apply NoDup_cons. split; [|apply NoDup_singleton].
  intros H%list_elem_of_singleton. discriminate.
Qed.

Lemma handle_collisions_raises_witness :
  exists d',
    handle_collisions GravityEngine_init (dict_of_bodies two_bodies)
    = Raised RuntimeError d'
    /\ S (ma_used d') = ma_used (dict_of_bodies two_bodies).
Proof.
  apply handle_collisions_raises.
  - rewrite dict_items_of_bodies. apply two_bodies_keys.
  - rewrite dict_items_of_bodies. apply two_bodies_overlapping.
Defined.

Lemma handle_collisions_two_bodies :
  handle_collisions GravityEngine_init (dict_of_bodies two_bodies)
  = Raised RuntimeError
      [Some ("a", merge_with (example_body 1 1 zeros zeros)
                             (example_body 1 1 (mkVec3 1 0 0) zeros));
       None].
Proof.
  unfold handle_collisions.
  cbn -[is_collision_with merge_with example_body].
  repeat first
    [ rewrite decide_True by done
    | rewrite decide_False by done
    | rewrite two_bodies_collide
    | progress cbn -[is_collision_with merge_with example_body] ].
  reflexivity.
Qed.

(** ** Construction *)

Lemma example_body_constructed (m r : R) (p v : Vec3) :
  CelestialBody_init "body" "planet" m r p v (1, 1, 1)
  = Ok (example_body m r p v).
Proof. reflexivity. Qed.

(** C4, as the code has it.  Constructing a body never raises: whatever the
    mass and the radius, the constructor returns a body that holds exactly
    the values it was given (nothing is rejected and nothing is clamped),
    with an empty trail and zero force and acceleration. *)
Theorem CelestialBody_init_accepts_everything (n t : string) (m r : R)
    (p v : Vec3) (c : R * R * R) :
  exists b,
    CelestialBody_init n t m r p v c = Ok b
    /\ name b = n /\ type b = t /\ mass b = m /\ radius b = r
    /\ position b = p /\ velocity b = v /\ color b = c
    /\ trail b = [] /\ force b = zeros /\ acceleration b = zeros.
Proof. eexists. split; [reflexivity |]. repeat split. Qed.

(** C4 fails as stated: a body of mass 0 and radius -1 is constructed, no
    exception is raised. *)
Lemma CelestialBody_init_mass_0_radius_neg :
  exists b,
    CelestialBody_init "body" "planet" 0 (-1) zeros zeros (1, 1, 1) = Ok b
    /\ mass b = 0 /\ radius b = -1
    /\ forall e,
         CelestialBody_init "body" "planet" 0 (-1) zeros zeros (1, 1, 1)
         <> Raise e.
Proof. eexists. split; [reflexivity |]. repeat split. intros e. discriminate. Qed.

(** ** Merging *)

Lemma merge_with_position (b1 b2 : CelestialBody) :
  position (merge_with b1 b2)
  = ((mass b1 + mass b2) s* position b1 +v mass b2 s* position b2)
      /s (mass b1 + mass b2).
Proof. reflexivity. Qed.

(** C7.  The body that survives a merge has the velocity
    [(m1*v1 + m2*v2)/(m1+m2)], computed from the masses before the merge,
    and the mass [m1+m2]; so its momentum is the sum of the two momenta. *)
Theorem merge_with_conserves_momentum (b1 b2 : CelestialBody) :
  velocity (merge_with b1 b2)
  = (mass b1 s* velocity b1 +v mass b2 s* velocity b2)
      /s (mass b1 + mass b2)
  /\ mass (merge_with b1 b2) = mass b1 + mass b2
  /\ (mass b1 + mass b2 <> 0 ->
      mass (merge_with b1 b2) s* velocity (merge_with b1 b2)
      = mass b1 s* velocity b1 +v mass b2 s* velocity b2).
Proof.
  split; [reflexivity |]. split; [reflexivity |].
  intros Hm. apply Vec3_eq; vec_simpl; field; exact Hm.
Qed.

Lemma merge_with_conserves_momentum_witness :
  mass (example_body 1 1 zeros (mkVec3 1 0 0))
  + mass (example_body 3 1 (mkVec3 1 0 0) zeros) <> 0
  /\ mass (merge_with (example_body 1 1 zeros (mkVec3 1 0 0))
                      (example_body 3 1 (mkVec3 1 0 0) zeros))
     s* velocity (merge_with (example_body 1 1 zeros (mkVec3 1 0 0))
                             (example_body 3 1 (mkVec3 1 0 0) zeros))
     = mass (example_body 1 1 zeros (mkVec3 1 0 0))
         s* velocity (example_body 1 1 zeros (mkVec3 1 0 0))
       +v mass (example_body 3 1 (mkVec3 1 0 0) zeros)
         s* velocity (example_body 3 1 (mkVec3 1 0 0) zeros).
Proof.
  assert (mass (example_body 1 1 zeros (mkVec3 1 0 0))
          + mass (example_body 3 1 (mkVec3 1 0 0) zeros) <> 0) as Hm
    by (simpl; lra).
  split; [exact Hm |].
  exact (proj2 (proj2 (merge_with_conserves_momentum _ _)) Hm).
Defined.

(** C2 on the code.  [merge_with] assigns the total mass to the survivor
    before it computes the position, so the position it computes weighs the
    survivor by the total mass: for positive masses it is not the centroid
    [(m1*p1 + m2*p2)/(m1+m2)], unless the survivor is at the origin. *)
Theorem merge_with_position_off_centroid (b1 b2 : CelestialBody) :
  0 < mass b1 -> 0 < mass b2 -> position b1 <> zeros ->
  position (merge_with b1 b2)
  <> (mass b1 s* position b1 +v mass b2 s* position b2)
       /s (mass b1 + mass b2).
Proof.
  intros H1 H2 Hp Heq. apply Hp. rewrite merge_with_position in Heq.
  assert (forall x1 x2,
            ((mass b1 + mass b2) * x1 + mass b2 * x2) / (mass b1 + mass b2)
            = (mass b1 * x1 + mass b2 * x2) / (mass b1 + mass b2) ->
            x1 = 0) as Hcomp.
  { intros x1 x2 Hx.
    apply (Rmult_eq_compat_r (mass b1 + mass b2)) in Hx.
    unfold Rdiv in Hx. rewrite !Rmult_assoc, Rinv_l in Hx by lra.
    assert (mass b2 * x1 = 0) as H0 by lra.
    apply Rmult_integral in H0 as [H0|H0]; lra. }
  apply Vec3_eq; simpl.
  - apply (Hcomp _ (vx (position b2))). exact (f_equal vx Heq).
  - apply (Hcomp _ (vy (position b2))). exact (f_equal vy Heq).
  - apply (Hcomp _ (vz (position b2))). exact (f_equal vz Heq).
Qed.

Lemma merge_with_position_off_centroid_witness :
  position (merge_with (example_body 1 1 (mkVec3 1 0 0) zeros)
                       (example_body 1 1 zeros zeros))
  <> (mass (example_body 1 1 (mkVec3 1 0 0) zeros)
        s* position (example_body 1 1 (mkVec3 1 0 0) zeros)
      +v mass (example_body 1 1 zeros zeros)
        s* position (example_body 1 1 zeros zeros))
       /s (mass (example_body 1 1 (mkVec3 1 0 0) zeros)
           + mass (example_body 1 1 zeros zeros)).
Proof.
  apply merge_with_position_off_centroid.
  - simpl. lra.
  - simpl. lra.
  - simpl. unfold zeros. intros H. apply (f_equal vx) in H. simpl in H. lra.
Defined.

(** ** The integrators *)

Lemma euler_body_fields (f : Vec3) (dt : R) (b : CelestialBody) :
  let a := if Rlt_dec 0 (mass b) then f /s mass b else acceleration b in
  let v := velocity b +v a *s dt in
  let p := position b +v v *s dt in
  euler_body f dt b =
    set_trail (set_acceleration (set_velocity (set_position b p) v) a)
      (if (max_trail_length b <? length (trail b ++ [p]))%nat
       then tail (trail b ++ [p]) else trail b ++ [p]).
Proof.
  unfold euler_body. rewrite update_position_fields.
  destruct (Rlt_dec 0 (mass b)); by destruct b.
Qed.

(** C8.  The Euler step returns, and for every body it first adds
    [acceleration * dt] to the velocity and then adds [dt] times that
    already updated velocity to the position (semi-implicit Euler); the
    acceleration it uses is the one it has just stored, force over mass for
    a body of positive mass. *)
Theorem euler_integration_semi_implicit (self : GravityEngine)
    (bodies : Bodies) (dt : R) :
  exists forces bodies',
    calculate_gravitational_forces self bodies = Ok forces
    /\ euler_integration self bodies dt = Ok bodies'
    /\ Forall2
         (fun kb kb' =>
            kb'.1 = kb.1
            /\ exists f,
                 forces !! kb.1 = Some f
                 /\ acceleration kb'.2
                    = (if Rlt_dec 0 (mass kb.2) then f /s mass kb.2
                       else acceleration kb.2)
                 /\ velocity kb'.2
                    = velocity kb.2 +v acceleration kb'.2 *s dt
                 /\ position kb'.2
                    = position kb.2 +v velocity kb'.2 *s dt)
         bodies bodies'.
Proof.
  destruct (euler_integration_returns self bodies dt)
    as (forces & bodies' & Hf & He & Hrel).
  exists forces, bodies'. split; [done |]. split; [done |].
  eapply Forall2_impl; [exact Hrel |].
  intros [k b] [k' b']. unfold euler_updated. simpl.
  intros [-> (f & Hlook & ->)].
  split; [done |]. exists f. split; [done |].
  rewrite euler_body_fields. simpl. done.
Qed.

Lemma moved_same_identity kb kb' : moved kb kb' -> same_identity kb kb'.
Proof.
  intros [Hk (p & v & Hb)]. split; [done |].
  exists p, v, (acceleration kb.2), (trail kb.2). rewrite Hb.
  by destruct (kb.2).
Qed.

Lemma euler_updated_same_identity forces dt kb kb' :
  euler_updated forces dt kb kb' -> same_identity kb kb'.
Proof.
  intros [Hk (f & _ & Hb)]. split; [done |].
  rewrite euler_body_fields in Hb. simpl in Hb. eauto.
Qed.

Lemma same_identity_fields kb kb' :
  same_identity kb kb' ->
  kb'.1 = kb.1
  /\ mass kb'.2 = mass kb.2 /\ radius kb'.2 = radius kb.2
  /\ name kb'.2 = name kb.2 /\ type kb'.2 = type kb.2
  /\ color kb'.2 = color kb.2.
Proof. intros [Hk (p & v & a & t & ->)]. by repeat split. Qed.

(** C10.  Both integration schemes return, with the same keys in the same
    order, and leave the mass, radius, name, type and color of every body
    as they were: the bodies differ from the ones given in position,
    velocity, acceleration and trail at most. *)
Theorem integration_preserves_identity (self : GravityEngine)
    (bodies : Bodies) (dt : R) :
  (exists bodies',
     euler_integration self bodies dt = Ok bodies'
     /\ Forall2 same_identity bodies bodies'
     /\ Forall2 (fun kb kb' =>
                   kb'.1 = kb.1
                   /\ mass kb'.2 = mass kb.2 /\ radius kb'.2 = radius kb.2
                   /\ name kb'.2 = name kb.2 /\ type kb'.2 = type kb.2
                   /\ color kb'.2 = color kb.2) bodies bodies')
  /\ (exists bodies',
        rk4_integration self bodies dt = Ok bodies'
        /\ Forall2 same_identity bodies bodies'
        /\ Forall2 (fun kb kb' =>
                      kb'.1 = kb.1
                      /\ mass kb'.2 = mass kb.2 /\ radius kb'.2 = radius kb.2
                      /\ name kb'.2 = name kb.2 /\ type kb'.2 = type kb.2
                      /\ color kb'.2 = color kb.2) bodies bodies').
Proof.
  split.
  - destruct (euler_integration_returns self bodies dt)
      as (forces & bodies' & _ & He & Hrel).
    exists bodies'. split; [done |].
    assert (Forall2 same_identity bodies bodies') as Hid.
    { eapply Forall2_impl; [exact Hrel |].
      intros kb kb'. apply euler_updated_same_identity. }
    split; [done |].
    eapply Forall2_impl; [exact Hid |]. apply same_identity_fields.
  - destruct (rk4_integration_returns self bodies dt) as (bodies' & Hr & Hrel).
    exists bodies'. split; [done |].
    assert (Forall2 same_identity bodies bodies') as Hid.
    { eapply Forall2_impl; [exact Hrel |]. apply moved_same_identity. }
    split; [done |].
    eapply Forall2_impl; [exact Hid |]. apply same_identity_fields.
Qed.

(** C5 on the code.  The RK4 step returns and leaves the trail of every
    body as it was: it assigns the final position directly and appends
    nothing to the trail, where the Euler step appends the new position
    through [update_position]. *)
Theorem rk4_integration_appends_nothing (self : GravityEngine)
    (bodies : Bodies) (dt : R) :
  exists bodies',
    rk4_integration self bodies dt = Ok bodies'
    /\ Forall2 (fun kb kb' => kb'.1 = kb.1 /\ trail kb'.2 = trail kb.2)
               bodies bodies'.
Proof.
  destruct (rk4_integration_returns self bodies dt) as (bodies' & Hr & Hrel).
  exists bodies'. split; [done |].
  eapply Forall2_impl; [exact Hrel |].
  intros kb kb' [Hk (p & v & ->)]. done.
Qed.

(** The sibling path: the Euler step appends the new position of a body to
    its trail, which therefore ends with it. *)
Lemma euler_integration_appends (self : GravityEngine) (bodies : Bodies)
    (dt : R) :
  exists bodies',
    euler_integration self bodies dt = Ok bodies'
    /\ Forall2 (fun kb kb' =>
                  (length (trail kb.2) < max_trail_length kb.2)%nat ->
                  trail kb'.2 = trail kb.2 ++ [position kb'.2])
               bodies bodies'.
Proof.
  destruct (euler_integration_returns self bodies dt)
    as (forces & bodies' & _ & He & Hrel).
  exists bodies'. split; [done |].
  eapply Forall2_impl; [exact Hrel |].
  intros [k b] [k' b']. unfold euler_updated. simpl.
  intros [_ (f & _ & ->)] Hlen.
  rewrite euler_body_fields. simpl.
  rewrite length_app. simpl.
  destruct (Nat.ltb_spec (max_trail_length b) (length (trail b) + 1));
    [lia | done].
Qed.

(** ** The Runge-Kutta step *)

(** A dict filled key by key holds, for distinct keys, the value last
    stored under each. *)
Lemma foldl_insert_other {A V} (key : A -> string) (val : A -> V)
    (l : list A) (d : gmap string V) (k : string) :
  k ∉ key <$> l ->
  foldl (fun d a => <[key a := val a]> d) d l !! k = d !! k.
Proof.
  revert d. induction l as [|a l IH]; intros d Hk; csimpl in *; [done |].
  apply not_elem_of_cons in Hk as [Hne Hk].
  rewrite IH by done. by rewrite lookup_insert_ne.
Qed.

Lemma foldl_insert_lookup {A V} (key : A -> string) (val : A -> V)
    (l : list A) (d : gmap string V) :
  NoDup (key <$> l) ->
  Forall (fun a => foldl (fun d a => <[key a := val a]> d) d l !! key a
                   = Some (val a)) l.
Proof.
  revert d. induction l as [|a l IH]; intros d Hnd; csimpl in *.
  - constructor.
  - apply NoDup_cons in Hnd as [Hnotin Hnd]. constructor.
    + rewrite foldl_insert_other by done. by rewrite lookup_insert_eq.
    + by apply IH.
Qed.

Lemma foldl_same {A B} (f g : B -> A -> B) (l : list A) (b : B) :
  (forall b a, f b a = g b a) -> foldl f b l = foldl g b l.
Proof.
  intros Hfg. revert b. induction l as [|a l IH]; intros b; simpl; [done |].
  by rewrite Hfg, IH.
Qed.

Lemma dict_of_items_lookup {V} (f : CelestialBody -> V) (bodies : Bodies) :
  NoDup (keys bodies) ->
  Forall (fun kb => dict_of_items f bodies !! kb.1 = Some (f kb.2)) bodies.
Proof.
  intros Hnd. unfold dict_of_items.
  rewrite (foldl_same _ (fun d a => <[a.1 := f a.2]> d)) by (by intros d [k b]).
  by apply (foldl_insert_lookup fst (fun a => f a.2)).
Qed.

Lemma forM_Ok_inv {A B} (f : A -> result B) (x : A) (l : list A)
    (ys : list B) :
  forM f (x :: l) = Ok ys ->
  exists y ys', f x = Ok y /\ forM f l = Ok ys' /\ ys = y :: ys'.
Proof.
  simpl. intros H.
  apply bind_Ok_inv in H as (y & Hy & H).
  apply bind_Ok_inv in H as (ys' & Hys' & H).
  injection H as <-. eauto.
Qed.

Lemma dict_get_Ok_inv {V} (d : gmap string V) k v :
  dict_get d k = Ok v -> d !! k = Some v.
Proof. unfold dict_get. destruct (d !! k); [congruence | discriminate]. Qed.

(** The loop of [_rk4_step] fills the two dicts with the derivative, key by
    key. *)
Lemma rk4_step_loop (forces : gmap string Vec3) (state : Bodies) :
  forall (k : list (Vec3 * Vec3)) (positions velocities : gmap string Vec3),
    NoDup (keys state) ->
    Forall (fun kb => 0 < mass kb.2) state ->
    forM (fun '(key, body) =>
            f ← dict_get forces key;
            Ok (velocity body, f /s mass body))
         state = Ok k ->
    exists k_pos k_vel,
      foldM (fun '(positions, velocities) '(body_key, body) =>
               acceleration ←
                 (if Rlt_dec 0 (mass body)
                  then f ← dict_get forces body_key; Ok (f /s mass body)
                  else Ok zeros);
               Ok (<[body_key := velocity body]> positions,
                   <[body_key := acceleration]> velocities))
            state (positions, velocities) = Ok (k_pos, k_vel)
      /\ tabulates k_pos state k.*1
      /\ tabulates k_vel state k.*2
      /\ (forall key, key ∉ keys state ->
            k_pos !! key = positions !! key
            /\ k_vel !! key = velocities !! key).
Proof.
  unfold tabulates.
  induction state as [|[key body] state IH];
    intros k positions velocities Hnd Hmass Hk.
  - injection Hk as <-. exists positions, velocities. simpl.
    split; [done |]. split; [constructor |]. split; [constructor | done].
  - apply forM_Ok_inv in Hk as (d & k' & Hd & Hk' & ->).
    apply bind_Ok_inv in Hd as (f & Hf & Hd). injection Hd as <-.
    unfold keys in Hnd. csimpl in Hnd.
    apply NoDup_cons in Hnd as [Hnotin Hnd].
    apply Forall_cons in Hmass as [Hm Hmass]. simpl in Hm.
    cbn [foldM]. rewrite Hf, bind_Ok.
    destruct (Rlt_dec 0 (mass body)) as [_|Hn]; [|done].
    rewrite !bind_Ok.
    destruct (IH k' (<[key := velocity body]> positions)
                 (<[key := f /s mass body]> velocities) Hnd Hmass Hk')
      as (k_pos & k_vel & -> & Hp & Hv & Hframe).
    exists k_pos, k_vel. split; [done |].
    destruct (Hframe key Hnotin) as [Hkp Hkv].
    rewrite lookup_insert_eq in Hkp, Hkv.
    split; [by constructor |]. split; [by constructor |].
    intros key' Hkey'. unfold keys in Hkey'. csimpl in Hkey'.
    apply not_elem_of_cons in Hkey' as [Hne Hkey'].
    destruct (Hframe key' Hkey') as [-> ->].
    by rewrite !lookup_insert_ne.
Qed.

Section runge_kutta.
Context (self : GravityEngine) (dt : R).

Lemma rk4_step_derivative (state : Bodies) (t : R)
    (k : list (Vec3 * Vec3)) :
  NoDup (keys state) ->
  Forall (fun kb => 0 < mass kb.2) state ->
  stage_derivative self state = Ok k ->
  exists k_pos k_vel,
    _rk4_step self state dt t = Ok (k_pos, k_vel)
    /\ tabulates k_pos state k.*1
    /\ tabulates k_vel state k.*2.
Proof.
  intros Hnd Hmass Hk. unfold stage_derivative in Hk. unfold _rk4_step.
  apply bind_Ok_inv in Hk as (forces & -> & Hk). rewrite bind_Ok.
  destruct (rk4_step_loop forces state k ∅ ∅ Hnd Hmass Hk)
    as (k_pos & k_vel & Hrun & Hp & Hv & _).
  eauto.
Qed.

Lemma stage_derivative_returns (state : Bodies) :
  exists k, stage_derivative self state = Ok k /\ length k = length state.
Proof.
  unfold stage_derivative.
  destruct (calculate_gravitational_forces_returns self state)
    as (forces & -> & Hforces).
  rewrite bind_Ok.
  match goal with |- context [forM ?loop state] =>
    destruct (forM_Forall2 (fun _ _ => True) loop state) as (k & -> & Hk)
  end.
  - intros [key body] Hin.
    destruct (has_keys_lookup forces state key body Hforces Hin) as [f Hf].
    rewrite (dict_get_Some _ _ _ Hf), bind_Ok. eauto.
  - exists k. split; [done |]. symmetry. by eapply Forall2_length.
Qed.

Lemma moved_assign (b0 b : CelestialBody) (p v p' v' : Vec3) :
  b = set_velocity (set_position b0 p) v ->
  set_velocity (set_position b p') v' = set_velocity (set_position b0 p') v'.
Proof. intros ->. by destruct b0. Qed.

(** An assignment loop of [rk4_integration] between two stages: whatever
    the positions and velocities of the bodies when it starts, it leaves
    the initial state advanced by [h] times the derivative it reads. *)
Lemma stage_loop (updp updv : Vec3 -> Vec3 -> Vec3) (h : R)
    (initial_positions initial_velocities k_pos k_vel : gmap string Vec3)
    (state0 : Bodies) :
  (forall p d, updp p d = p +v h s* d) ->
  (forall v d, updv v d = v +v h s* d) ->
  forall (bodies : Bodies) (k : list (Vec3 * Vec3)),
    Forall2 moved state0 bodies ->
    Forall (fun kb => initial_positions !! kb.1 = Some (position kb.2))
           state0 ->
    Forall (fun kb => initial_velocities !! kb.1 = Some (velocity kb.2))
           state0 ->
    tabulates k_pos state0 k.*1 ->
    tabulates k_vel state0 k.*2 ->
    forM (fun '(body_key, body) =>
            p0 ← dict_get initial_positions body_key;
            kp ← dict_get k_pos body_key;
            let body := set_position body (updp p0 kp) in
            v0 ← dict_get initial_velocities body_key;
            kv ← dict_get k_vel body_key;
            let body := set_velocity body (updv v0 kv) in
            Ok (body_key, body)) bodies
    = Ok (advance state0 h k).
Proof.
  intros Hupdp Hupdv. unfold tabulates, advance.
  induction state0 as [|[key b0] state0 IH];
    intros bodies k Hmoved Hip Hiv Hkp Hkv.
  - apply Forall2_nil_inv_l in Hmoved as ->. done.
  - apply Forall2_cons_inv_l in Hmoved
      as ([key' b] & bodies' & [Hkey (p & v & Hb)] & Hmoved & ->).
    simpl in Hkey, Hb. subst key'.
    destruct k as [|[dp dv] k]; [by apply Forall2_cons_inv_l in Hkp
                                   as (? & ? & _ & _ & ?) |].
    csimpl in Hkp. csimpl in Hkv.
    apply Forall2_cons in Hkp as [Hkp0 Hkp].
    apply Forall2_cons in Hkv as [Hkv0 Hkv].
    apply Forall_cons in Hip as [Hip0 Hip].
    apply Forall_cons in Hiv as [Hiv0 Hiv].
    simpl in Hkp0, Hkv0, Hip0, Hiv0.
    cbn [forM].
    rewrite (dict_get_Some _ _ _ Hip0), (dict_get_Some _ _ _ Hkp0),
      (dict_get_Some _ _ _ Hiv0), (dict_get_Some _ _ _ Hkv0), !bind_Ok.
    rewrite (IH bodies' k) by done. rewrite bind_Ok. csimpl.
    by rewrite (moved_assign b0 b p v _ _ Hb), Hupdp, Hupdv.
Qed.

Lemma weighted_increment (x s : Vec3) (h : R) :
  x +v s *s h /s 6 = x +v h / 6 s* s.
Proof. apply Vec3_eq; vec_simpl; field. Qed.

Lemma half_increment (x s : Vec3) (h : R) :
  x +v 0.5 s* s *s h = x +v (0.5 * h) s* s.
Proof. apply Vec3_eq; vec_simpl; ring. Qed.

Lemma full_increment (x s : Vec3) (h : R) : x +v s *s h = x +v h s* s.
Proof. apply Vec3_eq; vec_simpl; ring. Qed.

(** The last assignment loop of [rk4_integration]. *)
Lemma final_loop
    (initial_positions initial_velocities : gmap string Vec3)
    (k1_pos k1_vel k2_pos k2_vel k3_pos k3_vel k4_pos k4_vel
       : gmap string Vec3)
    (state0 : Bodies) :
  forall (bodies : Bodies) (k1 k2 k3 k4 : list (Vec3 * Vec3)),
    Forall2 moved state0 bodies ->
    Forall (fun kb => initial_positions !! kb.1 = Some (position kb.2))
           state0 ->
    Forall (fun kb => initial_velocities !! kb.1 = Some (velocity kb.2))
           state0 ->
    tabulates k1_pos state0 k1.*1 -> tabulates k1_vel state0 k1.*2 ->
    tabulates k2_pos state0 k2.*1 -> tabulates k2_vel state0 k2.*2 ->
    tabulates k3_pos state0 k3.*1 -> tabulates k3_vel state0 k3.*2 ->
    tabulates k4_pos state0 k4.*1 -> tabulates k4_vel state0 k4.*2 ->
    forM (fun '(body_key, body) =>
            p0 ← dict_get initial_positions body_key;
            k1p ← dict_get k1_pos body_key;
            k2p ← dict_get k2_pos body_key;
            k3p ← dict_get k3_pos body_key;
            k4p ← dict_get k4_pos body_key;
            let body := set_position body
              (p0 +v (k1p +v 2 s* k2p +v 2 s* k3p +v k4p) *s dt /s 6) in
            v0 ← dict_get initial_velocities body_key;
            k1v ← dict_get k1_vel body_key;
            k2v ← dict_get k2_vel body_key;
            k3v ← dict_get k3_vel body_key;
            k4v ← dict_get k4_vel body_key;
            let body := set_velocity body
              (v0 +v (k1v +v 2 s* k2v +v 2 s* k3v +v k4v) *s dt /s 6) in
            Ok (body_key, body)) bodies
    = Ok (rk4_combine state0 dt k1 k2 k3 k4).
Proof.
  unfold tabulates, rk4_combine.
  induction state0 as [|[key b0] state0 IH];
    intros bodies k1 k2 k3 k4 Hmoved Hip Hiv H1p H1v H2p H2v H3p H3v H4p H4v.
  - apply Forall2_nil_inv_l in Hmoved as ->. done.
  - apply Forall2_cons_inv_l in Hmoved
      as ([key' b] & bodies' & [Hkey (p & v & Hb)] & Hmoved & ->).
    simpl in Hkey, Hb. subst key'.
    destruct k1 as [|[d1p d1v] k1]; [by apply Forall2_cons_inv_l in H1p
                                       as (? & ? & _ & _ & ?) |].
    destruct k2 as [|[d2p d2v] k2]; [by apply Forall2_cons_inv_l in H2p
                                       as (? & ? & _ & _ & ?) |].
    destruct k3 as [|[d3p d3v] k3]; [by apply Forall2_cons_inv_l in H3p
                                       as (? & ? & _ & _ & ?) |].
    destruct k4 as [|[d4p d4v] k4]; [by apply Forall2_cons_inv_l in H4p
                                       as (? & ? & _ & _ & ?) |].
    csimpl in H1p. csimpl in H1v. csimpl in H2p. csimpl in H2v.
    csimpl in H3p. csimpl in H3v. csimpl in H4p. csimpl in H4v.
    apply Forall2_cons in H1p as [H1p0 H1p], H1v as [H1v0 H1v].
    apply Forall2_cons in H2p as [H2p0 H2p], H2v as [H2v0 H2v].
    apply Forall2_cons in H3p as [H3p0 H3p], H3v as [H3v0 H3v].
    apply Forall2_cons in H4p as [H4p0 H4p], H4v as [H4v0 H4v].
    apply Forall_cons in Hip as [Hip0 Hip].
    apply Forall_cons in Hiv as [Hiv0 Hiv].
    simpl in *.
    rewrite (dict_get_Some _ _ _ Hip0), (dict_get_Some _ _ _ Hiv0),
      (dict_get_Some _ _ _ H1p0), (dict_get_Some _ _ _ H1v0),
      (dict_get_Some _ _ _ H2p0), (dict_get_Some _ _ _ H2v0),
      (dict_get_Some _ _ _ H3p0), (dict_get_Some _ _ _ H3v0),
      (dict_get_Some _ _ _ H4p0), (dict_get_Some _ _ _ H4v0), !bind_Ok.
    rewrite (IH bodies' k1 k2 k3 k4) by done. rewrite bind_Ok.
    rewrite (moved_assign b0 b p v _ _ Hb).
    by rewrite !weighted_increment.
Qed.

Lemma moved_refl (bodies : Bodies) : Forall2 moved bodies bodies.
Proof.
  apply Forall_Forall2_diag, Forall_forall. intros [k b] _.
  split; [done |]. exists (position b), (velocity b). by destruct b.
Qed.

Lemma advance_moved (state0 : Bodies) (h : R) (k : list (Vec3 * Vec3)) :
  length k = length state0 -> Forall2 moved state0 (advance state0 h k).
Proof.
  unfold advance. revert k.
  induction state0 as [|[key b0] state0 IH]; intros [|[dp dv] k] Hlen;
    simpl in Hlen; try lia; csimpl; constructor.
  - split; [done |]. simpl. eauto.
  - apply IH. lia.
Qed.

Lemma moved_keys (state0 bodies : Bodies) :
  Forall2 moved state0 bodies -> keys bodies = keys state0.
Proof. apply Forall2_same_keys. by intros x y [? _]. Qed.

Lemma moved_masses (state0 bodies : Bodies) :
  Forall2 moved state0 bodies ->
  Forall (fun kb => 0 < mass kb.2) state0 ->
  Forall (fun kb => 0 < mass kb.2) bodies.
Proof.
  induction 1 as [|x y l l' [_ (p & v & Hy)] _ IH]; intros Hall.
  - constructor.
  - apply Forall_cons in Hall as [Hx Hl]. constructor; [|by apply IH].
    by rewrite Hy.
Qed.

Lemma tabulates_moved {V} (d : gmap string V) (state0 bodies : Bodies)
    (vals : list V) :
  Forall2 moved state0 bodies ->
  tabulates d bodies vals -> tabulates d state0 vals.
Proof.
  unfold tabulates. apply Forall2_trans.
  intros x y z [Hk _] Hy. by rewrite <- Hk.
Qed.

(** C6.  For a collection with distinct keys and positive masses the RK4
    step returns the initial state advanced by
    [dt/6 * (k1 + 2*k2 + 2*k3 + k4)], where [k1] is the derivative of the
    initial state, [k2] of the initial state advanced by [0.5*dt*k1], [k3]
    of the initial state advanced by [0.5*dt*k2] and [k4] of the initial
    state advanced by [dt*k3]: every stage starts again from the initial
    positions and velocities, and the derivative of a state gives, for each
    body, its velocity and the force on it over its mass. *)
Theorem rk4_integration_classical (bodies : Bodies) :
  NoDup (keys bodies) ->
  Forall (fun kb => 0 < mass kb.2) bodies ->
  exists k1 k2 k3 k4 : list (Vec3 * Vec3),
    stage_derivative self bodies = Ok k1
    /\ stage_derivative self (advance bodies (0.5 * dt) k1) = Ok k2
    /\ stage_derivative self (advance bodies (0.5 * dt) k2) = Ok k3
    /\ stage_derivative self (advance bodies dt k3) = Ok k4
    /\ rk4_integration self bodies dt
       = Ok (rk4_combine bodies dt k1 k2 k3 k4).
Proof.
  intros Hnd Hmass.
  (* the four derivatives *)
  destruct (stage_derivative_returns bodies) as (k1 & Hk1 & Hlen1).
  pose proof (advance_moved bodies (0.5 * dt) k1 Hlen1) as Hm1.
  set (bodies1 := advance bodies (0.5 * dt) k1) in *.
  destruct (stage_derivative_returns bodies1) as (k2 & Hk2 & Hlen2).
  rewrite <- (Forall2_length _ _ _ Hm1) in Hlen2.
  pose proof (advance_moved bodies (0.5 * dt) k2 Hlen2) as Hm2.
  set (bodies2 := advance bodies (0.5 * dt) k2) in *.
  destruct (stage_derivative_returns bodies2) as (k3 & Hk3 & Hlen3).
  rewrite <- (Forall2_length _ _ _ Hm2) in Hlen3.
  pose proof (advance_moved bodies dt k3 Hlen3) as Hm3.
  set (bodies3 := advance bodies dt k3) in *.
  destruct (stage_derivative_returns bodies3) as (k4 & Hk4 & Hlen4).
  exists k1, k2, k3, k4. do 4 (split; [done |]).
  (* the dicts the source keeps them in *)
  assert (forall state k (t : R),
            Forall2 moved bodies state ->
            stage_derivative self state = Ok k ->
            exists k_pos k_vel,
              _rk4_step self state dt t = Ok (k_pos, k_vel)
              /\ tabulates k_pos bodies k.*1
              /\ tabulates k_vel bodies k.*2) as Hstep.
  { intros state k t Hm Hk.
    destruct (rk4_step_derivative state t k)
      as (k_pos & k_vel & Hrun & Hp & Hv).
    - by rewrite (moved_keys bodies state).
    - by apply (moved_masses bodies).
    - done.
    - exists k_pos, k_vel. split; [done |].
      split; by apply (tabulates_moved _ bodies state). }
  unfold rk4_integration.
  pose proof (dict_of_items_lookup position bodies Hnd) as Hip.
  pose proof (dict_of_items_lookup velocity bodies Hnd) as Hiv.
  set (initial_positions := dict_of_items position bodies) in *.
  set (initial_velocities := dict_of_items velocity bodies) in *.
  destruct (Hstep bodies k1 0 (moved_refl bodies) Hk1)
    as (k1_pos & k1_vel & -> & H1p & H1v).
  rewrite bind_Ok. cbv beta iota.
  match goal with |- context [forM ?loop bodies] =>
    assert (forM loop bodies = Ok bodies1) as ->
  end.
  { apply (stage_loop (fun p0 kp => p0 +v 0.5 s* kp *s dt)
                      (fun v0 kv => v0 +v 0.5 s* kv *s dt));
      auto using half_increment, moved_refl. }
  rewrite bind_Ok.
  destruct (Hstep bodies1 k2 (0.5 * dt) Hm1 Hk2)
    as (k2_pos & k2_vel & -> & H2p & H2v).
  rewrite bind_Ok. cbv beta iota.
  match goal with |- context [forM ?loop bodies1] =>
    assert (forM loop bodies1 = Ok bodies2) as ->
  end.
  { apply (stage_loop (fun p0 kp => p0 +v 0.5 s* kp *s dt)
                      (fun v0 kv => v0 +v 0.5 s* kv *s dt));
      auto using half_increment. }
  rewrite bind_Ok.
  destruct (Hstep bodies2 k3 (0.5 * dt) Hm2 Hk3)
    as (k3_pos & k3_vel & -> & H3p & H3v).
  rewrite bind_Ok. cbv beta iota.
  match goal with |- context [forM ?loop bodies2] =>
    assert (forM loop bodies2 = Ok bodies3) as ->
  end.
  { apply (stage_loop (fun p0 kp => p0 +v kp *s dt)
                      (fun v0 kv => v0 +v kv *s dt));
      auto using full_increment. }
  rewrite bind_Ok.
  destruct (Hstep bodies3 k4 dt Hm3 Hk4)
    as (k4_pos & k4_vel & -> & H4p & H4v).
  rewrite bind_Ok. cbv beta iota.
  by apply final_loop.
Qed.

End runge_kutta.

Lemma two_bodies_masses : Forall (fun kb => 0 < mass kb.2) two_bodies.
Proof. repeat constructor; simpl; lra. Qed.

Lemma rk4_integration_classical_witness :
  exists k1 k2 k3 k4 : list (Vec3 * Vec3),
    stage_derivative GravityEngine_init two_bodies = Ok k1
    /\ stage_derivative GravityEngine_init (advance two_bodies (0.5 * 1) k1)
       = Ok k2
    /\ stage_derivative GravityEngine_init (advance two_bodies (0.5 * 1) k2)
       = Ok k3
    /\ stage_derivative GravityEngine_init (advance two_bodies 1 k3) = Ok k4
    /\ rk4_integration GravityEngine_init two_bodies 1
       = Ok (rk4_combine two_bodies 1 k1 k2 k3 k4).
Proof.
  apply rk4_integration_classical.
  - apply two_bodies_keys.
  - apply two_bodies_masses.
Defined.

(** * Class OrbitalMechanics *)

Lemma checked_bind_Returns {A B} (a : A) (k : A -> checked B) :
  (Returns a ≫= k) = k a.
Proof. reflexivity. Qed.

Lemma checked_bind_Fails {A B} (e : math_exn) (k : A -> checked B) :
  (Fails e ≫= k) = Fails e.
Proof. reflexivity. Qed.

Lemma float_div_nonzero (x y : R) : y <> 0 -> float_div x y = Returns (x / y).
Proof. intros Hy. unfold float_div. by destruct (Req_dec_T y 0). Qed.

Lemma float_div_zero (x : R) : float_div x 0 = Fails ZeroDivisionError.
Proof. unfold float_div. by destruct (Req_dec_T 0 0). Qed.

Lemma math_sqrt_nonneg (x : R) : 0 <= x -> math_sqrt x = Returns (sqrt x).
Proof. intros Hx. unfold math_sqrt. destruct (Rlt_dec x 0); [lra | done]. Qed.

Lemma math_sqrt_negative (x : R) : x < 0 -> math_sqrt x = Fails ValueError.
Proof. intros Hx. unfold math_sqrt. destruct (Rlt_dec x 0); [done | lra]. Qed.

Lemma float_pow_int_returns (x : R) (n : nat) :
  Rabs (x ^ n) <= float_max -> float_pow_int x n = Returns (x ^ n).
Proof.
  intros Hx. unfold float_pow_int. destruct (Rlt_dec _ _); [lra | done].
Qed.

Lemma float_pow_int_overflow (x : R) (n : nat) :
  float_max < Rabs (x ^ n) -> float_pow_int x n = Fails OverflowError.
Proof.
  intros Hx. unfold float_pow_int. destruct (Rlt_dec _ _); [done | lra].
Qed.

Lemma G_positive : 0 < 6.67430e-11.
Proof. lra. Qed.

Lemma float_max_positive : 1 < float_max.
Proof. unfold float_max. lra. Qed.

(** X1.  The circular orbital velocity, case by case: at radius zero the
    division raises [ZeroDivisionError]; where [G*M/r] is negative (mass and
    radius of opposite signs) [math.sqrt] raises [ValueError]; otherwise the
    call returns [sqrt (G*M/r)], which is not negative and whose square is
    [G*M/r]. *)
Theorem calculate_orbital_velocity_cases (central_mass orbital_radius : R) :
  (orbital_radius = 0 ->
   calculate_orbital_velocity central_mass orbital_radius
   = Fails ZeroDivisionError)
  /\ (orbital_radius <> 0 ->
      6.67430e-11 * central_mass / orbital_radius < 0 ->
      calculate_orbital_velocity central_mass orbital_radius
      = Fails ValueError)
  /\ (orbital_radius <> 0 ->
      0 <= 6.67430e-11 * central_mass / orbital_radius ->
      exists v,
        calculate_orbital_velocity central_mass orbital_radius = Returns v
        /\ 0 <= v
        /\ v * v = 6.67430e-11 * central_mass / orbital_radius).
Proof.
  unfold calculate_orbital_velocity. split; [|split].
  - intros ->. by rewrite float_div_zero.
  - intros Hr Hq.
    rewrite float_div_nonzero, checked_bind_Returns by done.
    by apply math_sqrt_negative.
  - intros Hr Hq.
    rewrite float_div_nonzero, checked_bind_Returns by done.
    rewrite math_sqrt_nonneg by done.
    eexists. split; [done |]. split; [apply sqrt_pos | by apply sqrt_sqrt].
Qed.

Lemma calculate_orbital_velocity_cases_witness :
  calculate_orbital_velocity 1 0 = Fails ZeroDivisionError
  /\ calculate_orbital_velocity (-1) 1 = Fails ValueError
  /\ exists v,
       calculate_orbital_velocity 1 1 = Returns v
       /\ 0 <= v /\ v * v = 6.67430e-11 * 1 / 1.
Proof.
  split; [|split].
  - by apply (proj1 (calculate_orbital_velocity_cases 1 0)).
  - apply (proj1 (proj2 (calculate_orbital_velocity_cases (-1) 1))); lra.
  - apply (proj2 (proj2 (calculate_orbital_velocity_cases 1 1))); lra.
Defined.

(** X2.  The escape velocity is the square root of 2 times the circular
    velocity at the same mass and distance whenever the latter is computed,
    and the two calls raise the same exception otherwise. *)
Theorem calculate_escape_velocity_sqrt2 (central_mass distance : R) :
  calculate_escape_velocity central_mass distance
  = match calculate_orbital_velocity central_mass distance with
    | Returns v => Returns (sqrt 2 * v)
    | Fails e => Fails e
    end.
Proof.
  unfold calculate_escape_velocity, calculate_orbital_velocity.
  destruct (Req_dec_T distance 0) as [->|Hd].
  - by rewrite !float_div_zero.
  - rewrite !float_div_nonzero, !checked_bind_Returns by done.
    replace (2 * 6.67430e-11 * central_mass / distance)
      with (2 * (6.67430e-11 * central_mass / distance)) by (field; done).
    set (q := 6.67430e-11 * central_mass / distance).
    destruct (Rlt_dec q 0) as [Hq|Hq].
    + rewrite !math_sqrt_negative by lra. done.
    + rewrite !math_sqrt_nonneg by lra.
      rewrite sqrt_mult by lra. done.
Qed.

(** X3.  On a circular orbit of radius [r > 0] around a mass [M > 0], where
    the cube of the radius is a float (so that the period's [r ** 3] does
    not raise [OverflowError]), the velocity and the period that the two
    functions compute go once round the circle: [v * T = 2*pi*r].  Where
    the cube is too large for a float the velocity is still computed and
    the period raises [OverflowError]. *)
Theorem orbital_velocity_times_period (central_mass r : R) :
  0 < central_mass -> 0 < r ->
  (r ^ 3 <= float_max ->
   exists v T,
     calculate_orbital_velocity central_mass r = Returns v
     /\ calculate_orbital_period central_mass r = Returns T
     /\ v * T = 2 * PI * r)
  /\ (float_max < r ^ 3 ->
      (exists v, calculate_orbital_velocity central_mass r = Returns v)
      /\ calculate_orbital_period central_mass r = Fails OverflowError).
Proof.
  intros HM Hr. pose proof G_positive as HG.
  unfold calculate_orbital_velocity, calculate_orbital_period.
  assert (0 < 6.67430e-11 * central_mass) as HGM by nra.
  assert (0 < 6.67430e-11 * central_mass / r) as Hq
    by (by apply Rdiv_lt_0_compat).
  assert (0 < r ^ 3) as Hr3 by (by apply pow_lt).
  assert (0 < r ^ 3 / (6.67430e-11 * central_mass)) as Hp
    by (by apply Rdiv_lt_0_compat).
  rewrite !float_div_nonzero, !checked_bind_Returns by lra.
  rewrite math_sqrt_nonneg by lra.
  split.
  - intros Hfloat.
    rewrite float_pow_int_returns, checked_bind_Returns
      by (rewrite Rabs_right; lra).
    rewrite float_div_nonzero, checked_bind_Returns by lra.
    rewrite math_sqrt_nonneg, checked_bind_Returns by lra.
    eexists _, _. split; [done |]. split; [done |].
    replace (sqrt (6.67430e-11 * central_mass / r)
             * (2 * PI * sqrt (r ^ 3 / (6.67430e-11 * central_mass))))
      with (2 * PI * (sqrt (6.67430e-11 * central_mass / r)
                      * sqrt (r ^ 3 / (6.67430e-11 * central_mass))))
      by ring.
    rewrite <- sqrt_mult by lra.
    replace (6.67430e-11 * central_mass / r
             * (r ^ 3 / (6.67430e-11 * central_mass)))
      with (r * r) by (field; lra).
    rewrite sqrt_square by lra. done.
  - intros Hover. split; [eauto |].
    by rewrite float_pow_int_overflow by (rewrite Rabs_right; lra).
Qed.

Lemma orbital_velocity_times_period_witness :
  (exists v T,
     calculate_orbital_velocity 1 1 = Returns v
     /\ calculate_orbital_period 1 1 = Returns T
     /\ v * T = 2 * PI * 1)
  /\ calculate_orbital_period 1 1e200 = Fails OverflowError.
Proof.
  split.
  - apply (proj1 (orbital_velocity_times_period 1 1 ltac:(lra) ltac:(lra))).
    unfold float_max. lra.
  - apply (proj2 (orbital_velocity_times_period 1 1e200
                    ltac:(lra) ltac:(lra))).
    unfold float_max. lra.
Defined.

(** X4.  Kepler's third law and the errors of the period, in the order in
    which the call meets them: a semi-major axis whose cube is too large
    for a float raises [OverflowError], whatever the mass; otherwise a
    central mass of zero raises [ZeroDivisionError] and a negative
    [a^3/(G*M)] raises [ValueError]; for a positive mass and a semi-major
    axis that is not negative, with a cube that is a float, the call
    returns a period [T >= 0] with [T^2 * G*M = 4*pi^2 * a^3]. *)
Theorem calculate_orbital_period_kepler (central_mass semi_major_axis : R) :
  (float_max < Rabs (semi_major_axis ^ 3) ->
   calculate_orbital_period central_mass semi_major_axis
   = Fails OverflowError)
  /\ (Rabs (semi_major_axis ^ 3) <= float_max ->
      central_mass = 0 ->
      calculate_orbital_period central_mass semi_major_axis
      = Fails ZeroDivisionError)
  /\ (Rabs (semi_major_axis ^ 3) <= float_max ->
      central_mass <> 0 ->
      semi_major_axis ^ 3 / (6.67430e-11 * central_mass) < 0 ->
      calculate_orbital_period central_mass semi_major_axis
      = Fails ValueError)
  /\ (0 < central_mass -> 0 <= semi_major_axis ->
      semi_major_axis ^ 3 <= float_max ->
      exists T,
        calculate_orbital_period central_mass semi_major_axis = Returns T
        /\ 0 <= T
        /\ T * T * (6.67430e-11 * central_mass)
           = 4 * (PI * PI) * semi_major_axis ^ 3).
Proof.
  pose proof G_positive as HG. unfold calculate_orbital_period.
  split; [|split; [|split]].
  - intros Hover. by rewrite float_pow_int_overflow.
  - intros Hfloat ->.
    rewrite float_pow_int_returns, checked_bind_Returns by done.
    rewrite Rmult_0_r. by rewrite float_div_zero.
  - intros Hfloat HM Hq.
    rewrite float_pow_int_returns, checked_bind_Returns by done.
    rewrite float_div_nonzero, checked_bind_Returns by nra.
    by rewrite math_sqrt_negative.
  - intros HM Ha Hfloat.
    assert (0 < 6.67430e-11 * central_mass) as HGM by nra.
    assert (0 <= semi_major_axis ^ 3) as Ha3 by (by apply pow_le).
    assert (0 <= semi_major_axis ^ 3 / (6.67430e-11 * central_mass)) as Hq.
    { apply Rmult_le_pos; [done |]. left. by apply Rinv_0_lt_compat. }
    rewrite float_pow_int_returns, checked_bind_Returns
      by (rewrite Rabs_right; lra).
    rewrite float_div_nonzero, checked_bind_Returns by lra.
    rewrite math_sqrt_nonneg, checked_bind_Returns by done.
    eexists. split; [done |]. pose proof PI_RGT_0 as Hpi. split.
    + apply Rmult_le_pos; [lra | apply sqrt_pos].
    + set (s := sqrt _).
      assert (s * s = semi_major_axis ^ 3 / (6.67430e-11 * central_mass))
        as Hs by (by apply sqrt_sqrt).
      replace (2 * PI * s * (2 * PI * s) * (6.67430e-11 * central_mass))
        with (4 * (PI * PI) * (s * s) * (6.67430e-11 * central_mass)) by ring.
      rewrite Hs. field. lra.
Qed.

Lemma calculate_orbital_period_kepler_witness :
  calculate_orbital_period 1 1e200 = Fails OverflowError
  /\ calculate_orbital_period 0 1 = Fails ZeroDivisionError
  /\ calculate_orbital_period 1 (-1) = Fails ValueError
  /\ exists T,
       calculate_orbital_period 1 1 = Returns T
       /\ 0 <= T /\ T * T * (6.67430e-11 * 1) = 4 * (PI * PI) * 1 ^ 3.
Proof.
  split; [|split; [|split]].
  - apply (proj1 (calculate_orbital_period_kepler 1 1e200)).
    rewrite Rabs_right; unfold float_max; lra.
  - apply (proj1 (proj2 (calculate_orbital_period_kepler 0 1))); [|done].
    rewrite Rabs_right; unfold float_max; lra.
  - apply (proj1 (proj2 (proj2 (calculate_orbital_period_kepler 1 (-1))))).
    + rewrite Rabs_left; unfold float_max; lra.
    + lra.
    + replace ((-1) ^ 3 / (6.67430e-11 * 1)) with (- (1 / 6.67430e-11))
        by (field; lra).
      assert (0 < 1 / 6.67430e-11) by (apply Rdiv_lt_0_compat; lra). lra.
  - apply (proj2 (proj2 (proj2 (calculate_orbital_period_kepler 1 1))));
      unfold float_max; lra.
Defined.

Lemma vis_viva_split (r1 r2 : R) :
  0 < r1 -> 0 < r2 ->
  2 / r1 - 1 / ((r1 + r2) / 2)
  = 1 / r1 + (r2 - r1) / (r1 * (r1 + r2)).
Proof. intros H1 H2. field. lra. Qed.

Lemma hohmann_radicand (gm r1 r2 : R) :
  0 <= gm -> 0 < r1 -> 0 < r2 ->
  0 <= gm * (2 / r1 - 1 / ((r1 + r2) / 2))
  /\ (r1 <= r2 -> gm / r1 <= gm * (2 / r1 - 1 / ((r1 + r2) / 2)))
  /\ (r2 <= r1 -> gm * (2 / r1 - 1 / ((r1 + r2) / 2)) <= gm / r1).
Proof.
  intros Hgm H1 H2. rewrite vis_viva_split by done.
  assert (0 < r1 * (r1 + r2)) as Hd by nra.
  assert (0 < / (r1 * (r1 + r2))) as Hid by (by apply Rinv_0_lt_compat).
  assert (0 < / r1) as Hi1 by (by apply Rinv_0_lt_compat).
  assert (1 / r1 + (r2 - r1) / (r1 * (r1 + r2))
          = 2 * r2 * / (r1 * (r1 + r2))) as Hsum by (field; lra).
  split; [|split].
  - rewrite Hsum. apply Rmult_le_pos; [done |]. nra.
  - intros Hle. unfold Rdiv.
    assert (0 <= gm * ((r2 - r1) * / (r1 * (r1 + r2)))) as Ht.
    { apply Rmult_le_pos; [done |]. apply Rmult_le_pos; lra. }
    lra.
  - intros Hle. unfold Rdiv.
    assert (0 <= gm * ((r1 - r2) * / (r1 * (r1 + r2)))) as Ht.
    { apply Rmult_le_pos; [done |]. apply Rmult_le_pos; lra. }
    lra.
Qed.

Lemma hohmann_returns (central_mass r1 r2 : R) :
  0 <= central_mass -> 0 < r1 -> 0 < r2 ->
  calculate_hohmann_transfer_delta_v central_mass r1 r2
  = Returns
      (sqrt (6.67430e-11 * central_mass * (2 / r1 - 1 / ((r1 + r2) / 2)))
       - sqrt (6.67430e-11 * central_mass / r1),
       sqrt (6.67430e-11 * central_mass / r2)
       - sqrt (6.67430e-11 * central_mass * (2 / r2 - 1 / ((r1 + r2) / 2)))).
Proof.
  intros HM H1 H2. pose proof G_positive as HG.
  assert (0 <= 6.67430e-11 * central_mass) as HGM by nra.
  unfold calculate_hohmann_transfer_delta_v.
  assert (forall r, 0 < r -> 0 <= 6.67430e-11 * central_mass / r) as Hq.
  { intros r Hr. apply Rmult_le_pos; [done |]. left.
    by apply Rinv_0_lt_compat. }
  destruct (hohmann_radicand _ r1 r2 HGM H1 H2) as (Hp1 & _ & _).
  destruct (hohmann_radicand _ r2 r1 HGM H2 H1) as (Hp2 & _ & _).
  rewrite (Rplus_comm r2 r1) in Hp2.
  cbv zeta.
  rewrite (float_div_nonzero (6.67430e-11 * central_mass) r1),
    checked_bind_Returns by lra.
  rewrite math_sqrt_nonneg, checked_bind_Returns by auto.
  rewrite (float_div_nonzero (6.67430e-11 * central_mass) r2),
    checked_bind_Returns by lra.
  rewrite math_sqrt_nonneg, checked_bind_Returns by auto.
  rewrite (float_div_nonzero 2 r1), checked_bind_Returns by lra.
  rewrite (float_div_nonzero 1), checked_bind_Returns by lra.
  rewrite math_sqrt_nonneg, checked_bind_Returns by done.
  rewrite (float_div_nonzero 2 r2), !checked_bind_Returns by lra.
  rewrite math_sqrt_nonneg, checked_bind_Returns by done.
  done.
Qed.

(** X5.  The Hohmann transfer between two circular orbits of positive radii
    around a mass that is not negative returns two velocity changes of one
    sign: both are at least zero when the transfer goes outwards
    ([r1 <= r2]), both are at most zero when it goes inwards ([r2 <= r1]),
    so both are zero between equal orbits. *)
Theorem hohmann_transfer_signs (central_mass r1 r2 : R) :
  0 <= central_mass -> 0 < r1 -> 0 < r2 ->
  exists delta_v1 delta_v2,
    calculate_hohmann_transfer_delta_v central_mass r1 r2
    = Returns (delta_v1, delta_v2)
    /\ (r1 <= r2 -> 0 <= delta_v1 /\ 0 <= delta_v2)
    /\ (r2 <= r1 -> delta_v1 <= 0 /\ delta_v2 <= 0).
Proof.
  intros HM H1 H2. pose proof G_positive as HG.
  assert (0 <= 6.67430e-11 * central_mass) as HGM by nra.
  rewrite hohmann_returns by done. eexists _, _. split; [done |].
  destruct (hohmann_radicand _ r1 r2 HGM H1 H2) as (_ & Hout1 & Hin1).
  destruct (hohmann_radicand _ r2 r1 HGM H2 H1) as (_ & Hin2 & Hout2).
  rewrite (Rplus_comm r2 r1) in Hin2, Hout2.
  split; intros Hle.
  - split.
    + apply Rge_le, Rge_minus, Rle_ge, sqrt_le_1_alt. by apply Hout1.
    + apply Rge_le, Rge_minus, Rle_ge, sqrt_le_1_alt. by apply Hout2.
  - split.
    + apply Rle_minus, sqrt_le_1_alt. by apply Hin1.
    + apply Rle_minus, sqrt_le_1_alt. by apply Hin2.
Qed.

Lemma hohmann_transfer_signs_witness :
  exists delta_v1 delta_v2,
    calculate_hohmann_transfer_delta_v 1 1 2 = Returns (delta_v1, delta_v2)
    /\ (1 <= 2 -> 0 <= delta_v1 /\ 0 <= delta_v2)
    /\ (2 <= 1 -> delta_v1 <= 0 /\ delta_v2 <= 0).
Proof. apply hohmann_transfer_signs; lra. Defined.

(** X6.  The transfer back is the transfer reversed: for positive radii and
    a mass that is not negative, exchanging the two orbits exchanges the two
    velocity changes and negates them. *)
Theorem hohmann_transfer_reversed (central_mass r1 r2 : R) :
  0 <= central_mass -> 0 < r1 -> 0 < r2 ->
  exists delta_v1 delta_v2,
    calculate_hohmann_transfer_delta_v central_mass r1 r2
    = Returns (delta_v1, delta_v2)
    /\ calculate_hohmann_transfer_delta_v central_mass r2 r1
       = Returns (- delta_v2, - delta_v1).
Proof.
  intros HM H1 H2.
  rewrite (hohmann_returns central_mass r1 r2),
    (hohmann_returns central_mass r2 r1) by done.
  eexists _, _. split; [done |].
  rewrite (Rplus_comm r2 r1). f_equal. f_equal; ring.
Qed.

Lemma hohmann_transfer_reversed_witness :
  exists delta_v1 delta_v2,
    calculate_hohmann_transfer_delta_v 1 1 2 = Returns (delta_v1, delta_v2)
    /\ calculate_hohmann_transfer_delta_v 1 2 1
       = Returns (- delta_v2, - delta_v1).
Proof. apply hohmann_transfer_reversed; lra. Defined.

(** X7.  The errors of the Hohmann transfer: a radius of zero raises
    [ZeroDivisionError]; so do two radii that cancel ([r2 = -r1]) around a
    mass of zero, where the semi-major axis of the transfer is zero; a
    positive mass with a negative first radius raises [ValueError]. *)
Theorem hohmann_transfer_errors (central_mass r1 r2 : R) :
  (r1 = 0 ->
   calculate_hohmann_transfer_delta_v central_mass r1 r2
   = Fails ZeroDivisionError)
  /\ (central_mass = 0 -> r1 <> 0 -> r2 = - r1 ->
      calculate_hohmann_transfer_delta_v central_mass r1 r2
      = Fails ZeroDivisionError)
  /\ (0 < central_mass -> r1 < 0 ->
      calculate_hohmann_transfer_delta_v central_mass r1 r2
      = Fails ValueError).
Proof.
  pose proof G_positive as HG.
  unfold calculate_hohmann_transfer_delta_v. cbv zeta. split; [|split].
  - intros ->. by rewrite (float_div_zero (6.67430e-11 * central_mass)).
  - intros -> H1 ->.
    rewrite !Rmult_0_r.
    rewrite (float_div_nonzero 0 r1), checked_bind_Returns by done.
    replace (0 / r1) with 0 by (field; done).
    rewrite math_sqrt_nonneg, checked_bind_Returns by lra.
    rewrite (float_div_nonzero 0 (- r1)), checked_bind_Returns by lra.
    replace (0 / - r1) with 0 by (field; lra).
    rewrite math_sqrt_nonneg, checked_bind_Returns by lra.
    rewrite (float_div_nonzero 2 r1), checked_bind_Returns by done.
    replace ((r1 + - r1) / 2) with 0 by lra.
    by rewrite (float_div_zero 1).
  - intros HM H1.
    rewrite (float_div_nonzero (6.67430e-11 * central_mass) r1),
      checked_bind_Returns by lra.
    rewrite math_sqrt_negative; [done |].
    assert (0 < 6.67430e-11 * central_mass) as HGM by nra.
    assert (/ r1 < 0) by (by apply Rinv_lt_0_compat).
    unfold Rdiv. nra.
Qed.

Lemma hohmann_transfer_errors_witness :
  calculate_hohmann_transfer_delta_v 1 0 1 = Fails ZeroDivisionError
  /\ calculate_hohmann_transfer_delta_v 0 1 (-1) = Fails ZeroDivisionError
  /\ calculate_hohmann_transfer_delta_v 1 (-1) 1 = Fails ValueError.
Proof.
  split; [|split].
  - by apply (proj1 (hohmann_transfer_errors 1 0 1)).
  - apply (proj1 (proj2 (hohmann_transfer_errors 0 1 (-1)))); [done | lra | done].
  - apply (proj2 (proj2 (hohmann_transfer_errors 1 (-1) 1))); lra.
Defined.

(** * Diagnostics: energy *)

Lemma foldl_sum {A} (g : A -> R) (l : list A) (a : R) :
  foldl (fun acc x => acc + g x) a l = a + sum_over g l.
Proof.
  revert a. induction l as [|x l IH]; intros a; simpl; [lra |].
  rewrite IH. lra.
Qed.

Lemma sum_over_ext {A} (f g : A -> R) (l : list A) :
  (forall x, x ∈ l -> f x = g x) -> sum_over f l = sum_over g l.
Proof.
  induction l as [|x l IH]; intros Hfg; simpl; [done |].
  rewrite Hfg by left. rewrite IH; [done |].
  intros y Hy. apply Hfg. by right.
Qed.

Lemma sum_over_plus {A} (f g : A -> R) (l : list A) :
  sum_over (fun x => f x + g x) l = sum_over f l + sum_over g l.
Proof. induction l as [|x l IH]; simpl; [lra |]. rewrite IH. lra. Qed.

Lemma sum_over_fmap {A B} (h : A -> B) (f : B -> R) (l : list A) :
  sum_over f (h <$> l) = sum_over (fun x => f (h x)) l.
Proof. induction l as [|x l IH]; csimpl; [done |]. by rewrite IH. Qed.

Lemma sum_over_zero {A} (l : list A) : sum_over (fun _ => 0) l = 0.
Proof. induction l as [|x l IH]; simpl; [done |]. rewrite IH. lra. Qed.

Lemma sum_over_nonpos {A} (f : A -> R) (l : list A) :
  (forall x, x ∈ l -> f x <= 0) -> sum_over f l <= 0.
Proof.
  induction l as [|x l IH]; intros Hf; simpl; [lra |].
  assert (f x <= 0) by (apply Hf; left).
  assert (sum_over f l <= 0) by (apply IH; intros y Hy; apply Hf; by right).
  lra.
Qed.

Lemma sum_over_nonneg {A} (f : A -> R) (l : list A) :
  (forall x, x ∈ l -> 0 <= f x) -> 0 <= sum_over f l.
Proof.
  induction l as [|x l IH]; intros Hf; simpl; [lra |].
  assert (0 <= f x) by (apply Hf; left).
  assert (0 <= sum_over f l) by (apply IH; intros y Hy; apply Hf; by right).
  lra.
Qed.

Lemma sum_over_pairs_fmap {A B} (h : A -> B) (f : B -> B -> R) (l : list A) :
  sum_over_pairs f (h <$> l) = sum_over_pairs (fun x y => f (h x) (h y)) l.
Proof.
  induction l as [|x l IH]; csimpl; [done |].
  by rewrite sum_over_fmap, IH.
Qed.

(** A sum over all ordered pairs of places is the sum over the diagonal
    plus the sum, over the unordered pairs, of both orders. *)
Lemma sum_over_square {A} (g : A -> A -> R) (l : list A) :
  sum_over (fun x => sum_over (g x) l) l
  = sum_over (fun x => g x x) l
    + sum_over_pairs (fun x y => g x y + g y x) l.
Proof.
  induction l as [|x l IH]; simpl; [lra |].
  rewrite (sum_over_plus (fun z => g z x) (fun z => sum_over (g z) l)).
  rewrite IH, (sum_over_plus (g x) (fun y => g y x)). lra.
Qed.

(** Two sums over the unordered pairs agree when the summands agree on the
    pairs of items with distinct keys. *)
Lemma sum_over_pairs_distinct_keys {W} (f g : string * W -> string * W -> R)
    (l : list (string * W)) :
  NoDup (keys l) ->
  (forall x y, x.1 <> y.1 -> f x y = g x y) ->
  sum_over_pairs f l = sum_over_pairs g l.
Proof.
  intros Hnd Hfg. unfold keys in Hnd.
  induction l as [|x l IH]; csimpl in *; [done |].
  apply NoDup_cons in Hnd as [Hnotin Hnd].
  rewrite IH by done. f_equal.
  apply sum_over_ext. intros y Hy. apply Hfg.
  intros Heq. apply Hnotin. rewrite Heq.
  apply list_elem_of_fmap. by exists y.
Qed.

Lemma get_kinetic_energy_square (b : CelestialBody) :
  get_kinetic_energy b
  = 0.5 * mass b
    * (vx (velocity b) * vx (velocity b) + vy (velocity b) * vy (velocity b)
       + vz (velocity b) * vz (velocity b)).
Proof.
  unfold get_kinetic_energy, norm. rewrite Rmult_assoc, sqrt_sqrt; [done |].
  nra.
Qed.

Lemma pair_potential_sym (self : GravityEngine) (b1 b2 : CelestialBody) :
  pair_potential self b1 b2 = pair_potential self b2 b1.
Proof.
  unfold pair_potential. rewrite (norm_vsub_sym (position b1)).
  destruct (Rlt_dec 0 _); [|done]. f_equal. f_equal. ring.
Qed.

Lemma calculate_system_energy_terms (self : GravityEngine) (bodies : Bodies) :
  calculate_system_energy self bodies
  = sum_over get_kinetic_energy (values bodies)
    + sum_over (fun x => sum_over (energy_term self x) bodies) bodies.
Proof.
  unfold calculate_system_energy. rewrite foldl_sum. f_equal; [lra |].
  rewrite (foldl_same _ (fun acc x =>
                           acc + sum_over (energy_term self x) bodies)).
  { rewrite foldl_sum. lra. }
  intros acc [k1 b1].
  rewrite (foldl_same _ (fun acc y => acc + energy_term self (k1, b1) y)).
  { by rewrite foldl_sum. }
  intros acc' [k2 b2]. unfold energy_term, pair_potential. simpl.
  destruct (k2 <=? k1)%string; [lra |].
  destruct (Rlt_dec 0 _); lra.
Qed.

Lemma energy_term_diagonal (self : GravityEngine)
    (x : string * CelestialBody) :
  energy_term self x x = 0.
Proof.
  unfold energy_term.
  by destruct (String.leb_total x.1 x.1) as [->| ->].
Qed.

Lemma energy_term_once (self : GravityEngine)
    (x y : string * CelestialBody) :
  x.1 <> y.1 ->
  energy_term self x y + energy_term self y x = pair_potential self x.2 y.2.
Proof.
  intros Hne. unfold energy_term.
  destruct (y.1 <=? x.1)%string eqn:Hyx, (x.1 <=? y.1)%string eqn:Hxy.
  - exfalso. apply Hne. by apply String.leb_antisym.
  - rewrite (pair_potential_sym self y.2). lra.
  - lra.
  - destruct (String.leb_total x.1 y.1); congruence.
Qed.

(** X8.  The total energy of a collection with distinct keys is the sum of
    the kinetic energies of its bodies plus, for every unordered pair of
    bodies once, [-G*m1*m2/d] (nothing for two bodies at the same place):
    the comparison of the keys picks each pair once whatever the order of
    the keys and of the collection. *)
Theorem calculate_system_energy_sum (self : GravityEngine) (bodies : Bodies) :
  NoDup (keys bodies) ->
  calculate_system_energy self bodies
  = sum_over get_kinetic_energy (values bodies)
    + sum_over_pairs (pair_potential self) (values bodies).
Proof.
  intros Hnd. rewrite calculate_system_energy_terms. f_equal.
  rewrite sum_over_square.
  rewrite (sum_over_ext _ (fun _ => 0))
    by (intros x _; apply energy_term_diagonal).
  rewrite sum_over_zero, Rplus_0_l.
  unfold values. rewrite sum_over_pairs_fmap.
  apply sum_over_pairs_distinct_keys; [done |].
  intros x y Hne. by apply energy_term_once.
Qed.

Lemma calculate_system_energy_sum_witness :
  calculate_system_energy GravityEngine_init two_bodies
  = sum_over get_kinetic_energy (values two_bodies)
    + sum_over_pairs (pair_potential GravityEngine_init) (values two_bodies).
Proof. apply calculate_system_energy_sum, two_bodies_keys. Defined.

Lemma pair_potential_nonpos (self : GravityEngine) (b1 b2 : CelestialBody) :
  0 <= G self -> 0 <= mass b1 -> 0 <= mass b2 ->
  pair_potential self b1 b2 <= 0.
Proof.
  intros HG H1 H2. unfold pair_potential.
  destruct (Rlt_dec 0 _) as [Hd|_]; [|lra].
  assert (0 <= G self * mass b1 * mass b2)
    by (apply Rmult_le_pos; [by apply Rmult_le_pos | done]).
  assert (0 < / norm (position b1 -v position b2))
    by (by apply Rinv_0_lt_compat).
  unfold Rdiv. nra.
Qed.

Lemma get_kinetic_energy_nonneg (b : CelestialBody) :
  0 <= mass b -> 0 <= get_kinetic_energy b.
Proof. intros Hm. rewrite get_kinetic_energy_square. nra. Qed.

(** X9.  With a gravitational constant and masses that are not negative,
    the total energy is at most the total kinetic energy, which is at least
    zero: the potential part never adds energy. *)
Theorem calculate_system_energy_bounds (self : GravityEngine)
    (bodies : Bodies) :
  0 <= G self ->
  Forall (fun kb => 0 <= mass kb.2) bodies ->
  calculate_system_energy self bodies
  <= sum_over get_kinetic_energy (values bodies)
  /\ 0 <= sum_over get_kinetic_energy (values bodies).
Proof.
  intros HG Hmass. rewrite calculate_system_energy_terms.
  rewrite Forall_forall in Hmass. split.
  - assert (sum_over (fun x => sum_over (energy_term self x) bodies) bodies
            <= 0); [|lra].
    apply sum_over_nonpos. intros x Hx.
    apply sum_over_nonpos. intros y Hy. unfold energy_term.
    destruct (y.1 <=? x.1)%string; [lra |].
    apply pair_potential_nonpos; auto.
  - apply sum_over_nonneg. intros b Hb. apply get_kinetic_energy_nonneg.
    unfold values in Hb. apply list_elem_of_fmap in Hb as (kb & -> & Hkb).
    by apply Hmass.
Qed.

Lemma calculate_system_energy_bounds_witness :
  calculate_system_energy GravityEngine_init two_bodies
  <= sum_over get_kinetic_energy (values two_bodies)
  /\ 0 <= sum_over get_kinetic_energy (values two_bodies).
Proof.
  apply calculate_system_energy_bounds.
  - simpl. lra.
  - repeat constructor; simpl; lra.
Defined.

(** * Diagnostics: angular momentum *)

Lemma weighted_sum_components (f : CelestialBody -> Vec3)
    (l : list CelestialBody) (c : Vec3) :
  foldl (fun c body => c +v mass body s* f body) c l
  = mkVec3 (vx c + sum_over (fun b => mass b * vx (f b)) l)
           (vy c + sum_over (fun b => mass b * vy (f b)) l)
           (vz c + sum_over (fun b => mass b * vz (f b)) l).
Proof.
  revert c. induction l as [|b l IH]; intros c; simpl.
  - apply Vec3_eq; simpl; lra.
  - rewrite IH. apply Vec3_eq; vec_simpl; lra.
Qed.

Lemma angular_momentum_components (l : list CelestialBody) (t : Vec3) :
  foldl (fun total body =>
           total +v cross (position body) (mass body s* velocity body)) t l
  = mkVec3
      (vx t + sum_over (fun b => mass b * (vy (position b) * vz (velocity b)
                                           - vz (position b) * vy (velocity b)))
                       l)
      (vy t + sum_over (fun b => mass b * (vz (position b) * vx (velocity b)
                                           - vx (position b) * vz (velocity b)))
                       l)
      (vz t + sum_over (fun b => mass b * (vx (position b) * vy (velocity b)
                                           - vy (position b) * vx (velocity b)))
                       l).
Proof.
  revert t. induction l as [|b l IH]; intros t; simpl.
  - apply Vec3_eq; simpl; lra.
  - rewrite IH. unfold cross. apply Vec3_eq; vec_simpl; ring.
Qed.

(** The mass-weighted sum of a product of two shifted quantities. *)
Lemma sum_over_shifted_product {A} (m a c : A -> R) (α γ : R) (l : list A) :
  sum_over (fun b => m b * ((a b - α) * (c b - γ))) l
  = sum_over (fun b => m b * (a b * c b)) l
    - γ * sum_over (fun b => m b * a b) l
    - α * sum_over (fun b => m b * c b) l
    + α * γ * sum_over m l.
Proof. induction l as [|b l IH]; simpl; [lra |]. rewrite IH. ring. Qed.

Lemma sum_over_shifted_cross {A} (m a c a' c' : A -> R) (α γ α' γ' : R)
    (l : list A) :
  sum_over (fun b => m b * ((a b - α) * (c b - γ) - (a' b - α') * (c' b - γ')))
           l
  = sum_over (fun b => m b * (a b * c b - a' b * c' b)) l
    - γ * sum_over (fun b => m b * a b) l
    - α * sum_over (fun b => m b * c b) l
    + γ' * sum_over (fun b => m b * a' b) l
    + α' * sum_over (fun b => m b * c' b) l
    + (α * γ - α' * γ') * sum_over m l.
Proof. induction l as [|b l IH]; simpl; [lra |]. rewrite IH. ring. Qed.

Lemma apply_correction_values (self : GravityEngine) (bodies : Bodies) :
  values (apply_correction self bodies)
  = (fun b =>
       set_velocity
         (set_position b (position b -v find_center_of_mass self bodies))
         (velocity b -v find_center_of_mass_velocity self bodies))
    <$> values bodies.
Proof.
  unfold apply_correction.
  rewrite (find_center_of_mass_velocity_fmap self
             (fun body => set_position body
                (position body -v find_center_of_mass self bodies)))
    by done.
  rewrite (values_fmap
             (fun body => set_velocity body
                (velocity body -v find_center_of_mass_velocity self bodies))).
  rewrite (values_fmap
             (fun body => set_position body
                (position body -v find_center_of_mass self bodies))).
  rewrite <- list_fmap_compose. done.
Qed.

(** X10.  The correction takes out the angular momentum of the centre of
    mass and nothing else: for a collection of total mass [M <> 0] with
    centre of mass [c] moving at [u], the total angular momentum after
    [apply_correction] is the one before minus [M * (c x u)]. *)
Theorem apply_correction_angular_momentum (self : GravityEngine)
    (bodies : Bodies) :
  foldl (fun s body => s + mass body) 0 (values bodies) <> 0 ->
  calculate_angular_momentum self (apply_correction self bodies)
  = calculate_angular_momentum self bodies
    -v foldl (fun s body => s + mass body) 0 (values bodies)
       s* cross (find_center_of_mass self bodies)
                (find_center_of_mass_velocity self bodies).
Proof.
  intros HM. unfold calculate_angular_momentum.
  rewrite apply_correction_values.
  unfold find_center_of_mass, find_center_of_mass_velocity.
  destruct (Req_dec_T _ 0) as [|_]; [done |].
  rewrite !weighted_sum_components, !angular_momentum_components.
  rewrite foldl_sum in *. rewrite !sum_over_fmap.
  set (M := 0 + sum_over mass (values bodies)) in *.
  assert (sum_over mass (values bodies) = M) as HMsum by (unfold M; lra).
  unfold cross. apply Vec3_eq; vec_simpl;
    rewrite sum_over_shifted_cross, HMsum; field; exact HM.
Qed.

Lemma apply_correction_angular_momentum_witness :
  calculate_angular_momentum GravityEngine_init
    (apply_correction GravityEngine_init two_bodies)
  = calculate_angular_momentum GravityEngine_init two_bodies
    -v foldl (fun s body => s + mass body) 0 (values two_bodies)
       s* cross (find_center_of_mass GravityEngine_init two_bodies)
                (find_center_of_mass_velocity GravityEngine_init two_bodies).
Proof.
  apply apply_correction_angular_momentum. simpl. lra.
Defined.

(** * More on the force calculator and the integrators *)

Lemma list_get_fmap {A B} (g : A -> B) (l : list A) (i : nat) :
  list_get (g <$> l) i
  = match list_get l i with Ok a => Ok (g a) | Raise e => Raise e end.
Proof. unfold list_get. rewrite list_lookup_fmap. by destruct (l !! i). Qed.

(** The step of a pair reads the bodies through their masses and the
    difference of their positions only. *)
Lemma pair_step_fmap (self : GravityEngine)
    (g : CelestialBody -> CelestialBody) (l : list CelestialBody)
    (ks : list string) (i j : nat) (forces : gmap string Vec3) :
  (forall b, mass (g b) = mass b) ->
  (forall b1 b2,
     position (g b2) -v position (g b1) = position b2 -v position b1) ->
  pair_step self (g <$> l) ks i j forces = pair_step self l ks i j forces.
Proof.
  intros Hm Hp. unfold pair_step. rewrite !list_get_fmap.
  destruct (list_get l i) as [b1|e]; [|done].
  destruct (list_get l j) as [b2|e]; [|done].
  rewrite !bind_Ok. cbv zeta. by rewrite Hp, !Hm.
Qed.

Lemma apply_correction_keys (self : GravityEngine) (bodies : Bodies) :
  keys (apply_correction self bodies) = keys bodies.
Proof.
  unfold apply_correction, keys. rewrite <- !list_fmap_compose.
  apply list_fmap_ext. by intros _ [k b] _.
Qed.

(** X11.  The forces do not depend on where the origin is: the force
    calculator returns for the collection recentred by [apply_correction]
    what it returns for the collection itself. *)
Theorem calculate_gravitational_forces_recentred (self : GravityEngine)
    (bodies : Bodies) :
  calculate_gravitational_forces self (apply_correction self bodies)
  = calculate_gravitational_forces self bodies.
Proof.
  unfold calculate_gravitational_forces.
  rewrite apply_correction_keys, apply_correction_values, length_fmap.
  apply foldM_same. intros forces i.
  apply foldM_same. intros forces' j.
  apply pair_step_fmap; [done |].
  intros b1 b2. simpl. apply Vec3_eq; vec_simpl; lra.
Qed.

Lemma norm_zeros : norm zeros = 0.
Proof.
  unfold norm. vec_simpl.
  replace (0 * 0 + 0 * 0 + 0 * 0) with 0 by lra. apply sqrt_0.
Qed.

Lemma norm_vsub_self (p : Vec3) : norm (p -v p) = 0.
Proof.
  replace (p -v p) with zeros; [apply norm_zeros |].
  apply Vec3_eq; vec_simpl; lra.
Qed.

(** X12.  Bodies at one and the same place exert no force on one another
    and raise no error: for a collection whose bodies all have the same
    position the calculator returns the zero vector for every key. *)
Theorem calculate_gravitational_forces_coincident (self : GravityEngine)
    (bodies : Bodies) (p : Vec3) :
  Forall (fun kb => position kb.2 = p) bodies ->
  exists forces,
    calculate_gravitational_forces self bodies = Ok forces
    /\ forall k, k ∈ keys bodies -> forces !! k = Some zeros.
Proof.
  intros Hp. rewrite Forall_forall in Hp.
  rewrite calculate_gravitational_forces_pairs.
  apply foldM_invariant.
  - intros k Hk. by apply initial_forces_lookup.
  - intros forces [i j] Hij Hforces. apply elem_of_index_pairs in Hij.
    destruct (lookup_lt_is_Some_2 bodies i) as [[ki bi] Hbi]; [lia |].
    destruct (lookup_lt_is_Some_2 bodies j) as [[kj bj] Hbj]; [lia |].
    exists forces. split; [|done].
    apply (pair_step_coincident self bodies i j ki kj bi bj); [done.. |].
    pose proof (Hp (ki, bi) (list_elem_of_lookup_2 _ _ _ Hbi)) as Hpi.
    pose proof (Hp (kj, bj) (list_elem_of_lookup_2 _ _ _ Hbj)) as Hpj.
    simpl in Hpi, Hpj. rewrite Hpi, Hpj.
    apply norm_vsub_self.
Qed.

Lemma calculate_gravitational_forces_coincident_witness :
  exists forces,
    calculate_gravitational_forces GravityEngine_init
      [("a", example_body 1 1 zeros zeros);
       ("b", example_body 2 1 zeros zeros)] = Ok forces
    /\ forall k,
         k ∈ keys [("a", example_body 1 1 zeros zeros);
                   ("b", example_body 2 1 zeros zeros)] ->
         forces !! k = Some zeros.
Proof.
  apply (calculate_gravitational_forces_coincident _ _ zeros).
  by repeat constructor.
Defined.

(** X13.  Newton's third law over the whole collection: for distinct keys
    the calculator raises nothing, returns a force for every key of the
    collection, and the forces it returns add up to the zero vector. *)
Theorem calculate_gravitational_forces_total (self : GravityEngine)
    (bodies : Bodies) :
  NoDup (keys bodies) ->
  exists forces,
    calculate_gravitational_forces self bodies = Ok forces
    /\ (forall k, k ∈ keys bodies -> is_Some (forces !! k))
    /\ total_force forces bodies = zeros.
Proof.
  intros Hnd.
  destruct (calculate_gravitational_forces_balance self bodies Hnd)
    as (forces & Hrun & Htotal).
  destruct (calculate_gravitational_forces_returns self bodies)
    as (forces' & Hrun' & Hkeys).
  exists forces. split; [done |]. split; [|done].
  by replace forces with forces' by congruence.
Qed.

Lemma calculate_gravitational_forces_total_witness :
  exists forces,
    calculate_gravitational_forces GravityEngine_init two_bodies = Ok forces
    /\ (forall k, k ∈ keys two_bodies -> is_Some (forces !! k))
    /\ total_force forces two_bodies = zeros.
Proof. apply calculate_gravitational_forces_total, two_bodies_keys. Defined.

(** X14.  [update_accelerations] looks a force up for the bodies of positive
    mass only: it raises [KeyError] exactly when the dict of forces lacks
    the key of one of them, and otherwise returns the collection with the
    same keys, the bodies of positive mass accelerated by force over mass
    and the others with the acceleration they had. *)
Theorem update_accelerations_outcome (self : GravityEngine) (bodies : Bodies)
    (forces : gmap string Vec3) :
  (Exists (fun kb => 0 < mass kb.2 /\ forces !! kb.1 = None) bodies ->
   update_accelerations self bodies forces = Raise KeyError)
  /\ (Forall (fun kb => 0 < mass kb.2 -> is_Some (forces !! kb.1)) bodies ->
      exists bodies',
        update_accelerations self bodies forces = Ok bodies'
        /\ Forall2
             (fun kb kb' =>
                kb'.1 = kb.1
                /\ (0 < mass kb.2 ->
                    exists f, forces !! kb.1 = Some f
                              /\ kb'.2 = set_acceleration kb.2 (f /s mass kb.2))
                /\ (~ 0 < mass kb.2 -> kb'.2 = kb.2))
             bodies bodies').
Proof.
  unfold update_accelerations. split.
  - induction bodies as [|[k b] bodies IH]; intros Hex.
    + by apply Exists_nil in Hex.
    + cbn [forM]. destruct (Rlt_dec 0 (mass b)) as [Hm|Hm].
      * destruct (forces !! k) as [f|] eqn:Hf.
        -- rewrite (dict_get_Some _ _ _ Hf), !bind_Ok.
           apply Exists_cons in Hex as [[_ Hnone]|Hex];
             [simpl in Hnone; congruence |].
           by rewrite (IH Hex).
        -- unfold dict_get. by rewrite Hf.
      * rewrite bind_Ok.
        apply Exists_cons in Hex as [[Hpos _]|Hex]; [done |].
        by rewrite (IH Hex).
  - intros Hall. rewrite Forall_forall in Hall.
    apply forM_Forall2. intros [k b] Hin.
    destruct (Rlt_dec 0 (mass b)) as [Hm|Hm].
    + destruct (Hall (k, b) Hin Hm) as [f Hf]. simpl in Hf.
      rewrite (dict_get_Some _ _ _ Hf), bind_Ok.
      eexists. split; [done |]. split; [done |]. split; [eauto | done].
    + eexists. split; [done |]. split; [done |]. split; [done | done].
Qed.

Lemma update_accelerations_outcome_witness :
  update_accelerations GravityEngine_init two_bodies ∅ = Raise KeyError
  /\ exists bodies',
       update_accelerations GravityEngine_init
         [("a", example_body 0 1 zeros zeros)] ∅ = Ok bodies'
       /\ Forall2
            (fun kb kb' =>
               kb'.1 = kb.1
               /\ (0 < mass kb.2 ->
                   exists f, (∅ : gmap string Vec3) !! kb.1 = Some f
                             /\ kb'.2
                                = set_acceleration kb.2 (f /s mass kb.2))
               /\ (~ 0 < mass kb.2 -> kb'.2 = kb.2))
            [("a", example_body 0 1 zeros zeros)] bodies'.
Proof.
  split.
  - apply (proj1 (update_accelerations_outcome _ two_bodies ∅)).
    apply Exists_cons_hd. simpl. split; [lra | done].
  - apply (proj2 (update_accelerations_outcome _ _ ∅)).
    repeat constructor. simpl. lra.
Defined.

(** X15.  The Euler step keeps the trails bounded: a body whose trail is no
    longer than its [max_trail_length] leaves the step with such a trail and
    the same bound, and the trail ends with the new position of the body
    (unless the bound is zero). *)
Theorem euler_integration_trail_bounded (self : GravityEngine)
    (bodies : Bodies) (dt : R) :
  Forall (fun kb => (length (trail kb.2) <= max_trail_length kb.2)%nat)
         bodies ->
  exists bodies',
    euler_integration self bodies dt = Ok bodies'
    /\ Forall (fun kb => (length (trail kb.2) <= max_trail_length kb.2)%nat)
              bodies'
    /\ Forall2 (fun kb kb' =>
                  max_trail_length kb'.2 = max_trail_length kb.2
                  /\ ((0 < max_trail_length kb.2)%nat ->
                      last (trail kb'.2) = Some (position kb'.2)))
               bodies bodies'.
Proof.
  intros Hbound.
  destruct (euler_integration_returns self bodies dt)
    as (forces & bodies' & _ & He & Hrel).
  exists bodies'. split; [done |].
  assert (Forall2
            (fun kb kb' =>
               (length (trail kb'.2) <= max_trail_length kb'.2)%nat
               /\ max_trail_length kb'.2 = max_trail_length kb.2
               /\ ((0 < max_trail_length kb.2)%nat ->
                   last (trail kb'.2) = Some (position kb'.2)))
            bodies bodies') as Hall.
  { clear He. induction Hrel as [|[k b] [k' b'] l l' Hx _ IH].
    - constructor.
    - apply Forall_cons in Hbound as [Hb Hbound].
      constructor; [|by apply IH].
      destruct Hx as [_ (f & _ & Hb')]. simpl in *. subst b'.
      rewrite euler_body_fields. simpl.
      rewrite length_app. simpl.
      destruct (Nat.ltb_spec (max_trail_length b) (length (trail b) + 1))
        as [Hfull|Hroom].
      + split; [|split; [done |]].
        * destruct (trail b); simpl in *; [lia |].
          rewrite length_app. simpl. lia.
        * intros Hpos. destruct (trail b) as [|p0 t] eqn:Ht; simpl in *.
          -- lia.
          -- by rewrite last_snoc.
      + simpl. rewrite length_app. simpl.
        split; [lia |]. split; [done |]. intros _. by rewrite last_snoc. }
  split.
  - clear -Hall. induction Hall as [|x y l l' [Hy _] _ IH]; by constructor.
  - eapply Forall2_impl; [exact Hall |]. by intros x y (_ & ? & ?).
Qed.

Lemma euler_integration_trail_bounded_witness :
  exists bodies',
    euler_integration GravityEngine_init two_bodies 1 = Ok bodies'
    /\ Forall (fun kb => (length (trail kb.2) <= max_trail_length kb.2)%nat)
              bodies'
    /\ Forall2 (fun kb kb' =>
                  max_trail_length kb'.2 = max_trail_length kb.2
                  /\ ((0 < max_trail_length kb.2)%nat ->
                      last (trail kb'.2) = Some (position kb'.2)))
               two_bodies bodies'.
Proof.
  apply euler_integration_trail_bounded.
  repeat constructor; simpl; lia.
Defined.

(** X16.  [handle_collisions] returns exactly when no two bodies overlap,
    and then it leaves the collection as it was: for a dict with distinct
    keys, it returns if and only if no body collides with a later one, and
    what it returns is the dict it was given. *)
Theorem handle_collisions_returns_iff (self : GravityEngine) (d : Slots) :
  NoDup (keys (dict_items d)) ->
  ((exists d', handle_collisions self d = Finished d')
   <-> ~ overlapping (dict_items d))
  /\ (forall d', handle_collisions self d = Finished d' -> d' = d).
Proof.
  intros Hnd.
  destruct (handle_collisions_scan self d Hnd)
    as [[Hrun Hno]|(d' & Hrun & _ & _ & Hov)]; rewrite Hrun.
  - split; [|congruence]. split; [done | eauto].
  - split; [|discriminate]. split.
    + intros [d'' Heq]. discriminate.
    + intros Hno. done.
Qed.

Lemma far_bodies_apart :
  is_collision_with (example_body 1 1 zeros zeros)
                    (example_body 1 1 (mkVec3 4 0 0) zeros) = false.
Proof.
  unfold is_collision_with. destruct (Rlt_dec _ _) as [Hlt|]; [|done].
  exfalso. revert Hlt. unfold norm. vec_simpl.
  replace ((0 - 4) * (0 - 4) + (0 - 0) * (0 - 0) + (0 - 0) * (0 - 0))
    with (4 * 4) by lra.
  rewrite sqrt_square by lra. lra.
Qed.

Lemma far_bodies_not_overlapping : ~ overlapping far_bodies.
Proof.
  intros (i & j & key1 & body1 & key2 & body2 & Hij & Hi & Hj & Hhit).
  destruct i as [|i], j as [|[|j]]; try lia; try done.
  injection Hi as <- <-. injection Hj as <- <-.
  rewrite far_bodies_apart in Hhit. done.
Qed.

Lemma far_bodies_keys : NoDup (keys far_bodies).
Proof.
  apply NoDup_cons. split; [|apply NoDup_singleton].
  intros H%list_elem_of_singleton. discriminate.
Qed.

Lemma handle_collisions_returns_iff_witness :
  handle_collisions GravityEngine_init (dict_of_bodies far_bodies)
  = Finished (dict_of_bodies far_bodies)
  /\ ~ (exists d',
          handle_collisions GravityEngine_init (dict_of_bodies two_bodies)
          = Finished d').
Proof.
  split.
  - destruct (handle_collisions_returns_iff GravityEngine_init
                (dict_of_bodies far_bodies)) as [[_ Hreturns] Hsame].
    { rewrite dict_items_of_bodies. apply far_bodies_keys. }
    destruct Hreturns as [d' Hd'].
    { rewrite dict_items_of_bodies. apply far_bodies_not_overlapping. }
    rewrite Hd'. f_equal. by apply Hsame.
  - destruct (handle_collisions_returns_iff GravityEngine_init
                (dict_of_bodies two_bodies)) as [[Hno _] _].
    { rewrite dict_items_of_bodies. apply two_bodies_keys. }
    intros Hreturns. apply (Hno Hreturns).
    rewrite dict_items_of_bodies. apply two_bodies_overlapping.
Defined.
(** * Merging: the radius *)

Lemma merge_with_float_returns (b1 b2 : CelestialBody) :
  Rabs (radius b1 ^ 3) <= float_max ->
  Rabs (radius b2 ^ 3) <= float_max ->
  0 <= radius b1 ^ 3 + radius b2 ^ 3 ->
  merge_with_float b1 b2 = Merged (merge_with b1 b2).
Proof.
  intros H1 H2 Hsum. pose proof PI_RGT_0 as Hpi.
  unfold merge_with_float, merge_with. cbv zeta.
  unfold set_mass at 1 2 3. unfold set_velocity at 1 2 3. cbn [radius].
  rewrite !float_pow_int_returns by done.
  destruct (Rlt_dec _ 0) as [Hneg|_]; [|done].
  exfalso.
  replace (4 / 3 * PI * (radius b1 ^ 3 + radius b2 ^ 3) * 3 / (4 * PI))
    with (radius b1 ^ 3 + radius b2 ^ 3) in Hneg by (field; lra).
  lra.
Qed.

(** X19.  A merge adds the volumes, unless a cube overflows: for two bodies
    of positive radius whose volumes are floats ([4*pi*(r1^3 + r2^3)] is at
    most the largest float) the call returns, the cube of the radius of the
    survivor is the sum of the cubes of the two radii, and the survivor is
    at least as large as either body was; where the cube of one of the radii
    is too large for a float the call raises [OverflowError] and leaves the
    survivor with its new velocity and mass and its old radius and
    position. *)
Theorem merge_with_adds_volumes (b1 b2 : CelestialBody) :
  0 < radius b1 -> 0 < radius b2 ->
  (4 * PI * (radius b1 ^ 3 + radius b2 ^ 3) <= float_max ->
   exists merged,
     merge_with_float b1 b2 = Merged merged
     /\ radius merged ^ 3 = radius b1 ^ 3 + radius b2 ^ 3
     /\ radius b1 <= radius merged
     /\ radius b2 <= radius merged)
  /\ (float_max < radius b1 ^ 3 \/ float_max < radius b2 ^ 3 ->
      merge_with_float b1 b2
      = MergeRaised OverflowError
          (set_mass
             (set_velocity b1
                ((mass b1 s* velocity b1 +v mass b2 s* velocity b2)
                   /s (mass b1 + mass b2)))
             (mass b1 + mass b2))).
Proof.
  intros H1 H2. pose proof PI_RGT_0 as Hpi. pose proof PI2_3_2 as Hpi3.
  assert (0 < radius b1 ^ 3) as Hc1 by (by apply pow_lt).
  assert (0 < radius b2 ^ 3) as Hc2 by (by apply pow_lt).
  split.
  - intros Hvol.
    set (x := radius b1 ^ 3 + radius b2 ^ 3) in *.
    assert (0 < x) as Hx by (unfold x; lra).
    assert (x <= float_max) as Hxmax by nra.
    exists (merge_with b1 b2). split.
    { apply merge_with_float_returns; fold x; try lra;
        rewrite Rabs_right; unfold x in *; lra. }
    assert (radius (merge_with b1 b2) = Rpower x (1 / 3)) as ->.
    { unfold merge_with, set_position, set_radius, set_mass, set_velocity.
      cbn [radius]. unfold float_pow.
      replace (4 / 3 * PI * (radius b1 ^ 3 + radius b2 ^ 3) * 3 / (4 * PI))
        with x by (unfold x; field; lra).
      by destruct (Rlt_dec 0 x). }
    assert (Rpower x (1 / 3) ^ 3 = x) as Hcube.
    { rewrite <- (Rpower_pow 3) by apply exp_pos.
      rewrite Rpower_mult. replace (1 / 3 * INR 3) with 1 by (simpl; field).
      by apply Rpower_1. }
    split; [done |].
    assert (0 < Rpower x (1 / 3)) as Hy by apply exp_pos.
    assert (forall r, 0 < r -> r ^ 3 <= x -> r <= Rpower x (1 / 3)) as Hroot.
    { intros r Hr Hle. destruct (Rle_lt_dec r (Rpower x (1 / 3))); [done |].
      exfalso. rewrite <- Hcube in Hle.
      assert (Rpower x (1 / 3) ^ 3 < r ^ 3); [|lra].
      simpl. rewrite !Rmult_1_r.
      assert (Rpower x (1 / 3) * Rpower x (1 / 3) < r * r) by nra. nra. }
    split; apply Hroot; unfold x; lra.
  - intros Hover. unfold merge_with_float. cbv zeta.
    unfold set_mass at 1 3. unfold set_velocity at 1 3. cbn [radius].
    destruct (Rle_lt_dec (radius b1 ^ 3) float_max) as [Hle|Hgt].
    + destruct Hover as [Hover|Hover]; [lra |].
      rewrite (float_pow_int_returns (radius b1))
        by (rewrite Rabs_right; lra).
      by rewrite float_pow_int_overflow by (rewrite Rabs_right; lra).
    + by rewrite float_pow_int_overflow by (rewrite Rabs_right; lra).
Qed.

Lemma merge_with_adds_volumes_witness :
  (exists merged,
     merge_with_float (example_body 1 1 zeros zeros)
                      (example_body 1 2 zeros zeros) = Merged merged
     /\ radius merged ^ 3
        = radius (example_body 1 1 zeros zeros) ^ 3
          + radius (example_body 1 2 zeros zeros) ^ 3
     /\ radius (example_body 1 1 zeros zeros) <= radius merged
     /\ radius (example_body 1 2 zeros zeros) <= radius merged)
  /\ merge_with_float (example_body 1 1e103 zeros zeros)
                      (example_body 1 2 zeros zeros)
     = MergeRaised OverflowError
         (set_mass
            (set_velocity (example_body 1 1e103 zeros zeros)
               ((1 s* zeros +v 1 s* zeros) /s (1 + 1)))
            (1 + 1)).
Proof.
  split.
  - apply (proj1 (merge_with_adds_volumes
                    (example_body 1 1 zeros zeros)
                    (example_body 1 2 zeros zeros)
                    ltac:(simpl; lra) ltac:(simpl; lra))).
    pose proof PI_4. simpl. unfold float_max. lra.
  - apply (proj2 (merge_with_adds_volumes
                    (example_body 1 1e103 zeros zeros)
                    (example_body 1 2 zeros zeros)
                    ltac:(simpl; lra) ltac:(simpl; lra))).
    left. simpl. unfold float_max. lra.
Defined.

Lemma integration_same_identity (self : GravityEngine) (bodies : Bodies)
    (dt : R) :
  exists bodies',
    (if use_rk4 self then rk4_integration self bodies dt
     else euler_integration self bodies dt) = Ok bodies'
    /\ Forall2 same_identity bodies bodies'.
Proof.
  destruct (use_rk4 self).
  - destruct (rk4_integration_returns self bodies dt) as (bodies' & H & Hm).
    exists bodies'. split; [done |].
    eapply Forall2_impl; [exact Hm |]. apply moved_same_identity.
  - destruct (euler_integration_returns self bodies dt)
      as (forces & bodies' & _ & H & Hm).
    exists bodies'. split; [done |].
    eapply Forall2_impl; [exact Hm |].
    intros kb kb'. apply euler_updated_same_identity.
Qed.

Lemma same_identity_radii (P : R -> Prop) (bodies bodies' : Bodies) :
  Forall2 same_identity bodies bodies' ->
  Forall (fun kb => P (radius kb.2)) bodies ->
  Forall (fun kb => P (radius kb.2)) bodies'.
Proof.
  induction 1 as [|kb kb' l l' Hid _ IH]; intros Hall; [constructor |].
  apply Forall_cons in Hall as [Hkb Hl]. constructor; [|by apply IH].
  destruct (same_identity_fields kb kb' Hid) as (_ & _ & -> & _). done.
Qed.

(** X17.  [update_positions] integrates and then resolves collisions: for
    distinct keys and positive radii whose cubes are floats, the
    integration returns a collection with the same keys, on which the merge
    of any two bodies raises no [OverflowError] and is the merge that the
    collision step performs; the call returns the collection unchanged
    when no two of its bodies overlap, and otherwise leaves through
    [RuntimeError] with one key fewer. *)
Theorem update_positions_outcome (self : GravityEngine) (bodies : Bodies)
    (dt : R) :
  NoDup (keys bodies) ->
  Forall (fun kb => 0 < radius kb.2 /\ radius kb.2 ^ 3 <= float_max)
         bodies ->
  exists bodies1,
    (if use_rk4 self then rk4_integration self bodies dt
     else euler_integration self bodies dt) = Ok bodies1
    /\ keys bodies1 = keys bodies
    /\ (forall kb1 kb2,
          kb1 ∈ bodies1 -> kb2 ∈ bodies1 ->
          merge_with_float kb1.2 kb2.2 = Merged (merge_with kb1.2 kb2.2))
    /\ ((~ overlapping bodies1
         /\ update_positions self bodies dt
            = Finished (dict_of_bodies bodies1))
        \/ (overlapping bodies1
            /\ exists d',
                 update_positions self bodies dt = Raised RuntimeError d'
                 /\ S (ma_used d') = length bodies)).
Proof.
  intros Hnd Hradii.
  destruct (integration_same_identity self bodies dt)
    as (bodies1 & Hint & Hid).
  assert (keys bodies1 = keys bodies) as Hkeys.
  { eapply Forall2_same_keys; [|exact Hid]. by intros x y [? _]. }
  exists bodies1. split; [done |]. split; [done |]. split.
  { pose proof (same_identity_radii
                  (fun r => 0 < r /\ r ^ 3 <= float_max)
                  bodies bodies1 Hid Hradii) as Hradii1.
    intros kb1 kb2 H1 H2.
    destruct (proj1 (Forall_forall _ _) Hradii1 kb1 H1) as [Hp1 Hf1].
    destruct (proj1 (Forall_forall _ _) Hradii1 kb2 H2) as [Hp2 Hf2].
    assert (0 < radius kb1.2 ^ 3) by (by apply pow_lt).
    assert (0 < radius kb2.2 ^ 3) by (by apply pow_lt).
    apply merge_with_float_returns; try lra; rewrite Rabs_right; lra. }
  unfold update_positions. rewrite Hint.
  assert (NoDup (keys (dict_items (dict_of_bodies bodies1)))) as Hnd1
    by (by rewrite dict_items_of_bodies, Hkeys).
  destruct (handle_collisions_scan self (dict_of_bodies bodies1) Hnd1)
    as [[Hrun Hno]|(d' & Hrun & Hused & _ & Hov)];
    rewrite dict_items_of_bodies in *.
  - left. done.
  - right. split; [done |]. exists d'. split; [done |].
    unfold ma_used in Hused at 2. rewrite dict_items_of_bodies in Hused.
    assert (length bodies1 = length bodies) as <-; [|done].
    unfold keys in Hkeys.
    by rewrite <- (length_fmap fst bodies1), Hkeys, length_fmap.
Qed.

Lemma update_positions_outcome_witness :
  exists bodies1,
    (if use_rk4 GravityEngine_init
     then rk4_integration GravityEngine_init two_bodies 1
     else euler_integration GravityEngine_init two_bodies 1) = Ok bodies1
    /\ keys bodies1 = keys two_bodies
    /\ (forall kb1 kb2,
          kb1 ∈ bodies1 -> kb2 ∈ bodies1 ->
          merge_with_float kb1.2 kb2.2 = Merged (merge_with kb1.2 kb2.2))
    /\ ((~ overlapping bodies1
         /\ update_positions GravityEngine_init two_bodies 1
            = Finished (dict_of_bodies bodies1))
        \/ (overlapping bodies1
            /\ exists d',
                 update_positions GravityEngine_init two_bodies 1
                 = Raised RuntimeError d'
                 /\ S (ma_used d') = length two_bodies)).
Proof.
  apply update_positions_outcome; [apply two_bodies_keys |].
  repeat constructor; simpl; unfold float_max; lra.
Defined.

(** ** Momentum *)

Lemma total_force_components (forces : gmap string Vec3) (bodies : Bodies) :
  total_force forces bodies
  = mkVec3 (sum_over (fun kb => vx (default zeros (forces !! kb.1))) bodies)
           (sum_over (fun kb => vy (default zeros (forces !! kb.1))) bodies)
           (sum_over (fun kb => vz (default zeros (forces !! kb.1))) bodies).
Proof.
  unfold total_force. induction bodies as [|kb bodies IH]; simpl; [done |].
  rewrite IH. by apply Vec3_eq.
Qed.

Lemma find_center_of_mass_velocity_sums (self : GravityEngine)
    (bodies : Bodies) :
  find_center_of_mass_velocity self bodies
  = if Req_dec_T (sum_over mass (values bodies)) 0 then zeros
    else mkVec3
           (sum_over (fun b => mass b * vx (velocity b)) (values bodies)
            / sum_over mass (values bodies))
           (sum_over (fun b => mass b * vy (velocity b)) (values bodies)
            / sum_over mass (values bodies))
           (sum_over (fun b => mass b * vz (velocity b)) (values bodies)
            / sum_over mass (values bodies)).
Proof.
  unfold find_center_of_mass_velocity.
  rewrite foldl_sum, Rplus_0_l, weighted_sum_components.
  destruct (Req_dec_T _ 0); [done |].
  apply Vec3_eq; vec_simpl; by rewrite Rplus_0_l.
Qed.

(** The momentum and the mass of the collection after an Euler step. *)
Lemma euler_updated_momentum (forces : gmap string Vec3) (dt : R)
    (bodies bodies' : Bodies) :
  Forall2 (euler_updated forces dt) bodies bodies' ->
  Forall (fun kb => 0 < mass kb.2) bodies ->
  sum_over mass (values bodies') = sum_over mass (values bodies)
  /\ sum_over (fun b => mass b * vx (velocity b)) (values bodies')
     = sum_over (fun b => mass b * vx (velocity b)) (values bodies)
       + dt * vx (total_force forces bodies)
  /\ sum_over (fun b => mass b * vy (velocity b)) (values bodies')
     = sum_over (fun b => mass b * vy (velocity b)) (values bodies)
       + dt * vy (total_force forces bodies)
  /\ sum_over (fun b => mass b * vz (velocity b)) (values bodies')
     = sum_over (fun b => mass b * vz (velocity b)) (values bodies)
       + dt * vz (total_force forces bodies).
Proof.
  unfold values.
  induction 1 as [|[k b] [k' b'] l l' Hx _ IH]; intros Hmass.
  - simpl. repeat split; lra.
  - apply Forall_cons in Hmass as [Hm Hmass]. simpl in Hm.
    destruct (IH Hmass) as (IHm & IHx & IHy & IHz).
    destruct Hx as [_ (f & Hf & Hb')]. simpl in Hf, Hb'. subst b'.
    unfold total_force in *. csimpl. rewrite Hf. simpl.
    rewrite IHm, IHx, IHy, IHz.
    rewrite euler_body_fields. simpl.
    destruct (Rlt_dec 0 (mass b)) as [_|Hn]; [|done].
    vec_simpl. repeat split; try lra; field; lra.
Qed.

(** X18.  The Euler step does not move the centre of mass any faster or
    slower: for distinct keys and positive masses the velocity of the centre
    of mass after the step is the one before it (the forces of the step add
    up to zero, so the total momentum is conserved). *)
Theorem euler_integration_conserves_momentum (self : GravityEngine)
    (bodies : Bodies) (dt : R) :
  NoDup (keys bodies) ->
  Forall (fun kb => 0 < mass kb.2) bodies ->
  exists bodies',
    euler_integration self bodies dt = Ok bodies'
    /\ find_center_of_mass_velocity self bodies'
       = find_center_of_mass_velocity self bodies.
Proof.
  intros Hnd Hmass.
  destruct (euler_integration_returns self bodies dt)
    as (forces & bodies' & Hf & He & Hrel).
  exists bodies'. split; [done |].
  destruct (calculate_gravitational_forces_balance self bodies Hnd)
    as (forces' & Hf' & Hzero).
  replace forces' with forces in Hzero by congruence.
  destruct (euler_updated_momentum forces dt bodies bodies' Hrel Hmass)
    as (Hm & Hx & Hy & Hz).
  rewrite Hzero in Hx, Hy, Hz. simpl in Hx, Hy, Hz.
  rewrite !find_center_of_mass_velocity_sums, Hm, Hx, Hy, Hz.
  destruct (Req_dec_T _ 0); [done |].
  apply Vec3_eq; simpl; f_equal; lra.
Qed.

Lemma euler_integration_conserves_momentum_witness :
  exists bodies',
    euler_integration GravityEngine_init two_bodies 1 = Ok bodies'
    /\ find_center_of_mass_velocity GravityEngine_init bodies'
       = find_center_of_mass_velocity GravityEngine_init two_bodies.
Proof.
  apply euler_integration_conserves_momentum.
  - apply two_bodies_keys.
  - apply two_bodies_masses.
Defined.

(** * Orbital elements of a body *)

(** X20.  The degenerate cases of [calculate_orbit_parameters] assign
    nothing and raise nothing: no central body, the body itself as central
    body, a central body at the same position, one with the same velocity,
    and a relative velocity along the line between the two bodies (no
    angular momentum). *)
Theorem calculate_orbit_parameters_degenerate (self other : CelestialBody) :
  calculate_orbit_parameters self None = Returns None
  /\ calculate_orbit_parameters self (Some Itself) = Returns None
  /\ (position self = position other
      \/ velocity self = velocity other
      \/ cross (position self -v position other)
               (velocity self -v velocity other) = zeros ->
      calculate_orbit_parameters self (Some (Another other)) = Returns None).
Proof.
  split; [done |]. split; [done |].
  intros Hdeg. unfold calculate_orbit_parameters. cbv zeta.
  destruct (Req_dec_T (norm (position self -v position other)) 0) as [|Hr];
    [done |].
  destruct (Req_dec_T (norm (velocity self -v velocity other)) 0) as [|Hv];
    [done |].
  destruct (Req_dec_T _ 0) as [|Hh]; [done |].
  exfalso. destruct Hdeg as [Hp|[Hp|Hp]].
  - apply Hr. rewrite Hp. apply norm_vsub_self.
  - apply Hv. rewrite Hp. apply norm_vsub_self.
  - apply Hh. rewrite Hp. apply norm_zeros.
Qed.

Lemma calculate_orbit_parameters_degenerate_witness :
  calculate_orbit_parameters (example_body 1 1 zeros zeros)
    (Some (Another (example_body 2 1 zeros (mkVec3 1 0 0))))
  = Returns None.
Proof.
  apply (proj2 (proj2 (calculate_orbit_parameters_degenerate _ _))).
  left. reflexivity.
Defined.

(** X21.  With a positive total mass the call never raises, and it tells
    bound from unbound orbits: outside the degenerate cases it assigns, for
    a specific energy [e = v^2/2 - mu/r] below [-1e-10], a positive
    semi-major axis [a = -mu/(2e)] and a finite period [T] with
    [T^2 * mu = 4*pi^2 * a^3]; for an energy above [1e-10], a negative
    semi-major axis and an infinite period; and in between, an infinite
    semi-major axis and an infinite period. *)
Theorem calculate_orbit_parameters_classes (self other : CelestialBody) :
  0 < mass self + mass other ->
  norm (position self -v position other) <> 0 ->
  norm (velocity self -v velocity other) <> 0 ->
  norm (cross (position self -v position other)
              (velocity self -v velocity other)) <> 0 ->
  let mu := 6.67430e-11 * (mass self + mass other) in
  let energy :=
    0.5 * norm (velocity self -v velocity other)
    * norm (velocity self -v velocity other)
    - mu / norm (position self -v position other) in
  exists elements,
    calculate_orbit_parameters self (Some (Another other))
    = Returns (Some elements)
    /\ (energy < - 1e-10 ->
        exists a T,
          oe_semi_major_axis elements = Finite a
          /\ oe_period elements = Finite T
          /\ a = - mu / (2 * energy) /\ 0 < a
          /\ 0 <= T /\ T * T * mu = 4 * (PI * PI) * a ^ 3)
    /\ (1e-10 < energy ->
        exists a,
          oe_semi_major_axis elements = Finite a
          /\ a < 0 /\ oe_period elements = Infinity)
    /\ (- 1e-10 <= energy <= 1e-10 ->
        oe_semi_major_axis elements = Infinity
        /\ oe_period elements = Infinity).
Proof.
  intros Hm Hr Hv Hh mu energy. pose proof G_positive as HG.
  assert (0 < mu) as Hmu by (unfold mu; nra).
  unfold calculate_orbit_parameters. cbv zeta.
  destruct (Req_dec_T _ 0) as [|_]; [done |].
  destruct (Req_dec_T _ 0) as [|_]; [done |].
  destruct (Req_dec_T _ 0) as [|_]; [done |].
  fold mu. fold energy.
  destruct (Rlt_dec 1e-10 (Rabs energy)) as [Habs|Habs].
  - destruct (Rlt_dec 0 (- mu / (2 * energy))) as [Ha|Ha].
    + (* bound *)
      assert (energy < 0) as Hneg.
      { destruct (Rle_lt_dec 0 energy) as [Hpos|]; [|done]. exfalso.
        assert (0 < energy)
          by (destruct Hpos as [ | <- ]; [done |];
              rewrite Rabs_R0 in Habs; lra).
        assert (0 < / (2 * energy)) by (apply Rinv_0_lt_compat; lra).
        unfold Rdiv in Ha. nra. }
      assert (0 <= (- mu / (2 * energy)) ^ 3 / mu) as Hq.
      { apply Rmult_le_pos; [apply pow_le; lra |].
        left. by apply Rinv_0_lt_compat. }
      rewrite math_sqrt_nonneg, !checked_bind_Returns by done.
      eexists. split; [done |]. simpl. split; [|split].
      * intros _. eexists _, _. split; [done |]. split; [done |].
        split; [done |]. split; [done |]. pose proof PI_RGT_0 as Hpi. split.
        -- apply Rmult_le_pos; [lra | apply sqrt_pos].
        -- set (s := sqrt _).
           assert (s * s = (- mu / (2 * energy)) ^ 3 / mu) as Hs
             by (by apply sqrt_sqrt).
           replace (2 * PI * s * (2 * PI * s) * mu)
             with (4 * (PI * PI) * (s * s) * mu) by ring.
           rewrite Hs. field. lra.
      * intros Hpos. lra.
      * intros [Hlo Hhi]. rewrite Rabs_left in Habs by done. lra.
    + (* unbound *)
      rewrite checked_bind_Returns.
      eexists. split; [done |]. simpl.
      assert (0 < energy) as Hpos.
      { destruct (Rle_lt_dec energy 0) as [Hneg|]; [|done]. exfalso.
        apply Ha.
        assert (energy < 0)
          by (destruct Hneg as [ | -> ]; [done |];
              rewrite Rabs_R0 in Habs; lra).
        assert (/ (2 * energy) < 0) by (apply Rinv_lt_0_compat; lra).
        unfold Rdiv. nra. }
      split; [|split].
      * intros Hneg. lra.
      * intros _. eexists. split; [done |]. split; [|done].
        assert (0 < / (2 * energy)) by (apply Rinv_0_lt_compat; lra).
        unfold Rdiv. nra.
      * intros [Hlo Hhi]. rewrite Rabs_right in Habs by lra. lra.
  - rewrite checked_bind_Returns. eexists. split; [done |]. simpl.
    assert (- 1e-10 <= energy <= 1e-10) as [Hlo Hhi].
    { apply Rnot_lt_le in Habs. unfold Rabs in Habs.
      destruct (Rcase_abs energy); lra. }
    split; [intros; lra |]. split; [intros; lra | done].
Qed.

Lemma calculate_orbit_parameters_classes_witness :
  exists elements,
    calculate_orbit_parameters
      (example_body 1 1 (mkVec3 1 0 0) (mkVec3 0 1 0))
      (Some (Another (example_body 1 1 zeros zeros)))
    = Returns (Some elements).
Proof.
  destruct (calculate_orbit_parameters_classes
              (example_body 1 1 (mkVec3 1 0 0) (mkVec3 0 1 0))
              (example_body 1 1 zeros zeros)) as (elements & H & _).
  - simpl. lra.
  - intros H. apply norm_zero_inv in H. apply (f_equal vx) in H.
    simpl in H. lra.
  - intros H. apply norm_zero_inv in H. apply (f_equal vy) in H.
    simpl in H. lra.
  - intros H. apply norm_zero_inv in H. apply (f_equal vz) in H.
    simpl in H. lra.
  - by exists elements.
Defined.

Lemma norm_square (a : Vec3) :
  norm a * norm a = vx a * vx a + vy a * vy a + vz a * vz a.
Proof. unfold norm. apply sqrt_sqrt. nra. Qed.

Lemma norm_nonneg (a : Vec3) : 0 <= norm a.
Proof. apply sqrt_pos. Qed.

(** The eccentricity vector [v x (r x v) / mu - r / |r|] has squared length
    [1 + 2 * energy * h^2 / mu^2]. *)
Lemma eccentricity_vector_square (r_vec v_vec : Vec3) (mu : R) :
  mu <> 0 -> norm r_vec <> 0 ->
  let h := norm (cross r_vec v_vec) in
  let energy := 0.5 * norm v_vec * norm v_vec - mu / norm r_vec in
  let e := norm (cross v_vec (cross r_vec v_vec) /s mu
                 -v r_vec /s norm r_vec) in
  e * e = 1 + 2 * energy * (h * h) / (mu * mu).
Proof.
  intros Hmu Hr h energy e. unfold e, energy, h.
  rewrite norm_square.
  replace 0.5 with (/ 2) by lra.
  replace (2 * (/ 2 * norm v_vec * norm v_vec - mu / norm r_vec)
           * (norm (cross r_vec v_vec) * norm (cross r_vec v_vec))
           / (mu * mu))
    with ((norm v_vec * norm v_vec)
          * (norm (cross r_vec v_vec) * norm (cross r_vec v_vec))
          / (mu * mu)
          - 2 * (norm (cross r_vec v_vec) * norm (cross r_vec v_vec))
            / (mu * norm r_vec))
    by (field; done).
  rewrite (norm_square v_vec), (norm_square (cross r_vec v_vec)).
  pose proof (norm_square r_vec) as Hsq.
  destruct r_vec as [x y z], v_vec as [u v w]. simpl in *.
  set (r := norm _) in *.
  replace 1 with ((x * x + y * y + z * z) / (r * r))
    by (rewrite <- Hsq; field; done).
  field. done.
Qed.

(** X22.  The eccentricity that [calculate_orbit_parameters] assigns agrees
    with the energy it computes: for a positive total mass,
    [e^2 = 1 + 2 * energy * h^2 / mu^2], so the eccentricity is below 1
    exactly for a negative specific energy (a bound orbit) and equal to 1
    exactly for energy 0. *)
Theorem calculate_orbit_parameters_eccentricity
    (self other : CelestialBody) (elements : OrbitElements) :
  0 < mass self + mass other ->
  calculate_orbit_parameters self (Some (Another other))
  = Returns (Some elements) ->
  let mu := 6.67430e-11 * (mass self + mass other) in
  let r_vec := position self -v position other in
  let v_vec := velocity self -v velocity other in
  let h := norm (cross r_vec v_vec) in
  let energy := 0.5 * norm v_vec * norm v_vec - mu / norm r_vec in
  let e := oe_eccentricity elements in
  e * e = 1 + 2 * energy * (h * h) / (mu * mu)
  /\ (e < 1 <-> energy < 0)
  /\ (e = 1 <-> energy = 0).
Proof.
  intros Hm Hcall mu r_vec v_vec h energy e. pose proof G_positive as HG.
  assert (0 < mu) as Hmu by (unfold mu; nra).
  unfold calculate_orbit_parameters in Hcall. cbv zeta in Hcall.
  fold r_vec v_vec mu in Hcall.
  destruct (Req_dec_T (norm r_vec) 0) as [|Hr]; [done |].
  destruct (Req_dec_T (norm v_vec) 0) as [|Hv]; [done |].
  destruct (Req_dec_T (norm (cross r_vec v_vec)) 0) as [|Hh]; [done |].
  assert (e = norm (cross v_vec (cross r_vec v_vec) /s mu
                    -v r_vec /s norm r_vec)) as He.
  { unfold e.
    destruct (match (if Rlt_dec _ _ then _ else _) with
              | Finite _ => _ | Infinity => _ end) as [p|err];
      simpl in Hcall; [|done].
    by injection Hcall as <-. }
  assert (e * e = 1 + 2 * energy * (h * h) / (mu * mu)) as Hsq.
  { rewrite He. apply eccentricity_vector_square; [lra | done]. }
  split; [done |].
  assert (0 <= e) as Hpos by (rewrite He; apply norm_nonneg).
  assert (0 < h * h / (mu * mu)) as Hk.
  { pose proof (norm_nonneg (cross r_vec v_vec)). fold h in Hh, H.
    apply Rdiv_lt_0_compat; nra. }
  replace (2 * energy * (h * h) / (mu * mu))
    with (2 * energy * (h * h / (mu * mu))) in Hsq by (field; lra).
  set (k := h * h / (mu * mu)) in *.
  split; split; intros; nra.
Qed.

Lemma orbit_example_returns :
  exists elements,
    calculate_orbit_parameters
      (example_body 1 1 (mkVec3 1 0 0) (mkVec3 0 1 0))
      (Some (Another (example_body 1 1 zeros zeros)))
    = Returns (Some elements).
Proof.
  unfold calculate_orbit_parameters. cbv zeta.
  destruct (Req_dec_T _ 0) as [H|_].
  { apply norm_zero_inv in H. apply (f_equal vx) in H. simpl in H. lra. }
  destruct (Req_dec_T _ 0) as [H|_].
  { apply norm_zero_inv in H. apply (f_equal vy) in H. simpl in H. lra. }
  destruct (Req_dec_T _ 0) as [H|_].
  { apply norm_zero_inv in H. apply (f_equal vz) in H. simpl in H. lra. }
  destruct (Rlt_dec 1e-10 _) as [_|_]; [|by eexists].
  destruct (Rlt_dec 0 _) as [Ha|_]; [|by eexists].
  rewrite math_sqrt_nonneg; [by eexists |].
  apply Rmult_le_pos; [apply pow_le; lra |].
  left. apply Rinv_0_lt_compat. simpl. lra.
Qed.

Lemma calculate_orbit_parameters_eccentricity_witness :
  exists elements,
    calculate_orbit_parameters
      (example_body 1 1 (mkVec3 1 0 0) (mkVec3 0 1 0))
      (Some (Another (example_body 1 1 zeros zeros)))
    = Returns (Some elements)
    /\ (oe_eccentricity elements < 1 <->
        0.5 * norm (mkVec3 0 1 0 -v zeros) * norm (mkVec3 0 1 0 -v zeros)
        - 6.67430e-11 * (1 + 1) / norm (mkVec3 1 0 0 -v zeros) < 0).
Proof.
  destruct orbit_example_returns as [elements H].
  exists elements. split; [exact H |].
  apply (calculate_orbit_parameters_eccentricity
           (example_body 1 1 (mkVec3 1 0 0) (mkVec3 0 1 0))
           (example_body 1 1 zeros zeros) elements); [simpl; lra | exact H].
Defined.

(** * The potential energy of one body *)

Lemma sum_over_app {A} (f : A -> R) (l1 l2 : list A) :
  sum_over f (l1 ++ l2) = sum_over f l1 + sum_over f l2.
Proof. induction l1 as [|x l1 IH]; simpl; [lra | rewrite IH; lra]. Qed.

(** A call of [get_potential_energy] adds the pair potentials of the other
    bodies, with the constant [G] of the engine's default. *)
Lemma get_potential_energy_sum (self : CelestialBody)
    (other_bodies : list body_ref) :
  get_potential_energy self other_bodies
  = sum_over (fun other =>
                match other with
                | Itself => 0
                | Another other => pair_potential GravityEngine_init self other
                end) other_bodies.
Proof.
  unfold get_potential_energy. cbv zeta.
  rewrite (foldl_same _
             (fun acc other =>
                acc + match other with
                      | Itself => 0
                      | Another other =>
                          pair_potential GravityEngine_init self other
                      end)).
  { rewrite foldl_sum. lra. }
  intros acc [|other]; [lra |].
  unfold pair_potential. simpl. destruct (Rlt_dec 0 _); lra.
Qed.

Lemma each_potential_energy_pairs (before after : list CelestialBody) :
  each_potential_energy before after
  = sum_over (fun body =>
                sum_over (pair_potential GravityEngine_init body) before)
             after
    + 2 * sum_over_pairs (pair_potential GravityEngine_init) after.
Proof.
  revert before. induction after as [|body after IH]; intros before; simpl;
    [lra |].
  rewrite IH, get_potential_energy_sum, sum_over_app. simpl.
  rewrite !sum_over_fmap.
  rewrite (sum_over_ext
             (fun body0 =>
                sum_over (pair_potential GravityEngine_init body0)
                         (before ++ [body]))
             (fun body0 =>
                sum_over (pair_potential GravityEngine_init body0) before
                + pair_potential GravityEngine_init body body0)).
  2:{ intros x _. rewrite sum_over_app. simpl.
      rewrite (pair_potential_sym _ x body). lra. }
  rewrite sum_over_plus.
  change (fun x => pair_potential GravityEngine_init body x)
    with (pair_potential GravityEngine_init body).
  lra.
Qed.

(** X23.  Summing [get_potential_energy] over all bodies, each call given
    the list of all bodies, counts every pair twice: for an engine with the
    default constant and a collection with distinct keys, the sum is twice
    the potential part of [calculate_system_energy], that is twice the
    system energy less the kinetic energies. *)
Theorem get_potential_energy_counts_twice (self : GravityEngine)
    (bodies : Bodies) :
  G self = 6.67430e-11 ->
  NoDup (keys bodies) ->
  each_potential_energy [] (values bodies)
  = 2 * (calculate_system_energy self bodies
         - sum_over get_kinetic_energy (values bodies)).
Proof.
  intros HG Hnd. rewrite each_potential_energy_pairs.
  rewrite calculate_system_energy_terms, sum_over_square.
  simpl. rewrite sum_over_zero.
  rewrite (sum_over_ext (fun x => energy_term self x x) (fun _ => 0))
    by (intros; apply energy_term_diagonal).
  rewrite sum_over_zero.
  rewrite (sum_over_pairs_distinct_keys
             (fun x y => energy_term self x y + energy_term self y x)
             (fun x y => pair_potential self x.2 y.2) bodies Hnd)
    by (intros; by apply energy_term_once).
  unfold values. rewrite sum_over_pairs_fmap.
  assert (pair_potential GravityEngine_init = pair_potential self) as ->;
    [|lra].
  unfold pair_potential. by rewrite HG.
Qed.

Lemma get_potential_energy_counts_twice_witness :
  each_potential_energy [] (values two_bodies)
  = 2 * (calculate_system_energy GravityEngine_init two_bodies
         - sum_over get_kinetic_energy (values two_bodies)).
Proof.
  apply get_potential_energy_counts_twice; [done |].
  apply two_bodies_keys.
Defined.

(** * Momentum under the Runge-Kutta step *)

Section runge_kutta_stages.
Context (self : GravityEngine) (dt : R).

(** The four derivatives of the step together with their lengths. *)
Lemma rk4_integration_stages (bodies : Bodies) :
  NoDup (keys bodies) ->
  Forall (fun kb => 0 < mass kb.2) bodies ->
  exists k1 k2 k3 k4 : list (Vec3 * Vec3),
    stage_derivative self bodies = Ok k1
    /\ stage_derivative self (advance bodies (0.5 * dt) k1) = Ok k2
    /\ stage_derivative self (advance bodies (0.5 * dt) k2) = Ok k3
    /\ stage_derivative self (advance bodies dt k3) = Ok k4
    /\ length k1 = length bodies /\ length k2 = length bodies
    /\ length k3 = length bodies /\ length k4 = length bodies
    /\ rk4_integration self bodies dt
       = Ok (rk4_combine bodies dt k1 k2 k3 k4).
Proof.
  intros Hnd Hmass.
  (* the four derivatives *)
  destruct (stage_derivative_returns self bodies) as (k1 & Hk1 & Hlen1).
  pose proof (advance_moved bodies (0.5 * dt) k1 Hlen1) as Hm1.
  set (bodies1 := advance bodies (0.5 * dt) k1) in *.
  destruct (stage_derivative_returns self bodies1) as (k2 & Hk2 & Hlen2).
  rewrite <- (Forall2_length _ _ _ Hm1) in Hlen2.
  pose proof (advance_moved bodies (0.5 * dt) k2 Hlen2) as Hm2.
  set (bodies2 := advance bodies (0.5 * dt) k2) in *.
  destruct (stage_derivative_returns self bodies2) as (k3 & Hk3 & Hlen3).
  rewrite <- (Forall2_length _ _ _ Hm2) in Hlen3.
  pose proof (advance_moved bodies dt k3 Hlen3) as Hm3.
  set (bodies3 := advance bodies dt k3) in *.
  destruct (stage_derivative_returns self bodies3) as (k4 & Hk4 & Hlen4).
  assert (length k4 = length bodies) as Hlen4'
    by (by rewrite (Forall2_length _ _ _ Hm3)).
  exists k1, k2, k3, k4. do 8 (split; [done |]).
  (* the dicts the source keeps them in *)
  assert (forall state k (t : R),
            Forall2 moved bodies state ->
            stage_derivative self state = Ok k ->
            exists k_pos k_vel,
              _rk4_step self state dt t = Ok (k_pos, k_vel)
              /\ tabulates k_pos bodies k.*1
              /\ tabulates k_vel bodies k.*2) as Hstep.
  { intros state k t Hm Hk.
    destruct (rk4_step_derivative self dt state t k)
      as (k_pos & k_vel & Hrun & Hp & Hv).
    - by rewrite (moved_keys bodies state).
    - by apply (moved_masses bodies).
    - done.
    - exists k_pos, k_vel. split; [done |].
      split; by apply (tabulates_moved _ bodies state). }
  unfold rk4_integration.
  pose proof (dict_of_items_lookup position bodies Hnd) as Hip.
  pose proof (dict_of_items_lookup velocity bodies Hnd) as Hiv.
  set (initial_positions := dict_of_items position bodies) in *.
  set (initial_velocities := dict_of_items velocity bodies) in *.
  destruct (Hstep bodies k1 0 (moved_refl bodies) Hk1)
    as (k1_pos & k1_vel & -> & H1p & H1v).
  rewrite bind_Ok. cbv beta iota.
  match goal with |- context [forM ?loop bodies] =>
    assert (forM loop bodies = Ok bodies1) as ->
  end.
  { apply (stage_loop (fun p0 kp => p0 +v 0.5 s* kp *s dt)
                      (fun v0 kv => v0 +v 0.5 s* kv *s dt));
      auto using half_increment, moved_refl. }
  rewrite bind_Ok.
  destruct (Hstep bodies1 k2 (0.5 * dt) Hm1 Hk2)
    as (k2_pos & k2_vel & -> & H2p & H2v).
  rewrite bind_Ok. cbv beta iota.
  match goal with |- context [forM ?loop bodies1] =>
    assert (forM loop bodies1 = Ok bodies2) as ->
  end.
  { apply (stage_loop (fun p0 kp => p0 +v 0.5 s* kp *s dt)
                      (fun v0 kv => v0 +v 0.5 s* kv *s dt));
      auto using half_increment. }
  rewrite bind_Ok.
  destruct (Hstep bodies2 k3 (0.5 * dt) Hm2 Hk3)
    as (k3_pos & k3_vel & -> & H3p & H3v).
  rewrite bind_Ok. cbv beta iota.
  match goal with |- context [forM ?loop bodies2] =>
    assert (forM loop bodies2 = Ok bodies3) as ->
  end.
  { apply (stage_loop (fun p0 kp => p0 +v kp *s dt)
                      (fun v0 kv => v0 +v kv *s dt));
      auto using full_increment. }
  rewrite bind_Ok.
  destruct (Hstep bodies3 k4 dt Hm3 Hk4)
    as (k4_pos & k4_vel & -> & H4p & H4v).
  rewrite bind_Ok. cbv beta iota.
  by apply final_loop.
Qed.


End runge_kutta_stages.

Section component.
Context (c : Vec3 -> R).
Hypothesis c_add : forall a b, c (a +v b) = c a + c b.
Hypothesis c_smul : forall s a, c (s s* a) = s * c a.
Hypothesis c_div : forall a s, c (a /s s) = c a / s.
Hypothesis c_zeros : c zeros = 0.

Lemma total_force_component (forces : gmap string Vec3) (bodies : Bodies) :
  c (total_force forces bodies)
  = sum_over (fun kb => c (default zeros (forces !! kb.1))) bodies.
Proof.
  unfold total_force. induction bodies as [|kb bodies IH]; simpl; [done |].
  by rewrite c_add, IH.
Qed.

(** The masses times the accelerations of a derivative add up to the sum
    of the forces. *)
Lemma derivative_loop_momentum (forces : gmap string Vec3)
    (state0 state : Bodies) :
  Forall2 moved state0 state ->
  Forall (fun kb => 0 < mass kb.2) state0 ->
  forall k,
    forM (fun '(key, body) =>
            f ← dict_get forces key;
            Ok (velocity body, f /s mass body)) state = Ok k ->
    sum_over (fun x => mass x.1.2 * c x.2.2) (zip state0 k)
    = sum_over (fun kb => c (default zeros (forces !! kb.1))) state.
Proof.
  induction 1 as [|[key b] [key' b'] l l' [_ (p & v & Hb')] _ IH];
    intros Hmass k Hk.
  - by injection Hk as <-.
  - apply Forall_cons in Hmass as [Hm Hmass]. simpl in Hm, Hb'.
    apply forM_Ok_inv in Hk as (y & ys & Hy & Hys & ->).
    apply bind_Ok_inv in Hy as (f & Hf & Hy). injection Hy as <-.
    apply dict_get_Ok_inv in Hf. simpl. rewrite Hf, (IH Hmass ys Hys).
    rewrite Hb'. simpl. rewrite c_div. f_equal. field. lra.
Qed.

Lemma stage_derivative_momentum (self : GravityEngine)
    (state0 state : Bodies) (k : list (Vec3 * Vec3)) :
  NoDup (keys state0) ->
  Forall2 moved state0 state ->
  Forall (fun kb => 0 < mass kb.2) state0 ->
  stage_derivative self state = Ok k ->
  sum_over (fun x => mass x.1.2 * c x.2.2) (zip state0 k) = 0.
Proof.
  intros Hnd Hmoved Hmass Hk.
  destruct (calculate_gravitational_forces_balance self state)
    as (forces & Hf & Hzero); [by rewrite (moved_keys state0 state) |].
  unfold stage_derivative in Hk. rewrite Hf, bind_Ok in Hk.
  rewrite (derivative_loop_momentum forces state0 state Hmoved Hmass k Hk).
  by rewrite <- total_force_component, Hzero.
Qed.

(** The momentum of the combined state. *)
Lemma rk4_combine_momentum (dt : R) (bodies : Bodies) :
  forall k1 k2 k3 k4 : list (Vec3 * Vec3),
    length k1 = length bodies -> length k2 = length bodies ->
    length k3 = length bodies -> length k4 = length bodies ->
    let S k := sum_over (fun x => mass x.1.2 * c x.2.2) (zip bodies k) in
    sum_over (fun b => mass b * c (velocity b))
             (values (rk4_combine bodies dt k1 k2 k3 k4))
    = sum_over (fun b => mass b * c (velocity b)) (values bodies)
      + dt / 6 * (S k1 + 2 * S k2 + 2 * S k3 + S k4).
Proof.
  unfold rk4_combine, values.
  induction bodies as [|[key b] bodies IH];
    intros [|[p1 v1] k1] [|[p2 v2] k2] [|[p3 v3] k3] [|[p4 v4] k4]
           H1 H2 H3 H4; simpl in H1, H2, H3, H4; try lia.
  - simpl. lra.
  - csimpl. rewrite IH by lia.
    rewrite !c_add, !c_smul, !c_add, !c_smul. lra.
Qed.

End component.

Lemma rk4_combine_mass (dt : R) (bodies : Bodies) :
  forall k1 k2 k3 k4 : list (Vec3 * Vec3),
    length k1 = length bodies -> length k2 = length bodies ->
    length k3 = length bodies -> length k4 = length bodies ->
    sum_over mass (values (rk4_combine bodies dt k1 k2 k3 k4))
    = sum_over mass (values bodies).
Proof.
  unfold rk4_combine, values.
  induction bodies as [|[key b] bodies IH];
    intros [|[p1 v1] k1] [|[p2 v2] k2] [|[p3 v3] k3] [|[p4 v4] k4]
           H1 H2 H3 H4; simpl in H1, H2, H3, H4; try lia.
  - done.
  - csimpl. rewrite IH by lia. done.
Qed.

(** X24.  The Runge-Kutta step conserves the total momentum: for distinct
    keys and positive masses it returns a collection whose centre of mass
    moves with the velocity it had before the step, the forces of each of
    the four stages adding up to zero. *)
Theorem rk4_integration_conserves_momentum (self : GravityEngine)
    (bodies : Bodies) (dt : R) :
  NoDup (keys bodies) ->
  Forall (fun kb => 0 < mass kb.2) bodies ->
  exists bodies',
    rk4_integration self bodies dt = Ok bodies'
    /\ find_center_of_mass_velocity self bodies'
       = find_center_of_mass_velocity self bodies.
Proof.
  intros Hnd Hmass.
  destruct (rk4_integration_stages self dt bodies Hnd Hmass)
    as (k1 & k2 & k3 & k4 & Hk1 & Hk2 & Hk3 & Hk4
        & Hl1 & Hl2 & Hl3 & Hl4 & Hrun).
  eexists. split; [exact Hrun |].
  pose proof (moved_refl bodies) as Hm0.
  pose proof (advance_moved bodies (0.5 * dt) k1 Hl1) as Hm1.
  pose proof (advance_moved bodies (0.5 * dt) k2 Hl2) as Hm2.
  pose proof (advance_moved bodies dt k3 Hl3) as Hm3.
  assert (forall c : Vec3 -> R,
            (forall a b, c (a +v b) = c a + c b) ->
            (forall s a, c (s s* a) = s * c a) ->
            (forall a s, c (a /s s) = c a / s) ->
            c zeros = 0 ->
            sum_over (fun b => mass b * c (velocity b))
                     (values (rk4_combine bodies dt k1 k2 k3 k4))
            = sum_over (fun b => mass b * c (velocity b)) (values bodies))
    as Hcomp.
  { intros c Hadd Hsmul Hdiv Hzero.
    rewrite (rk4_combine_momentum c Hadd Hsmul) by done. cbv zeta.
    rewrite (stage_derivative_momentum c Hadd Hdiv Hzero self bodies _ k1
               Hnd Hm0 Hmass Hk1).
    rewrite (stage_derivative_momentum c Hadd Hdiv Hzero self bodies _ k2
               Hnd Hm1 Hmass Hk2).
    rewrite (stage_derivative_momentum c Hadd Hdiv Hzero self bodies _ k3
               Hnd Hm2 Hmass Hk3).
    rewrite (stage_derivative_momentum c Hadd Hdiv Hzero self bodies _ k4
               Hnd Hm3 Hmass Hk4).
    lra. }
  rewrite !find_center_of_mass_velocity_sums.
  rewrite rk4_combine_mass by done.
  rewrite (Hcomp vx), (Hcomp vy), (Hcomp vz); try done;
    intros; by vec_simpl.
Qed.

Lemma rk4_integration_conserves_momentum_witness :
  exists bodies',
    rk4_integration GravityEngine_init two_bodies 1 = Ok bodies'
    /\ find_center_of_mass_velocity GravityEngine_init bodies'
       = find_center_of_mass_velocity GravityEngine_init two_bodies.
Proof.
  apply rk4_integration_conserves_momentum.
  - apply two_bodies_keys.
  - apply two_bodies_masses.
Defined.

(** * The force on each body *)

Lemma pair_step_update (self : GravityEngine) (bodies : Bodies)
    (i j : nat) (x y : string * CelestialBody) (forces : gmap string Vec3) :
  bodies !! i = Some x -> bodies !! j = Some y ->
  pair_step self (values bodies) (keys bodies) i j forces
  = pair_update self x y forces.
Proof.
  intros Hi Hj. unfold pair_step, pair_update.
  assert (values bodies !! i = Some x.2) as ->%list_get_Some
    by (unfold values; by rewrite list_lookup_fmap, Hi).
  assert (values bodies !! j = Some y.2) as ->%list_get_Some
    by (unfold values; by rewrite list_lookup_fmap, Hj).
  assert (keys bodies !! i = Some x.1) as ->%list_get_Some
    by (unfold keys; by rewrite list_lookup_fmap, Hi).
  assert (keys bodies !! j = Some y.1) as ->%list_get_Some
    by (unfold keys; by rewrite list_lookup_fmap, Hj).
  by rewrite !bind_Ok.
Qed.

(** The inner loop over the indices after [p] visits the items after the
    item [x] at [p]. *)
Lemma row_indices (self : GravityEngine) (x : string * CelestialBody)
    (p : nat) (suf : Bodies) :
  forall (pre : Bodies) (init : gmap string Vec3),
    (pre ++ suf) !! p = Some x ->
    foldM (fun forces j =>
             pair_step self (values (pre ++ suf)) (keys (pre ++ suf))
                       p j forces)
          (seq (length pre) (length suf)) init
    = foldM (fun forces y => pair_update self x y forces) suf init.
Proof.
  induction suf as [|y suf IH]; intros pre init Hp; [done |].
  simpl.
  rewrite (pair_step_update self (pre ++ y :: suf) p (length pre) x y)
    by (done || apply list_lookup_middle; done).
  destruct (pair_update self x y init) as [forces|e]; [|done].
  rewrite !bind_Ok.
  specialize (IH (pre ++ [y]) forces).
  rewrite <- app_assoc, length_app in IH. simpl in IH.
  replace (length pre + 1)%nat with (S (length pre)) in IH by lia.
  by apply IH.
Qed.

(** The two nested loops over the indices are the two nested loops over
    the items. *)
Lemma pairs_indices (self : GravityEngine) (suf : Bodies) :
  forall (pre : Bodies) (init : gmap string Vec3),
    foldM (fun forces '(i, j) =>
             pair_step self (values (pre ++ suf)) (keys (pre ++ suf))
                       i j forces)
          (seq (length pre) (length suf)
           ≫= (fun i => pair i <$> seq (i + 1)
                                     (length (pre ++ suf) - (i + 1))))
          init
    = all_pairs self suf init.
Proof.
  induction suf as [|x suf IH]; intros pre init; [done |].
  csimpl. rewrite foldM_app, foldM_fmap.
  replace (length (pre ++ x :: suf) - (length pre + 1))%nat
    with (length suf) by (rewrite length_app; simpl; lia).
  specialize (IH (pre ++ [x])).
  replace ((pre ++ [x]) ++ suf) with (pre ++ x :: suf) in IH
    by (by rewrite <- app_assoc).
  replace (length (pre ++ [x])) with (S (length pre)) in IH
    by (rewrite length_app; simpl; lia).
  pose proof (row_indices self x (length pre) suf (pre ++ [x])) as Hrow.
  rewrite <- app_assoc, length_app in Hrow. simpl in Hrow.
  rewrite Hrow by (by apply list_lookup_middle).
  destruct (foldM _ suf init) as [forces|e]; [|done].
  rewrite !bind_Ok. apply IH.
Qed.

Lemma calculate_gravitational_forces_all_pairs (self : GravityEngine)
    (bodies : Bodies) :
  calculate_gravitational_forces self bodies
  = all_pairs self bodies
      (foldl (fun d body => <[body := zeros]> d) ∅ (keys bodies)).
Proof.
  rewrite calculate_gravitational_forces_pairs.
  apply (pairs_indices self bodies []).
Qed.

Lemma pull_self (self : GravityEngine) (b : CelestialBody) :
  pull self b b = zeros.
Proof.
  unfold pull. cbv zeta. rewrite norm_vsub_self.
  by destruct (Req_dec_T 0 0).
Qed.

(** The step of a pair adds to each of the two forces the pull of the
    other body. *)
Lemma pair_update_forces (self : GravityEngine)
    (x y : string * CelestialBody) (init : gmap string Vec3)
    (f_x f_y : Vec3) :
  x.1 <> y.1 -> init !! x.1 = Some f_x -> init !! y.1 = Some f_y ->
  exists forces,
    pair_update self x y init = Ok forces
    /\ forces !! x.1 = Some (f_x +v pull self x.2 y.2)
    /\ forces !! y.1 = Some (f_y +v pull self y.2 x.2)
    /\ (forall k, k <> x.1 -> k <> y.1 -> forces !! k = init !! k).
Proof.
  intros Hne Hx Hy. unfold pair_update, pull. cbv zeta.
  rewrite (norm_vsub_sym (position x.2) (position y.2)).
  destruct (Req_dec_T _ 0) as [Hr|Hr].
  - exists init. split; [done |].
    split; [rewrite Hx; f_equal; apply Vec3_eq; vec_simpl; lra |].
    split; [rewrite Hy; f_equal; apply Vec3_eq; vec_simpl; lra | done].
  - rewrite (dict_get_Some _ _ _ Hx), bind_Ok.
    assert (<[x.1 := f_x +v (position y.2 -v position x.2)
                          /s norm (position y.2 -v position x.2)
                          *s (G self * mass x.2 * mass y.2
                              / (norm (position y.2 -v position x.2)
                                 * norm (position y.2 -v position x.2)))]>
              init !! y.1 = Some f_y) as Hy'
      by (by rewrite lookup_insert_ne).
    rewrite (dict_get_Some _ _ _ Hy'), bind_Ok.
    eexists. split; [done |].
    split; [by rewrite lookup_insert_ne, lookup_insert_eq by done |].
    split.
    + rewrite lookup_insert_eq. f_equal.
      apply Vec3_eq; vec_simpl; field; done.
    + intros k Hkx Hky. by rewrite !lookup_insert_ne.
Qed.

Lemma vadd_assoc (a b c : Vec3) : a +v b +v c = a +v (b +v c).
Proof. apply Vec3_eq; vec_simpl; lra. Qed.

(** The inner loop for the item [x]. *)
Lemma row_forces (self : GravityEngine) (x : string * CelestialBody)
    (rest : Bodies) :
  forall (init : gmap string Vec3) (f_x : Vec3),
    x.1 ∉ keys rest -> NoDup (keys rest) ->
    init !! x.1 = Some f_x -> has_keys init rest ->
    exists forces,
      foldM (fun forces y => pair_update self x y forces) rest init
      = Ok forces
      /\ forces !! x.1
         = Some (f_x +v vsum_over (fun y => pull self x.2 y.2) rest)
      /\ (forall k b f,
            (k, b) ∈ rest -> init !! k = Some f ->
            forces !! k = Some (f +v pull self b x.2))
      /\ (forall k, k <> x.1 -> k ∉ keys rest -> forces !! k = init !! k).
Proof.
  unfold keys.
  induction rest as [|y rest IH]; intros init f_x Hx Hnd Hfx Hkeys.
  - exists init. split; [done |]. simpl.
    split; [rewrite Hfx; f_equal; apply Vec3_eq; vec_simpl; lra |].
    split; [|done]. intros k b f Hin. by apply elem_of_nil in Hin.
  - csimpl in *. apply not_elem_of_cons in Hx as [Hxy Hx].
    apply NoDup_cons in Hnd as [Hy Hnd].
    destruct (Hkeys y.1) as [f_y Hfy]; [left |].
    destruct (pair_update_forces self x y init f_x f_y Hxy Hfx Hfy)
      as (forces1 & -> & Hx1 & Hy1 & Hframe1).
    rewrite bind_Ok.
    destruct (IH forces1 (f_x +v pull self x.2 y.2) Hx Hnd Hx1)
      as (forces & -> & Hxf & Hrest & Hframe).
    { intros k Hk. destruct (decide (k = y.1)) as [->|Hne]; [eauto |].
      rewrite Hframe1; [apply Hkeys; by right | | done].
      intros ->. done. }
    exists forces. split; [done |]. split; [|split].
    + rewrite Hxf. f_equal. apply vadd_assoc.
    + intros k b f Hin Hf. apply elem_of_cons in Hin as [Heq|Hin].
      * subst y. simpl in *. rewrite Hframe by done.
        rewrite Hy1. congruence.
      * assert (k ∈ rest.*1) as Hk by (by apply (elem_of_keys rest k b)).
        apply (Hrest k b f Hin). rewrite Hframe1; [done | |];
          intros ->; done.
    + intros k Hkx Hk. apply not_elem_of_cons in Hk as [Hky Hk].
      rewrite Hframe, Hframe1 by done. done.
Qed.

(** The two loops add to the force of every body the pulls of all bodies
    of the collection. *)
Lemma all_pairs_forces (self : GravityEngine) (bodies : Bodies) :
  NoDup (keys bodies) ->
  forall init : gmap string Vec3,
    has_keys init bodies ->
    exists forces,
      all_pairs self bodies init = Ok forces
      /\ (forall k b f,
            (k, b) ∈ bodies -> init !! k = Some f ->
            forces !! k
            = Some (f +v vsum_over (fun y => pull self b y.2) bodies))
      /\ (forall k, k ∉ keys bodies -> forces !! k = init !! k).
Proof.
  unfold keys.
  induction bodies as [|x rest IH]; intros Hnd init Hkeys.
  - exists init. split; [done |]. split; [|done].
    intros k b f Hin. by apply elem_of_nil in Hin.
  - csimpl in *. apply NoDup_cons in Hnd as [Hx Hnd].
    destruct (Hkeys x.1) as [f_x Hfx]; [left |].
    destruct (row_forces self x rest init f_x Hx Hnd Hfx)
      as (forces1 & -> & Hx1 & Hrest1 & Hframe1).
    { intros k Hk. apply Hkeys. by right. }
    rewrite bind_Ok.
    destruct (IH Hnd forces1) as (forces & -> & Hrest & Hframe).
    { intros k Hk. apply list_elem_of_fmap in Hk as ([k' b] & -> & Hin).
      destruct (Hkeys k') as [f Hf];
        [right; by apply (elem_of_keys rest k' b) |].
      simpl. rewrite (Hrest1 k' b f Hin Hf). eauto. }
    exists forces. split; [done |]. split.
    + intros k b f Hin Hf. apply elem_of_cons in Hin as [Heq|Hin].
      * subst x. simpl in *. rewrite Hframe, Hx1 by done.
        rewrite pull_self. replace f_x with f by congruence.
        f_equal. apply Vec3_eq; vec_simpl; lra.
      * rewrite (Hrest k b _ Hin (Hrest1 k b f Hin Hf)).
        f_equal. apply vadd_assoc.
    + intros k Hk. apply not_elem_of_cons in Hk as [Hkx Hk].
      rewrite Hframe, Hframe1 by done. done.
Qed.

Lemma initial_forces_lookup_None (ks : list string) (k : string) :
  k ∉ ks ->
  foldl (fun d body => <[body := zeros]> d) (∅ : gmap string Vec3) ks !! k
  = None.
Proof.
  generalize (∅ : gmap string Vec3) (lookup_empty (M:=gmap string) (A:=Vec3) k).
  induction ks as [|k0 ks IH]; intros d Hd Hk; simpl; [done |].
  apply not_elem_of_cons in Hk as [Hne Hk].
  apply IH; [|done]. by rewrite lookup_insert_ne.
Qed.

Lemma vsum_over_fmap {A B} (h : A -> B) (f : B -> Vec3) (l : list A) :
  vsum_over f (h <$> l) = vsum_over (fun x => f (h x)) l.
Proof.
  unfold vsum_over. induction l as [|x l IH]; csimpl; [done |].
  by rewrite IH.
Qed.

(** X25.  The calculator implements Newton's law of gravitation with
    superposition: for a collection with distinct keys it returns a dict
    that holds, for every body, the sum of the pulls of all bodies of the
    collection on it (a body does not pull itself, nor does a body at the
    same position), and that holds no other key. *)
Theorem calculate_gravitational_forces_newton (self : GravityEngine)
    (bodies : Bodies) :
  NoDup (keys bodies) ->
  exists forces,
    calculate_gravitational_forces self bodies = Ok forces
    /\ (forall k b,
          (k, b) ∈ bodies ->
          forces !! k = Some (vsum_over (pull self b) (values bodies)))
    /\ (forall k, k ∉ keys bodies -> forces !! k = None).
Proof.
  intros Hnd. rewrite calculate_gravitational_forces_all_pairs.
  destruct (all_pairs_forces self bodies Hnd _
              (initial_forces_has_keys bodies))
    as (forces & -> & Hin & Hout).
  exists forces. split; [done |]. split.
  - intros k b Hkb.
    rewrite (Hin k b zeros Hkb)
      by (by apply initial_forces_lookup, (elem_of_keys bodies k b)).
    unfold values. rewrite vsum_over_fmap. f_equal.
    apply Vec3_eq; vec_simpl; lra.
  - intros k Hk. rewrite (Hout k Hk). by apply initial_forces_lookup_None.
Qed.

Lemma calculate_gravitational_forces_newton_witness :
  exists forces,
    calculate_gravitational_forces GravityEngine_init two_bodies = Ok forces
    /\ (forall k b,
          (k, b) ∈ two_bodies ->
          forces !! k
          = Some (vsum_over (pull GravityEngine_init b) (values two_bodies)))
    /\ (forall k, k ∉ keys two_bodies -> forces !! k = None).
Proof.
  apply calculate_gravitational_forces_newton, two_bodies_keys.
Defined.

(** * Angular momentum under the Euler step *)

Lemma vsum_over_plus {A} (f g : A -> Vec3) (l : list A) :
  vsum_over (fun x => f x +v g x) l = vsum_over f l +v vsum_over g l.
Proof.
  unfold vsum_over. induction l as [|x l IH]; simpl.
  - apply Vec3_eq; vec_simpl; lra.
  - rewrite IH. apply Vec3_eq; vec_simpl; lra.
Qed.

Lemma vsum_over_zeros {A} (l : list A) :
  vsum_over (fun _ => zeros) l = zeros.
Proof.
  unfold vsum_over. induction l as [|x l IH]; simpl; [done |].
  rewrite IH. apply Vec3_eq; vec_simpl; lra.
Qed.

Lemma vsum_over_ext {A} (f g : A -> Vec3) (l : list A) :
  (forall x, f x = g x) -> vsum_over f l = vsum_over g l.
Proof.
  intros Hfg. unfold vsum_over. induction l as [|x l IH]; simpl; [done |].
  by rewrite Hfg, IH.
Qed.

Lemma foldl_vsum {A} (g : A -> Vec3) (l : list A) (t : Vec3) :
  foldl (fun acc x => acc +v g x) t l = t +v vsum_over g l.
Proof.
  unfold vsum_over. revert t. induction l as [|x l IH]; intros t; simpl.
  - apply Vec3_eq; vec_simpl; lra.
  - rewrite IH. apply Vec3_eq; vec_simpl; lra.
Qed.

(** A double sum of terms that vanish on the diagonal and cancel in pairs
    is zero. *)
Lemma vsum_over_cancel {A} (g : A -> A -> Vec3) (l : list A) :
  (forall x, g x x = zeros) ->
  (forall x y, g x y +v g y x = zeros) ->
  vsum_over (fun x => vsum_over (g x) l) l = zeros.
Proof.
  intros Hdiag Hpair. induction l as [|a l IH]; [done |].
  change (vsum_over (fun x => vsum_over (g x) (a :: l)) (a :: l))
    with ((g a a +v vsum_over (g a) l)
          +v vsum_over (fun x => g x a +v vsum_over (g x) l) l).
  rewrite vsum_over_plus, IH, Hdiag.
  assert (vsum_over (g a) l +v vsum_over (fun x => g x a) l = zeros) as H.
  { rewrite <- vsum_over_plus.
    rewrite (vsum_over_ext _ (fun _ => zeros)) by (intros; apply Hpair).
    apply vsum_over_zeros. }
  revert H. generalize (vsum_over (g a) l) (vsum_over (fun x => g x a) l).
  intros u w H. apply (f_equal vx) in H as Hx. apply (f_equal vy) in H as Hy.
  apply (f_equal vz) in H as Hz.
  apply Vec3_eq; vec_simpl; lra.
Qed.

Lemma cross_vsum_over {A} (p : Vec3) (f : A -> Vec3) (l : list A) :
  cross p (vsum_over f l) = vsum_over (fun y => cross p (f y)) l.
Proof.
  unfold vsum_over. induction l as [|x l IH]; simpl.
  - unfold cross. apply Vec3_eq; vec_simpl; lra.
  - rewrite <- IH. unfold cross. apply Vec3_eq; vec_simpl; lra.
Qed.

(** The pulls of two bodies on each other exert no torque together. *)
Lemma cross_pull (self : GravityEngine) (b1 b2 : CelestialBody) :
  cross (position b1) (pull self b1 b2)
  +v cross (position b2) (pull self b2 b1) = zeros.
Proof.
  unfold pull. cbv zeta.
  rewrite (norm_vsub_sym (position b1) (position b2)).
  destruct (Req_dec_T _ 0) as [Hr|Hr].
  - unfold cross. apply Vec3_eq; vec_simpl; lra.
  - unfold cross. apply Vec3_eq; vec_simpl; field; done.
Qed.

(** The torques of the forces that the calculator returns add up to
    zero. *)
Lemma total_torque (self : GravityEngine) (bodies : Bodies) :
  vsum_over (fun x : string * CelestialBody =>
               cross (position x.2)
                     (zeros +v vsum_over (fun y => pull self x.2 y.2) bodies))
            bodies
  = zeros.
Proof.
  rewrite (vsum_over_ext _
             (fun x => vsum_over
                         (fun y => cross (position x.2)
                                         (pull self x.2 y.2)) bodies)).
  - apply (vsum_over_cancel
             (fun x y : string * CelestialBody =>
                cross (position x.2) (pull self x.2 y.2))).
    + intros x. rewrite pull_self. unfold cross.
      apply Vec3_eq; vec_simpl; lra.
    + intros x y. apply cross_pull.
  - intros x. rewrite <- cross_vsum_over. f_equal.
    apply Vec3_eq; vec_simpl; lra.
Qed.

(** The angular momentum after an Euler step with the forces [F]. *)
Lemma euler_updated_angular_momentum (forces : gmap string Vec3) (dt : R)
    (F : string * CelestialBody -> Vec3) (bodies bodies' : Bodies) :
  Forall2 (euler_updated forces dt) bodies bodies' ->
  Forall (fun kb => 0 < mass kb.2 /\ forces !! kb.1 = Some (F kb)) bodies ->
  vsum_over (fun b => cross (position b) (mass b s* velocity b))
            (values bodies')
  = vsum_over (fun b => cross (position b) (mass b s* velocity b))
              (values bodies)
    +v dt s* vsum_over (fun kb => cross (position kb.2) (F kb)) bodies.
Proof.
  unfold values, vsum_over.
  induction 1 as [|[k b] [k' b'] l l' Hx _ IH]; intros Hall.
  - simpl. apply Vec3_eq; vec_simpl; lra.
  - apply Forall_cons in Hall as [[Hm HF] Hall]. simpl in Hm, HF.
    destruct Hx as [_ (f & Hf & Hb')]. simpl in Hf, Hb'. subst b'.
    replace f with (F (k, b)) by congruence.
    csimpl. rewrite (IH Hall). rewrite euler_body_fields. simpl.
    destruct (Rlt_dec 0 (mass b)) as [_|Hn]; [|done].
    unfold cross. apply Vec3_eq; vec_simpl; field; lra.
Qed.

(** X26.  The Euler step conserves the angular momentum: for distinct keys
    and positive masses the step returns a collection with the angular
    momentum of the one it was given (the step moves every body along its
    new velocity, and the forces are central, so their torques cancel). *)
Theorem euler_integration_conserves_angular_momentum
    (self : GravityEngine) (bodies : Bodies) (dt : R) :
  NoDup (keys bodies) ->
  Forall (fun kb => 0 < mass kb.2) bodies ->
  exists bodies',
    euler_integration self bodies dt = Ok bodies'
    /\ calculate_angular_momentum self bodies'
       = calculate_angular_momentum self bodies.
Proof.
  intros Hnd Hmass.
  destruct (euler_integration_returns self bodies dt)
    as (forces & bodies' & Hf & He & Hrel).
  exists bodies'. split; [done |].
  rewrite calculate_gravitational_forces_all_pairs in Hf.
  destruct (all_pairs_forces self bodies Hnd _
              (initial_forces_has_keys bodies))
    as (forces' & Hf' & Hin & _).
  replace forces' with forces in Hin by congruence.
  unfold calculate_angular_momentum. rewrite !foldl_vsum.
  rewrite (euler_updated_angular_momentum forces dt
             (fun x => zeros +v vsum_over (fun y => pull self x.2 y.2) bodies)
             bodies bodies' Hrel).
  - rewrite total_torque. apply Vec3_eq; vec_simpl; lra.
  - apply Forall_forall. intros [k b] Hkb. split.
    + by apply (proj1 (Forall_forall _ _) Hmass (k, b)).
    + apply (Hin k b zeros Hkb).
      by apply initial_forces_lookup, (elem_of_keys bodies k b).
Qed.

Lemma euler_integration_conserves_angular_momentum_witness :
  exists bodies',
    euler_integration GravityEngine_init two_bodies 1 = Ok bodies'
    /\ calculate_angular_momentum GravityEngine_init bodies'
       = calculate_angular_momentum GravityEngine_init two_bodies.
Proof.
  apply euler_integration_conserves_angular_momentum.
  - apply two_bodies_keys.
  - apply two_bodies_masses.
Defined.

(** * The correction, against the mass-weighted means *)

Lemma total_mass_sum_over (l : list CelestialBody) :
  foldl (fun s body => s + mass body) 0 l = sum_over mass l.
Proof. rewrite (foldl_sum mass). lra. Qed.

Lemma weighted_sum_vsum_over (f : CelestialBody -> Vec3)
    (l : list CelestialBody) :
  foldl (fun c body => c +v mass body s* f body) zeros l
  = vsum_over (fun body => mass body s* f body) l.
Proof.
  rewrite (foldl_vsum (fun body => mass body s* f body)).
  apply Vec3_eq; vec_simpl; lra.
Qed.

(** The two queries return the mass-weighted means. *)
Lemma find_center_of_mass_weighted_mean (self : GravityEngine)
    (bodies : Bodies) :
  foldl (fun s body => s + mass body) 0 (values bodies) <> 0 ->
  find_center_of_mass self bodies = weighted_mean position (values bodies)
  /\ find_center_of_mass_velocity self bodies
     = weighted_mean velocity (values bodies).
Proof.
  intros Hm. unfold find_center_of_mass, find_center_of_mass_velocity.
  destruct (Req_dec_T _ 0) as [|_]; [done |].
  unfold weighted_mean.
  by rewrite !weighted_sum_vsum_over, total_mass_sum_over.
Qed.

Lemma vdiv_zeros_inv (a : Vec3) (s : R) : s <> 0 -> a /s s = zeros -> a = zeros.
Proof.
  intros Hs H.
  apply (f_equal vx) in H as Hx. apply (f_equal vy) in H as Hy.
  apply (f_equal vz) in H as Hz. vec_simpl.
  assert (forall x, x / s = 0 -> x = 0) as Hdiv.
  { intros x Hx0. replace x with (x / s * s) by (field; done).
    rewrite Hx0. lra. }
  apply Vec3_eq; simpl; by apply Hdiv.
Qed.

(** Where the total mass is not zero, the mass-weighted sums of a
    collection whose centre of mass is at the origin and at rest are
    zero. *)
Lemma find_center_of_mass_zeros_inv (self : GravityEngine) (bodies : Bodies) :
  foldl (fun s body => s + mass body) 0 (values bodies) <> 0 ->
  find_center_of_mass self bodies = zeros ->
  find_center_of_mass_velocity self bodies = zeros ->
  vsum_over (fun body => mass body s* position body) (values bodies) = zeros
  /\ vsum_over (fun body => mass body s* velocity body) (values bodies)
     = zeros.
Proof.
  intros Hm Hc Hv.
  destruct (find_center_of_mass_weighted_mean self bodies Hm) as [Hp Hu].
  rewrite Hp in Hc. rewrite Hu in Hv. unfold weighted_mean in Hc, Hv.
  rewrite <- total_mass_sum_over in Hc, Hv.
  split; by eapply vdiv_zeros_inv.
Qed.

Lemma apply_correction_items (self : GravityEngine) (bodies : Bodies) :
  apply_correction self bodies
  = (fun '(body_key, body) =>
       (body_key,
        set_velocity
          (set_position body
             (position body -v find_center_of_mass self bodies))
          (velocity body -v find_center_of_mass_velocity self bodies)))
    <$> bodies.
Proof.
  unfold apply_correction.
  rewrite (find_center_of_mass_velocity_fmap self
             (fun body => set_position body
                (position body -v find_center_of_mass self bodies)))
    by done.
  rewrite <- list_fmap_compose. apply list_fmap_ext. by intros _ [k b] _.
Qed.

(** C9.  For a non-empty collection of bodies of positive mass the two
    queries return the mass-weighted means of the positions and of the
    velocities (the sum of [mass * position] over the sum of the masses),
    and the correction subtracts these two means from the position and the
    velocity of every body and changes nothing else.  After one correction
    the sums of [mass * position] and of [mass * velocity] are the zero
    vector, so the centre of mass and its velocity are the zero vector, and
    a second correction changes nothing.  For a collection of total mass
    zero, such as the empty one, both queries return the zero vector and
    the correction changes nothing. *)
Theorem apply_correction_idempotent (self : GravityEngine)
    (bodies : Bodies) :
  (bodies <> [] -> Forall (fun kb => 0 < mass kb.2) bodies ->
   find_center_of_mass self bodies = weighted_mean position (values bodies)
   /\ find_center_of_mass_velocity self bodies
      = weighted_mean velocity (values bodies)
   /\ apply_correction self bodies
      = (fun '(body_key, body) =>
           (body_key,
            set_velocity
              (set_position body
                 (position body -v weighted_mean position (values bodies)))
              (velocity body -v weighted_mean velocity (values bodies))))
        <$> bodies
   /\ vsum_over (fun body => mass body s* position body)
                (values (apply_correction self bodies)) = zeros
   /\ vsum_over (fun body => mass body s* velocity body)
                (values (apply_correction self bodies)) = zeros
   /\ find_center_of_mass self (apply_correction self bodies) = zeros
   /\ find_center_of_mass_velocity self (apply_correction self bodies) = zeros
   /\ apply_correction self (apply_correction self bodies)
      = apply_correction self bodies)
  /\ (foldl (fun s body => s + mass body) 0 (values bodies) = 0 ->
      find_center_of_mass self bodies = zeros
      /\ find_center_of_mass_velocity self bodies = zeros
      /\ apply_correction self bodies = bodies)
  /\ (find_center_of_mass self [] = zeros
      /\ find_center_of_mass_velocity self [] = zeros
      /\ apply_correction self [] = []).
Proof.
  assert (foldl (fun s body => s + mass body) 0 (values bodies) = 0 ->
          find_center_of_mass self bodies = zeros
          /\ find_center_of_mass_velocity self bodies = zeros) as Hzero.
  { intros H0. unfold find_center_of_mass, find_center_of_mass_velocity.
    by destruct (Req_dec_T _ 0). }
  split; [|split].
  - intros Hne Hpos.
    assert (foldl (fun s body => s + mass body) 0 (values bodies) <> 0) as Hm.
    { apply Rgt_not_eq, Rlt_gt, total_mass_positive.
      - unfold values. by destruct bodies.
      - unfold values. by apply Forall_fmap. }
    destruct (find_center_of_mass_weighted_mean self bodies Hm) as [Hp Hu].
    destruct (apply_correction_centres self bodies Hm) as [Hc Hv].
    assert (foldl (fun s body => s + mass body) 0
                  (values (apply_correction self bodies)) <> 0) as Hm'.
    { rewrite apply_correction_values. by rewrite total_mass_fmap. }
    destruct (find_center_of_mass_zeros_inv self _ Hm' Hc Hv) as [Hsp Hsv].
    split; [done |]. split; [done |].
    split; [by rewrite apply_correction_items, Hp, Hu |].
    split; [done |]. split; [done |]. split; [done |]. split; [done |].
    by apply apply_correction_centred.
  - intros H0. destruct (Hzero H0) as [Hc Hv].
    split; [done |]. split; [done |].
    by apply apply_correction_centred.
  - unfold find_center_of_mass, find_center_of_mass_velocity. simpl.
    by destruct (Req_dec_T 0 0).
Qed.

Lemma apply_correction_idempotent_witness :
  apply_correction GravityEngine_init
    [("a", example_body 1 1 (mkVec3 1 0 0) (mkVec3 0 1 0));
     ("b", example_body 3 1 (mkVec3 5 0 0) zeros)]
  = [("a", example_body 1 1 (mkVec3 (-3) 0 0) (mkVec3 0 (3 / 4) 0));
     ("b", example_body 3 1 (mkVec3 1 0 0) (mkVec3 0 (- (1 / 4)) 0))]
  /\ apply_correction GravityEngine_init
       (apply_correction GravityEngine_init
          [("a", example_body 1 1 (mkVec3 1 0 0) (mkVec3 0 1 0));
           ("b", example_body 3 1 (mkVec3 5 0 0) zeros)])
     = apply_correction GravityEngine_init
         [("a", example_body 1 1 (mkVec3 1 0 0) (mkVec3 0 1 0));
          ("b", example_body 3 1 (mkVec3 5 0 0) zeros)]
  /\ apply_correction GravityEngine_init [] = [].
Proof.
  assert (Forall (fun kb : string * CelestialBody => 0 < mass kb.2)
            [("a", example_body 1 1 (mkVec3 1 0 0) (mkVec3 0 1 0));
             ("b", example_body 3 1 (mkVec3 5 0 0) zeros)]) as Hpos
    by (repeat constructor; simpl; lra).
  destruct (proj1 (apply_correction_idempotent GravityEngine_init
                     [("a", example_body 1 1 (mkVec3 1 0 0) (mkVec3 0 1 0));
                      ("b", example_body 3 1 (mkVec3 5 0 0) zeros)])
              ltac:(done) Hpos)
    as (_ & _ & Hitems & _ & _ & _ & _ & Hidem).
  split; [|split].
  - rewrite Hitems. unfold weighted_mean, vsum_over, example_body. simpl.
    repeat f_equal; unfold set_velocity, set_position; simpl;
      f_equal; apply Vec3_eq; vec_simpl; field.
  - exact Hidem.
  - apply (proj1 (proj2 (apply_correction_idempotent GravityEngine_init []))).
    reflexivity.
Defined.
